(** * caddy-dynamicdns-cmd-source: the [command] IP source

    A shallow embedding of [command.go] (package [command]) and the
    verification of its execution-and-validation pipeline: argument
    expansion, running the external command, parsing its output into
    addresses and filtering them by family and range policy.

    Go strings are byte sequences; they are modelled as [list byte].
    The library functions the module calls ([strings.TrimSpace],
    [strings.Split], [os/exec], [net/netip]) are modelled after the Go
    standard library; the functions of Caddy and of caddy-dynamicdns
    that the module calls ([Replacer.ReplaceAll], [IPSettings.Contains])
    are section variables.  The token dispenser that
    [UnmarshalCaddyfile] reads is modelled after Caddy's [caddyfile]
    package, and the replacer that [GetIPs] expands its arguments with
    after Caddy's [replacer.go]. *)

From Stdlib Require Import List ZArith Lia Bool Arith.
From Stdlib Require Import Strings.Byte.
From Stdlib Require Import DecimalString.
Import ListNotations.

#[local] Open Scope Z_scope.

(** ** Go strings *)

Definition gostring : Type := list byte.

Inductive gostring_literal : Set :=
| lit_nil
| lit_cons (b : byte) (s : gostring_literal).

Fixpoint literal_of_bytes (l : list byte) : gostring_literal :=
  match l with
  | [] => lit_nil
  | b :: t => lit_cons b (literal_of_bytes t)
  end.

Fixpoint bytes_of_literal (l : gostring_literal) : list byte :=
  match l with
  | lit_nil => []
  | lit_cons b t => b :: bytes_of_literal t
  end.

Declare Scope go_scope.
Delimit Scope go_scope with go.
#[local] Set Warnings "-via-type-remapping,-via-type-mismatch".
String Notation gostring literal_of_bytes bytes_of_literal
  (via gostring_literal mapping [[nil] => lit_nil, [cons] => lit_cons])
  : go_scope.
#[local] Set Warnings "via-type-remapping,via-type-mismatch".

Definition gostring_eqb (a b : gostring) : bool :=
  if list_eq_dec Byte.byte_eq_dec a b then true else false.

Definition isEmpty (s : gostring) : bool :=
  match s with [] => true | _ :: _ => false end.

(** [strconv.Itoa] / the [%d] verb of [fmt]: decimal digits, a leading
    minus sign for negative numbers. *)
Definition Itoa (n : Z) : gostring :=
  String.list_byte_of_string (NilZero.string_of_int (Z.to_int n)).

(** ** Package [strings] *)

Module strings.

(** The table [asciiSpace] of package [strings]. *)
Definition asciiSpace (c : byte) : bool :=
  match c with
  | x09 | x0a | x0b | x0c | x0d | x20 => true
  | _ => false
  end.

(** The UTF-8 encodings of the runes for which [unicode.IsSpace] holds:
    the six ASCII ones, U+0085, U+00A0, U+1680, U+2000..U+200A, U+2028,
    U+2029, U+202F, U+205F and U+3000. *)
Definition spaceRunes : list gostring :=
  [ [x09]; [x0a]; [x0b]; [x0c]; [x0d]; [x20];
    [xc2; x85]; [xc2; xa0];
    [xe1; x9a; x80];
    [xe2; x80; x80]; [xe2; x80; x81]; [xe2; x80; x82]; [xe2; x80; x83];
    [xe2; x80; x84]; [xe2; x80; x85]; [xe2; x80; x86]; [xe2; x80; x87];
    [xe2; x80; x88]; [xe2; x80; x89]; [xe2; x80; x8a];
    [xe2; x80; xa8]; [xe2; x80; xa9]; [xe2; x80; xaf];
    [xe2; x81; x9f];
    [xe3; x80; x80] ].

(** [TrimLeftFunc(s, unicode.IsSpace)]: runes are decoded from the
    front ([utf8.DecodeRuneInString]) and dropped while they are white
    space; an invalid or truncated sequence decodes to [RuneError],
    which is not white space, and stops the scan. *)
Fixpoint TrimLeftSpace (s : gostring) : gostring :=
  match s with
  | [] => []
  | c :: s1 =>
      if asciiSpace c then TrimLeftSpace s1
      else
        match c, s1 with
        | xc2, (x85 | xa0) :: s2 => TrimLeftSpace s2
        | xe1, x9a :: x80 :: s3 => TrimLeftSpace s3
        | xe2, x80 :: (x80 | x81 | x82 | x83 | x84 | x85 | x86 | x87
                       | x88 | x89 | x8a | xa8 | xa9 | xaf) :: s3 =>
            TrimLeftSpace s3
        | xe2, x81 :: x9f :: s3 => TrimLeftSpace s3
        | xe3, x80 :: x80 :: s3 => TrimLeftSpace s3
        | _, _ => s
        end
  end.

(** The same scan over the reversed string: it is
    [TrimRightFunc(s, unicode.IsSpace)] seen from the end, where
    [utf8.DecodeLastRuneInString] walks back to the closest byte that
    starts a rune and accepts it when the rune ends at the end. *)
Fixpoint trimLeftSpaceRev (s : gostring) : gostring :=
  match s with
  | [] => []
  | c :: s1 =>
      if asciiSpace c then trimLeftSpaceRev s1
      else
        match c, s1 with
        | (x85 | xa0), xc2 :: s2 => trimLeftSpaceRev s2
        | x80, x9a :: xe1 :: s3 => trimLeftSpaceRev s3
        | (x80 | x81 | x82 | x83 | x84 | x85 | x86 | x87
           | x88 | x89 | x8a | xa8 | xa9 | xaf), x80 :: xe2 :: s3 =>
            trimLeftSpaceRev s3
        | x9f, x81 :: xe2 :: s3 => trimLeftSpaceRev s3
        | x80, x80 :: xe3 :: s3 => trimLeftSpaceRev s3
        | _, _ => s
        end
  end.

Definition TrimRightSpace (s : gostring) : gostring :=
  rev (trimLeftSpaceRev (rev s)).

(** [strings.TrimSpace]: its ASCII fast path and its fall-back to
    [TrimFunc] compute the string without its leading and trailing
    white-space runes. *)
Definition TrimSpace (s : gostring) : gostring :=
  TrimRightSpace (TrimLeftSpace s).

(** [strings.Split(s, sep)] for a separator of one byte (the module
    only splits on [","]): the substrings between the separators, one
    more than there are separators. *)
Fixpoint Split (s : gostring) (sep : byte) : list gostring :=
  match s with
  | [] => [[]]
  | c :: s' =>
      if Byte.eqb c sep then [] :: Split s' sep
      else
        match Split s' sep with
        | tok :: toks => (c :: tok) :: toks
        | [] => [[c]]
        end
  end.

(** [strings.Join(elems, sep)] for a separator of one byte. *)
Fixpoint Join (elems : list gostring) (sep : byte) : gostring :=
  match elems with
  | [] => []
  | [e] => e
  | e :: rest => e ++ sep :: Join rest sep
  end.

End strings.

(** ** Errors *)

(** [os.ProcessState] on Unix: the process exited with a code, or was
    terminated by a signal. *)
Inductive ProcessState : Type :=
| Exited (code : Z)
| Signaled (sig : gostring).

(** The error values that reach the module. *)
Inductive error : Type :=
| ExitError (state : ProcessState)      (* [*exec.ExitError] *)
| StartError (msg : gostring)           (* any other error of [exec.Cmd.Run] *)
| ParseAddrError (msg : gostring)       (* the error of [netip.ParseAddr], by its message *)
| Errorf (msg : gostring).              (* the result of [fmt.Errorf] *)

Module os.

(** [ProcessState.ExitCode]: -1 for a nil state and for a process
    terminated by a signal. *)
Definition ExitCode (p : option ProcessState) : Z :=
  match p with
  | Some (Exited code) => code
  | Some (Signaled _) => -1
  | None => -1
  end.

(** [ProcessState.Success]. *)
Definition Success (p : ProcessState) : bool :=
  match p with
  | Exited code => code =? 0
  | Signaled _ => false
  end.

(** [ProcessState.String]. *)
Definition String (p : ProcessState) : gostring :=
  match p with
  | Exited code => "exit status "%go ++ Itoa code
  | Signaled sig => "signal: "%go ++ sig
  end.

End os.

(** The method [Error()] of the error values. *)
Definition Error (e : error) : gostring :=
  match e with
  | ExitError state => os.String state
  | StartError msg => msg
  | ParseAddrError msg => msg
  | Errorf msg => msg
  end.

(** ** Package [context] *)

Module context.

(** A context is represented by the time left until it is done
    (nanoseconds; [None]: it is never done). *)
Definition Context : Type := option Z.

Definition Background : Context := None.

(** [context.WithTimeout]: the earlier of the parent's end and the
    new deadline. *)
Definition WithTimeout (parent : Context) (timeout : Z) : Context :=
  match parent with
  | None => Some timeout
  | Some remaining => Some (Z.min remaining timeout)
  end.

End context.

(** ** Package [os/exec] *)

Module exec.

(** [exec.Cmd] as built by [exec.CommandContext]: the context, the
    name of the program, its arguments and the working directory. *)
Record Cmd : Type := {
  Ctx : context.Context;
  Name : gostring;
  Args : list gostring;
  Dir : gostring
}.

Definition CommandContext (ctx : context.Context) (name : gostring)
    (arg : list gostring) : Cmd :=
  {| Ctx := ctx; Name := name; Args := arg; Dir := ""%go |}.

Definition withDir (cmd : Cmd) (dir : gostring) : Cmd :=
  {| Ctx := Ctx cmd; Name := Name cmd; Args := Args cmd; Dir := dir |}.

(** What the operating system does with a command: it cannot be
    started, or it runs, writes to its standard output and standard
    error, and ends in a process state. *)
Inductive Behaviour : Type :=
| StartFails (msg : gostring)
| Runs (state : ProcessState) (stdout stderr : gostring).

(** What the module reads after [cmd.Run()]: the error returned, the
    field [ProcessState] and the two buffers. *)
Record RunResult : Type := {
  run_err : option error;
  run_state : option ProcessState;
  run_stdout : gostring;
  run_stderr : gostring
}.

(** [Cmd.Run]: "The returned error is nil if the command runs, has
    no problems copying stdin, stdout, and stderr, and exits with a
    zero exit status.  If the command starts but does not complete
    successfully, the error is of type [*ExitError]." *)
Definition Run (b : Behaviour) : RunResult :=
  match b with
  | StartFails msg =>
      {| run_err := Some (StartError msg); run_state := None;
         run_stdout := []; run_stderr := [] |}
  | Runs state stdout stderr =>
      {| run_err := if os.Success state then None
                    else Some (ExitError state);
         run_state := Some state;
         run_stdout := stdout; run_stderr := stderr |}
  end.

End exec.

(** ** Package [net/netip]: addresses *)

Module netip.

(** The field [z] of [netip.Addr]: [z0] for the zero address, [z4]
    for an IPv4 address, and for an IPv6 address its zone ([z6noz] is
    the empty zone). *)
Inductive zoneTag : Type :=
| z0
| z4
| z6 (zone : gostring).

(** [netip.Addr]: a 128-bit number (two 64-bit halves) and [z]. *)
Record Addr : Type := {
  hi : N;
  lo : N;
  z : zoneTag
}.

Definition Is4 (ip : Addr) : bool :=
  match z ip with z4 => true | _ => false end.

Definition Is6 (ip : Addr) : bool :=
  match z ip with z6 _ => true | _ => false end.

(** Big-endian value of a sequence of bytes. *)
Definition beValue (bs : list N) : N :=
  fold_left (fun acc b => (acc * 256 + b)%N) bs 0%N.

(** [netip.AddrFrom4]: the IPv4 address as an IPv4-mapped number. *)
Definition AddrFrom4 (fields : list N) : Addr :=
  {| hi := 0; lo := (0xffff00000000 + beValue fields)%N; z := z4 |}.

(** [netip.AddrFrom16]. *)
Definition AddrFrom16 (ip : list N) : Addr :=
  {| hi := beValue (firstn 8 ip); lo := beValue (skipn 8 ip); z := z6 [] |}.

(** [netip.Addr.WithZone]: only an IPv6 address takes a zone. *)
Definition WithZone (ip : Addr) (zone : gostring) : Addr :=
  if Is6 ip then {| hi := hi ip; lo := lo ip; z := z6 zone |} else ip.

Definition digitVal (c : byte) : option N :=
  match c with
  | "0"%byte => Some 0%N | "1"%byte => Some 1%N | "2"%byte => Some 2%N
  | "3"%byte => Some 3%N | "4"%byte => Some 4%N | "5"%byte => Some 5%N
  | "6"%byte => Some 6%N | "7"%byte => Some 7%N | "8"%byte => Some 8%N
  | "9"%byte => Some 9%N
  | _ => None
  end.

Definition hexVal (c : byte) : option N :=
  match c with
  | "a"%byte | "A"%byte => Some 10%N
  | "b"%byte | "B"%byte => Some 11%N
  | "c"%byte | "C"%byte => Some 12%N
  | "d"%byte | "D"%byte => Some 13%N
  | "e"%byte | "E"%byte => Some 14%N
  | "f"%byte | "F"%byte => Some 15%N
  | _ => digitVal c
  end.

(** The loop of [parseIPv4Fields] over the rest of the string: [first]
    says that the index is 0, [prevDot] that the byte before is a dot;
    [val], [pos] and [digLen] are the variables of the loop and
    [fields] the octets stored so far. *)
Fixpoint parseIPv4Loop (s : gostring) (first prevDot : bool)
    (val : N) (pos : nat) (digLen : nat) (fields : list N)
    : list N + gostring :=
  match s with
  | [] =>
      if (pos <? 3)%nat then inr "IPv4 address too short"%go
      else inl (fields ++ [val])
  | c :: s' =>
      match digitVal c with
      | Some d =>
          if ((digLen =? 1)%nat && (val =? 0)%N)%bool then
            inr "IPv4 field has octet with leading zero"%go
          else
            let val := (val * 10 + d)%N in
            if (255 <? val)%N then inr "IPv4 field has value >255"%go
            else parseIPv4Loop s' false false val pos (S digLen) fields
      | None =>
          if Byte.eqb c "."%byte then
            if (first || isEmpty s' || prevDot)%bool then
              inr "IPv4 field must have at least one digit"%go
            else if (pos =? 3)%nat then inr "IPv4 address too long"%go
            else parseIPv4Loop s' false true 0%N (S pos) 0%nat (fields ++ [val])
          else inr "unexpected character"%go
      end
  end.

Definition parseIPv4Fields (s : gostring) : list N + gostring :=
  parseIPv4Loop s true false 0%N 0%nat 0%nat [].

(** [parseIPv4] parses [s] as an IPv4 address (in form "192.168.0.1"). *)
Definition parseIPv4 (s : gostring) : Addr + error :=
  match parseIPv4Fields s with
  | inl fields => inl (AddrFrom4 fields)
  | inr msg => inr (ParseAddrError msg)
  end.

(** The scan of one group of hexadecimal digits in [parseIPv6]:
    the value, the number of digits and the rest of the string. *)
Fixpoint scanHex (s : gostring) (off : nat) (acc : N)
    : (N * nat * gostring) + gostring :=
  match s with
  | [] => inl (acc, off, [])
  | c :: s' =>
      match hexVal c with
      | Some d =>
          let acc := (acc * 16 + d)%N in
          if (3 <? off)%nat then
            inr "each group must have 4 or less digits"%go
          else if (0xffff <? acc)%N then
            inr "IPv6 field has value >=2^16"%go
          else scanHex s' (S off) acc
      | None => inl (acc, off, s)
      end
  end.

(** The loop "parsing hex numbers followed by colon" of [parseIPv6]:
    [ip] holds the bytes stored so far (their number is the index [i]),
    [fuel] is the number of groups that still fit, and the result is
    the rest of the string, the bytes and the place of the ellipsis. *)
Fixpoint parseIPv6Loop (fuel : nat) (s : gostring) (ip : list N)
    (ellipsis : option nat) : (gostring * list N * option nat) + gostring :=
  match fuel with
  | O => inl (s, ip, ellipsis)
  | S fuel' =>
      match scanHex s 0 0%N with
      | inr msg => inr msg
      | inl (acc, off, rest) =>
          if (off =? 0)%nat then
            inr "each colon-separated field must have at least one digit"%go
          else if match rest with
                  | c :: _ => Byte.eqb c "."%byte
                  | [] => false
                  end
          then
            if (match ellipsis with None => true | Some _ => false end
                && negb (length ip =? 12)%nat)%bool then
              inr "embedded IPv4 address must replace the final 2 fields of the address"%go
            else if (16 <? length ip + 4)%nat then
              inr "too many hex fields to fit an embedded IPv4 at the end of the address"%go
            else
              match parseIPv4Fields s with
              | inr msg => inr msg
              | inl fields => inl ([], ip ++ fields, ellipsis)
              end
          else
            let ip := ip ++ [(acc / 256)%N; (acc mod 256)%N] in
            match rest with
            | [] => inl ([], ip, ellipsis)
            | c :: s1 =>
                if negb (Byte.eqb c ":"%byte) then
                  inr "unexpected character, want colon"%go
                else
                  match s1 with
                  | [] => inr "colon must be followed by more characters"%go
                  | c1 :: s2 =>
                      if Byte.eqb c1 ":"%byte then
                        match ellipsis with
                        | Some _ => inr "multiple :: in address"%go
                        | None =>
                            match s2 with
                            | [] => inl ([], ip, Some (length ip))
                            | _ :: _ =>
                                parseIPv6Loop fuel' s2 ip (Some (length ip))
                            end
                        end
                      else parseIPv6Loop fuel' s1 ip ellipsis
                  end
            end
      end
  end.

(** The first index of a byte in a string, as [strings.IndexByte]
    finds it: the string before it and the string after it. *)
Fixpoint cutByte (s : gostring) (b : byte) : option (gostring * gostring) :=
  match s with
  | [] => None
  | c :: s' =>
      if Byte.eqb c b then Some ([], s')
      else
        match cutByte s' b with
        | Some (before, after) => Some (c :: before, after)
        | None => None
        end
  end.

(** The end of [parseIPv6]: the string must be used up, and the
    ellipsis is expanded to the missing zero bytes. *)
Definition finishIPv6 (s : gostring) (ip : list N) (ellipsis : option nat)
    (zone : gostring) : Addr + error :=
  if negb (isEmpty s) then
    inr (ParseAddrError "trailing garbage after address"%go)
  else if (length ip <? 16)%nat then
    match ellipsis with
    | None => inr (ParseAddrError "address string too short"%go)
    | Some e =>
        let n := (16 - length ip)%nat in
        inl (WithZone
               (AddrFrom16 (firstn e ip ++ repeat 0%N n ++ skipn e ip)) zone)
    end
  else
    match ellipsis with
    | Some _ =>
        inr (ParseAddrError
               "the :: must expand to at least one field of zeros"%go)
    | None => inl (WithZone (AddrFrom16 ip) zone)
    end.

(** "Might have leading ellipsis": the rest of the string and the
    place of the ellipsis. *)
Definition leadingEllipsis (s : gostring) : gostring * option nat :=
  match s with
  | c0 :: c1 :: s' =>
      if (Byte.eqb c0 ":"%byte && Byte.eqb c1 ":"%byte)%bool
      then (s', Some 0%nat)
      else (s, None)
  | _ => (s, None)
  end.

(** [parseIPv6] after the zone has been split off. *)
Definition parseIPv6Groups (s zone : gostring) : Addr + error :=
  let '(s1, ellipsis) := leadingEllipsis s in
  match ellipsis, s1 with
  | Some _, [] => inl (WithZone (AddrFrom16 (repeat 0%N 16)) zone)
  | _, _ =>
      match parseIPv6Loop 8 s1 [] ellipsis with
      | inr msg => inr (ParseAddrError msg)
      | inl (s2, ip, ellipsis) => finishIPv6 s2 ip ellipsis zone
      end
  end.

(** [parseIPv6] parses [in] as an IPv6 address (in form "2001:db8::68"). *)
Definition parseIPv6 (input : gostring) : Addr + error :=
  match cutByte input "%"%byte with
  | Some (s, zone) =>
      if isEmpty zone then
        inr (ParseAddrError "zone must be a non-empty string"%go)
      else parseIPv6Groups s zone
  | None => parseIPv6Groups input []
  end.

(** The scan of [ParseAddr] for the first dot, colon or percent sign. *)
Fixpoint parseAddrScan (s whole : gostring) : Addr + error :=
  match s with
  | [] => inr (ParseAddrError "unable to parse IP"%go)
  | c :: s' =>
      if Byte.eqb c "."%byte then parseIPv4 whole
      else if Byte.eqb c ":"%byte then parseIPv6 whole
      else if Byte.eqb c "%"%byte then
        inr (ParseAddrError "missing IPv6 address"%go)
      else parseAddrScan s' whole
  end.

(** [netip.ParseAddr] parses [s] as an IP address: dotted decimal
    ("192.0.2.1"), IPv6 ("2001:db8::68"), or IPv6 with a scoped
    addressing zone ("fe80::1cc0:3e8c:119f:c2e1%ens18"). *)
Definition ParseAddr (s : gostring) : Addr + error :=
  parseAddrScan s s.

(** The four bytes of the low 32 bits, in dotted decimal
    ([string4]). *)
Definition string4 (ip : Addr) : gostring :=
  let v := (lo ip mod 4294967296)%N in
  Itoa (Z.of_N (v / 16777216)) ++ "."%go
  ++ Itoa (Z.of_N (v / 65536 mod 256)) ++ "."%go
  ++ Itoa (Z.of_N (v / 256 mod 256)) ++ "."%go
  ++ Itoa (Z.of_N (v mod 256)).

(** [netip.Addr.Is4In6]: an IPv4-mapped IPv6 address. *)
Definition Is4In6 (ip : Addr) : bool :=
  (Is6 ip && (hi ip =? 0)%N && (lo ip / 4294967296 =? 0xffff)%N)%bool.

Definition hexDigit (d : N) : byte :=
  match d with
  | 0%N => "0" | 1%N => "1" | 2%N => "2" | 3%N => "3" | 4%N => "4"
  | 5%N => "5" | 6%N => "6" | 7%N => "7" | 8%N => "8" | 9%N => "9"
  | 10%N => "a" | 11%N => "b" | 12%N => "c" | 13%N => "d" | 14%N => "e"
  | _ => "f"
  end%byte.

(** [appendHex]: lower-case hexadecimal without leading zeros. *)
Definition appendHex (x : N) : gostring :=
  (if (0x1000 <=? x)%N then [hexDigit (x / 4096)] else [])
  ++ (if (0x100 <=? x)%N then [hexDigit (x / 256 mod 16)] else [])
  ++ (if (0x10 <=? x)%N then [hexDigit (x / 16 mod 16)] else [])
  ++ [hexDigit (x mod 16)].

(** The eight 16-bit groups of an address ([v6u16]). *)
Definition groups (ip : Addr) : list N :=
  [ (hi ip / 281474976710656 mod 65536)%N; (hi ip / 4294967296 mod 65536)%N;
    (hi ip / 65536 mod 65536)%N; (hi ip mod 65536)%N;
    (lo ip / 281474976710656 mod 65536)%N; (lo ip / 4294967296 mod 65536)%N;
    (lo ip / 65536 mod 65536)%N; (lo ip mod 65536)%N ].

Fixpoint zeroRun (gs : list N) : nat :=
  match gs with
  | 0%N :: gs' => S (zeroRun gs')
  | _ => O
  end.

(** The first longest run of at least two zero groups: its start and
    its end (255 and 255 when there is none). *)
Fixpoint findZeros (i : nat) (gs : list N) (zeroStart zeroEnd : nat)
    : nat * nat :=
  match gs with
  | [] => (zeroStart, zeroEnd)
  | _ :: gs' =>
      let l := zeroRun gs in
      if ((2 <=? l) && (zeroEnd - zeroStart <? l))%nat%bool
      then findZeros (S i) gs' i (i + l)%nat
      else findZeros (S i) gs' zeroStart zeroEnd
  end.

Fixpoint string6Loop (fuel i : nat) (gs : list N) (zeroStart zeroEnd : nat)
    : gostring :=
  match fuel with
  | O => []
  | S fuel' =>
      if (8 <=? i)%nat then []
      else if (i =? zeroStart)%nat then
        "::"%go ++
        (if (8 <=? zeroEnd)%nat then []
         else appendHex (nth zeroEnd gs 0%N)
              ++ string6Loop fuel' (S zeroEnd) gs zeroStart zeroEnd)
      else
        (if (0 <? i)%nat then ":"%go else [])
        ++ appendHex (nth i gs 0%N)
        ++ string6Loop fuel' (S i) gs zeroStart zeroEnd
  end.

Definition zoneSuffix (ip : Addr) : gostring :=
  match z ip with
  | z6 (c :: zone) => "%"%go ++ c :: zone
  | _ => []
  end.

(** [netip.Addr.String]. *)
Definition String (ip : Addr) : gostring :=
  match z ip with
  | z0 => "invalid IP"%go
  | z4 => string4 ip
  | z6 _ =>
      if Is4In6 ip then "::ffff:"%go ++ string4 ip ++ zoneSuffix ip
      else
        let gs := groups ip in
        let '(zeroStart, zeroEnd) := findZeros 0 gs 255 255 in
        string6Loop 8 0 gs zeroStart zeroEnd ++ zoneSuffix ip
  end.

End netip.

(** ** Package [dynamicdns]: the settings passed to an IP source *)

Module dynamicdns.

(** [dynamicdns.IPSettings]: two optional booleans ("nil means
    enabled, false means disabled") and the configured ranges, which
    only [Contains] reads. *)
Record IPSettings : Type := {
  IPv4 : option bool;
  IPv6 : option bool;
  IPRanges : list (netip.Addr * Z)
}.

(** Modelled from the spec: [V4Enabled] of caddy-dynamicdns, which is
    not part of this repository; "absence of an explicit disable means
    enabled". *)
Definition V4Enabled (s : IPSettings) : bool :=
  match IPv4 s with None => true | Some b => b end.

(** Modelled from the spec: [V6Enabled] of caddy-dynamicdns, which is
    not part of this repository; "absence of an explicit disable means
    enabled". *)
Definition V6Enabled (s : IPSettings) : bool :=
  match IPv6 s with None => true | Some b => b end.

End dynamicdns.

(** ** Package [zap]: what the module logs *)

Module zap.

Inductive Level : Type := DebugLevel | WarnLevel | ErrorLevel.

Inductive Field : Type :=
| String (key val : gostring)
| Strings (key : gostring) (val : list gostring)
| Int (key : gostring) (val : Z)
| Int64 (key : gostring) (val : Z)
| Error (err : error).

Record Entry : Type := {
  level : Level;
  msg : gostring;
  fields : list Field
}.

(** A logger is known by its name. *)
Record Logger : Type := { name : gostring }.

End zap.

(** ** Package [caddyfile]: the dispenser of tokens

    [UnmarshalCaddyfile] reads its configuration from a
    [caddyfile.Dispenser].  The methods it calls ([Next], [NextArg],
    [Val], [RemainingArgs]) are modelled after Caddy's
    [caddyconfig/caddyfile/dispenser.go]; a method that moves the
    cursor returns the dispenser it leaves. *)

Module caddyfile.

(** [caddyfile.Token]: the text of a token, the file and the line it
    stands on. *)
Record Token : Type := {
  File : gostring;
  Line : Z;
  Text : gostring
}.

(** [caddyfile.Dispenser]: the tokens and the cursor, which is -1
    before the first token is loaded. *)
Record Dispenser : Type := {
  tokens : list Token;
  cursor : Z
}.

Definition NewDispenser (toks : list Token) : Dispenser :=
  {| tokens := toks; cursor := -1 |}.

Definition len (d : Dispenser) : Z := Z.of_nat (length (tokens d)).

Definition emptyToken : Token := {| File := []; Line := 0; Text := [] |}.

(** [d.tokens[i]]. *)
Definition index (d : Dispenser) (i : Z) : Token :=
  nth (Z.to_nat i) (tokens d) emptyToken.

Definition withCursor (d : Dispenser) (i : Z) : Dispenser :=
  {| tokens := tokens d; cursor := i |}.

(** [Next] loads the next token; it returns false when all tokens have
    been consumed. *)
Definition Next (d : Dispenser) : bool * Dispenser :=
  if cursor d <? len d - 1 then (true, withCursor d (cursor d + 1))
  else (false, d).

(** [Val] gets the text of the current token. *)
Definition Val (d : Dispenser) : gostring :=
  if (cursor d <? 0) || (len d <=? cursor d) then []
  else Text (index d (cursor d)).

Section Lines.

(** [isNextOnNewLine] of package [caddyfile]: the second token stands
    on another line than the first one ends on. *)
Variable isNextOnNewLine : Token -> Token -> bool.

(** [nextOnSameLine] advances the cursor if the next token is on the
    same line of the same file. *)
Definition nextOnSameLine (d : Dispenser) : bool * Dispenser :=
  if cursor d <? 0 then (true, withCursor d (cursor d + 1))
  else if len d - 1 <=? cursor d then (false, d)
  else
    let curr := index d (cursor d) in
    let next := index d (cursor d + 1) in
    if negb (isNextOnNewLine curr next)
    then (true, withCursor d (cursor d + 1))
    else (false, d).

(** [NextArg] loads the next token if it is on the same line and if it
    is not a block opening (open curly brace). *)
Definition NextArg (d : Dispenser) : bool * Dispenser :=
  let '(ok, d) := nextOnSameLine d in
  if negb ok then (false, d)
  else if gostring_eqb (Val d) "{"%go
  then (false, withCursor d (cursor d - 1))
  else (true, d).

(** The loop of [RemainingArgs]: [for d.NextArg() { args = append(args,
    d.Val()) }], run for at most [fuel] rounds; [None] when the rounds
    do not suffice. *)
Fixpoint remainingArgsLoop (fuel : nat) (d : Dispenser) (args : list gostring)
    : option (list gostring * Dispenser) :=
  match fuel with
  | O => None
  | S fuel' =>
      let '(ok, d) := NextArg d in
      if ok then remainingArgsLoop fuel' d (args ++ [Val d])
      else Some (args, d)
  end.

(** [RemainingArgs] loads any more arguments (tokens on the same line)
    into a slice and returns them.  Every round but the last one moves
    the cursor forward, so that one round more than there are tokens
    suffices. *)
Definition RemainingArgs (d : Dispenser)
    : option (list gostring * Dispenser) :=
  remainingArgsLoop (S (S (length (tokens d)))) d [].

End Lines.

End caddyfile.

(** ** Package [caddy]: the replacer

    [GetIPs] expands its arguments with [caddy.NewReplacer().ReplaceAll].
    The replacer is modelled after Caddy's [replacer.go]; the values
    that its providers give for the keys are a parameter. *)

(** [len(s)], [s[i]] and [s[a:b]]. *)
Definition strLen (s : gostring) : Z := Z.of_nat (length s).

Definition byteAt (s : gostring) (i : Z) : byte := nth (Z.to_nat i) s x00.

Definition slice (s : gostring) (a b : Z) : gostring :=
  firstn (Z.to_nat (b - a)) (skipn (Z.to_nat a) s).

(** [strings.Index] and [strings.Contains] with a separator of one
    byte: the index of its first occurrence, or -1. *)
Fixpoint IndexByte (s : gostring) (c : byte) : Z :=
  match s with
  | [] => -1
  | b :: s' =>
      if Byte.eqb b c then 0
      else let i := IndexByte s' c in if i <? 0 then -1 else i + 1
  end.

Definition ContainsByte (s : gostring) (c : byte) : bool :=
  0 <=? IndexByte s c.

Module caddy.

Definition phOpen : byte := "{"%byte.
Definition phClose : byte := "}"%byte.
Definition phEscape : byte := x5c.

(** Where the loop that looks "for the first closing brace that is
    not escaped" ends: with [continue scan], or with the index of the
    brace. *)
Inductive closing : Type :=
| Unclosed
| ClosedAt (end_ : Z).

(** [for end > 0 && end < len(input)-1 && input[end-1] == phEscape],
    run for at most [fuel] rounds. *)
Fixpoint closingBrace (fuel : nat) (input : gostring) (end_ : Z)
    : option closing :=
  match fuel with
  | O => None
  | S fuel' =>
      if (0 <? end_) && (end_ <? strLen input - 1)
         && Byte.eqb (byteAt input (end_ - 1)) phEscape
      then
        let nextEnd := IndexByte (slice input (end_ + 1) (strLen input)) phClose in
        if nextEnd <? 0 then Some Unclosed
        else closingBrace fuel' input (end_ + (nextEnd + 1))
      else Some (ClosedAt end_)
  end.

Section Replacer.

(** [Replacer.Get] followed by [ToString]: the value that the
    providers of the replacer give for a key, as a string; [None] when
    no provider knows the key. *)
Variable Get : gostring -> option gostring.

(** The loop [scan] of [replace], from index [i] on, run for at most
    [fuel] rounds; [sb] is what has been written to the builder.  The
    transformation [f] is nil in every call of the module. *)
Fixpoint replaceLoop (fuel : nat) (input empty : gostring)
    (treatUnknownAsEmpty errOnEmpty errOnUnknown : bool)
    (i lastWriteCursor unclosedCount : Z) (sb : gostring)
    : option (gostring * option error) :=
  match fuel with
  | O => None
  | S fuel' =>
      if negb (i <? strLen input) then
        (* flush any unwritten remainder *)
        Some (sb ++ slice input lastWriteCursor (strLen input), None)
      else if (0 <? i) && Byte.eqb (byteAt input (i - 1)) phEscape
              && (Byte.eqb (byteAt input i) phClose
                  || Byte.eqb (byteAt input i) phOpen)
      then
        (* check for escaped braces *)
        replaceLoop fuel' input empty
          treatUnknownAsEmpty errOnEmpty errOnUnknown
          (i + 1) i unclosedCount (sb ++ slice input lastWriteCursor (i - 1))
      else if negb (Byte.eqb (byteAt input i) phOpen) then
        replaceLoop fuel' input empty
          treatUnknownAsEmpty errOnEmpty errOnUnknown
          (i + 1) lastWriteCursor unclosedCount sb
      else if 100 <? unclosedCount then
        Some ([], Some (Errorf "too many unclosed placeholders"%go))
      else
        (* find the end of the placeholder *)
        let end_ := IndexByte (slice input i (strLen input)) phClose + i in
        if end_ <? i then
          replaceLoop fuel' input empty
            treatUnknownAsEmpty errOnEmpty errOnUnknown
            (i + 1) lastWriteCursor (unclosedCount + 1) sb
        else
          match closingBrace (S (length input)) input end_ with
          | None => None
          | Some Unclosed =>
              replaceLoop fuel' input empty
                treatUnknownAsEmpty errOnEmpty errOnUnknown
                (i + 1) lastWriteCursor (unclosedCount + 1) sb
          | Some (ClosedAt end_) =>
              (* write the substring from the last cursor to this point *)
              let sb := sb ++ slice input lastWriteCursor i in
              (* trim opening bracket *)
              let key := slice input (i + 1) end_ in
              (* write the value; if it is empty, either return an
                 error or write a default value; then move the cursor
                 to the end of the placeholder *)
              let write := fun valStr : gostring =>
                if isEmpty valStr then
                  if errOnEmpty then
                    Some ([], Some (Errorf ("evaluated placeholder {"%go
                                            ++ key ++ "} is empty"%go)))
                  else
                    replaceLoop fuel' input empty
                      treatUnknownAsEmpty errOnEmpty errOnUnknown
                      (end_ + 1) (end_ + 1) unclosedCount
                      (if negb (isEmpty empty) then sb ++ empty else sb)
                else
                  replaceLoop fuel' input empty
                    treatUnknownAsEmpty errOnEmpty errOnUnknown
                    (end_ + 1) (end_ + 1) unclosedCount (sb ++ valStr) in
              (* try to get a value for this key *)
              match Get key with
              | Some val => write val
              | None =>
                  if errOnUnknown then
                    Some ([], Some (Errorf ("unrecognized placeholder {"%go
                                            ++ key ++ "}"%go)))
                  else if negb treatUnknownAsEmpty then
                    replaceLoop fuel' input empty
                      treatUnknownAsEmpty errOnEmpty errOnUnknown
                      (i + 1) i unclosedCount sb
                  else write []
              end
          end
  end.

(** [Replacer.replace] without its transformation: the output and the
    error.  Every round of the loop moves [i] forward, so that one
    round more than the input has bytes suffices. *)
Definition replace (input empty : gostring)
    (treatUnknownAsEmpty errOnEmpty errOnUnknown : bool)
    : option (gostring * option error) :=
  if negb (ContainsByte input phOpen) && negb (ContainsByte input phClose)
  then Some (input, None)
  else
    replaceLoop (S (length input)) input empty
      treatUnknownAsEmpty errOnEmpty errOnUnknown 0 0 0 [].

(** [ReplaceAll]: "All placeholders are replaced in the output whether
    they are recognized or not.  Values that are empty string will be
    substituted with empty."  It drops the error of [replace]. *)
Definition ReplaceAll (input empty : gostring) : gostring :=
  match replace input empty true false false with
  | Some (out, _) => out
  | None => []
  end.

End Replacer.

End caddy.

(** ** Panics and the log *)

(** A Go computation either panics or returns a value. *)
Inductive outcome (A : Type) : Type :=
| Panic (reason : gostring)
| Done (a : A).

Arguments Panic {A} reason.
Arguments Done {A} a.

(** Computations that write to the log and may panic. *)
Definition M (A : Type) : Type := list zap.Entry -> outcome A * list zap.Entry.

Definition ret {A : Type} (a : A) : M A := fun log => (Done a, log).

Definition bind {A B : Type} (m : M A) (k : A -> M B) : M B :=
  fun log =>
    match m log with
    | (Panic reason, log') => (Panic reason, log')
    | (Done a, log') => k a log'
    end.

Declare Scope go_monad_scope.
Delimit Scope go_monad_scope with gom.
Notation "x <- m ;; k" := (bind m (fun x => k))
  (at level 61, m at next level, right associativity) : go_monad_scope.
Notation "m ;;; k" := (bind m (fun _ => k))
  (at level 61, right associativity) : go_monad_scope.

Definition nilDereference : gostring :=
  "invalid memory address or nil pointer dereference"%go.

(** Reading through a pointer. *)
Definition deref {A : Type} (p : option A) : M A :=
  fun log =>
    match p with
    | Some a => (Done a, log)
    | None => (Panic nilDereference, log)
    end.

(** The methods [Debug], [Warn] and [Error] of [*zap.Logger]; they read
    the logger they are called on. *)
Definition write (l : option zap.Logger) (lvl : zap.Level)
    (msg : gostring) (fields : list zap.Field) : M unit :=
  fun log =>
    match l with
    | Some _ =>
        (Done tt,
         log ++ [ {| zap.level := lvl; zap.msg := msg; zap.fields := fields |} ])
    | None => (Panic nilDereference, log)
    end.

(** ** Package [command] *)

(** [caddy.Duration] and [time.Duration]: nanoseconds. *)
Definition Duration : Type := Z.
Definition Second : Duration := 1000000000.

(** The struct [Command]. *)
Record Command : Type := {
  Cmd : gostring;
  Args : list gostring;
  Dir : gostring;
  Timeout : option Duration;
  logger : option zap.Logger
}.

(** What [Provision] reads of a [caddy.Context]: the logger it hands
    out to the module. *)
Record CaddyContext : Type := { Logger : zap.Logger }.

(** What [GetIPs] returns: a slice that may be nil, and an error that
    may be nil. *)
Definition Result : Type := option (list netip.Addr) * option error.

Section UnmarshalCaddyfile.

Variable isNextOnNewLine : caddyfile.Token -> caddyfile.Token -> bool.

(** [d.ArgErr()]: the error for a missing argument, which names the
    place of the current token. *)
Variable ArgErr : caddyfile.Dispenser -> error.

(** The loop [for d.Next() { ... }] of [UnmarshalCaddyfile], run for at
    most [fuel] rounds: the command, the dispenser and the error
    returned; [None] when the rounds do not suffice. *)
Fixpoint unmarshalLoop (fuel : nat) (c : Command) (d : caddyfile.Dispenser)
    : option (Command * caddyfile.Dispenser * option error) :=
  match fuel with
  | O => None
  | S fuel' =>
      let '(more, d) := caddyfile.Next d in
      if negb more then Some (c, d, None)
      else
        let '(ok, d) := caddyfile.NextArg isNextOnNewLine d in
        if negb ok then Some (c, d, Some (ArgErr d))
        else
          let c :=
            {| Cmd := caddyfile.Val d; Args := Args c; Dir := Dir c;
               Timeout := Timeout c; logger := logger c |} in
          match caddyfile.RemainingArgs isNextOnNewLine d with
          | None => None
          | Some (args, d) =>
              let c :=
                {| Cmd := Cmd c; Args := args; Dir := Dir c;
                   Timeout := Timeout c; logger := logger c |} in
              unmarshalLoop fuel' c d
          end
  end.

(** [UnmarshalCaddyfile] parses the module's Caddyfile config.  Syntax:
    [exec <command> <args...>].  Every round of its loop loads at least
    one token, so that one round more than there are tokens suffices. *)
Definition UnmarshalCaddyfile (c : Command) (d : caddyfile.Dispenser)
    : option (Command * caddyfile.Dispenser * option error) :=
  unmarshalLoop (S (S (length (caddyfile.tokens d)))) c d.

End UnmarshalCaddyfile.

(** [Provision] sets up the module. *)
Definition Provision (c : Command) (ctx : CaddyContext)
    : Command * option error :=
  let c :=
    {| Cmd := Cmd c; Args := Args c; Dir := Dir c; Timeout := Timeout c;
       logger := Some (Logger ctx) |} in
  let c :=
    if match Timeout c with
       | None => true
       | Some t => t <=? 0
       end
    then
      let timeout := 30 * Second in
      {| Cmd := Cmd c; Args := Args c; Dir := Dir c;
         Timeout := Some timeout; logger := logger c |}
    else c in
  (c, None).

Section GetIPs.

#[local] Open Scope go_monad_scope.

(** [caddy.NewReplacer().ReplaceAll(input, empty)]. *)
Variable ReplaceAll : gostring -> gostring -> gostring.

(** [netip.ParseAddr] and [netip.Addr.String]. *)
Variable ParseAddr : gostring -> netip.Addr + error.
Variable AddrString : netip.Addr -> gostring.

(** [dynamicdns.IPSettings.Contains]: the range policy. *)
Variable Contains : dynamicdns.IPSettings -> netip.Addr -> bool.

(** The operating system: what happens to the command that is run. *)
Variable OS : exec.Cmd -> exec.Behaviour.

(** "expand placeholders in command args; notably, we do not expand
    placeholders in the command itself for safety reasons" *)
Definition expandArgs (c : Command) : list gostring :=
  map (fun arg => ReplaceAll arg ""%go) (Args c).

(** The context the command runs in. *)
Definition commandContext (c : Command) (ctx : context.Context)
    : context.Context :=
  match Timeout c with
  | Some t => if 0 <? t then context.WithTimeout ctx t else ctx
  | None => ctx
  end.

(** The [exec.Cmd] that [GetIPs] builds and runs. *)
Definition buildCmd (c : Command) (ctx : context.Context) : exec.Cmd :=
  exec.withDir
    (exec.CommandContext (commandContext c ctx) (Cmd c) (expandArgs c))
    (Dir c).

(** The loop of [GetIPs] over the comma-separated tokens of the
    output, from index [i] on, with the addresses appended so far. *)
Fixpoint parseLoop (c : Command) (expandedArgs : list gostring)
    (stdout : gostring) (settings : dynamicdns.IPSettings)
    (ipArr : list gostring) (out : list netip.Addr) : M Result :=
  match ipArr with
  | [] => ret (Some out, None)
  | tok :: ipArr' =>
      let ipStr := strings.TrimSpace tok in
      if isEmpty ipStr then
        parseLoop c expandedArgs stdout settings ipArr' out
      else
        match ParseAddr ipStr with
        | inr err =>
            write (logger c) zap.ErrorLevel "parsing IP failed"%go
              [ zap.String "command"%go (Cmd c);
                zap.Strings "args"%go expandedArgs;
                zap.String "stdout"%go stdout;
                zap.String "ip"%go ipStr;
                zap.Error err ] ;;;
            ret (None, Some (Errorf ("invalid IP: "%go ++ ipStr)))
        | inl addr =>
            if dynamicdns.V4Enabled settings && netip.Is4 addr
               && Contains settings addr
            then
              let out := out ++ [addr] in
              write (logger c) zap.DebugLevel "parsed IPv4 successfully"%go
                [ zap.String "command"%go (Cmd c);
                  zap.Strings "args"%go expandedArgs;
                  zap.String "ip"%go (AddrString addr) ] ;;;
              parseLoop c expandedArgs stdout settings ipArr' out
            else if dynamicdns.V6Enabled settings && netip.Is6 addr
                    && Contains settings addr
            then
              let out := out ++ [addr] in
              write (logger c) zap.DebugLevel "parsed IPv6 successfully"%go
                [ zap.String "command"%go (Cmd c);
                  zap.Strings "args"%go expandedArgs;
                  zap.String "ip"%go (AddrString addr) ] ;;;
              parseLoop c expandedArgs stdout settings ipArr' out
            else
              parseLoop c expandedArgs stdout settings ipArr' out
        end
  end.

(** [GetIPs] gets the public addresses of this machine. *)
Definition GetIPs (c : Command) (ctx : context.Context)
    (settings : dynamicdns.IPSettings) : M Result :=
  let out := [] in
  let expandedArgs := expandArgs c in
  let cmd := buildCmd c ctx in
  timeout <- deref (Timeout c) ;;
  write (logger c) zap.DebugLevel "running command"%go
    [ zap.String "command"%go (Cmd c);
      zap.Strings "args"%go expandedArgs;
      zap.String "dir"%go (Dir c);
      zap.Int64 "timeout"%go timeout ] ;;;
  let r := exec.Run (OS cmd) in
  let stdout := exec.run_stdout r in
  let stderr := exec.run_stderr r in
  match exec.run_err r with
  | Some err =>
      write (logger c) zap.ErrorLevel "command execution failed"%go
        [ zap.String "command"%go (Cmd c);
          zap.Strings "args"%go expandedArgs;
          zap.String "dir"%go (Dir c);
          zap.String "stdout"%go stdout;
          zap.String "stderr"%go stderr;
          zap.Error err ] ;;;
      ret (None, Some err)
  | None =>
      let exitCode := os.ExitCode (exec.run_state r) in
      if negb (exitCode =? 0) then
        write (logger c) zap.ErrorLevel "command execution failed"%go
          [ zap.String "command"%go (Cmd c);
            zap.Strings "args"%go expandedArgs;
            zap.String "dir"%go (Dir c);
            zap.String "stdout"%go stdout;
            zap.String "stderr"%go stderr;
            zap.Int "exit_code"%go exitCode ] ;;;
        ret (None,
             Some (Errorf ("command "%go ++ Cmd c ++ " exited with: "%go
                           ++ Itoa exitCode)))
      else
        (if 0 <? Z.of_nat (length stderr) then
           write (logger c) zap.WarnLevel "command produced stderr output"%go
             [ zap.String "command"%go (Cmd c);
               zap.String "stderr"%go stderr ]
         else ret tt) ;;;
        let ipArr := strings.Split (strings.TrimSpace stdout) ","%byte in
        parseLoop c expandedArgs stdout settings ipArr out
  end.

End GetIPs.

(** ** Definitions used to state the properties *)

(** A command is ready to run when [Provision] has given it a timeout
    and a logger. *)
Definition ready (c : Command) : bool :=
  match Timeout c, logger c with
  | Some _, Some _ => true
  | _, _ => false
  end.

(** White space: a sequence of white-space runes. *)
Inductive blank : gostring -> Prop :=
| blank_nil : blank []
| blank_rune (e s : gostring) :
    In e strings.spaceRunes -> blank s -> blank (e ++ s).

(** Text made of white-space runes and commas only. *)
Inductive blankOrComma : gostring -> Prop :=
| boc_nil : blankOrComma []
| boc_rune (e s : gostring) :
    In e strings.spaceRunes -> blankOrComma s -> blankOrComma (e ++ s)
| boc_comma (s : gostring) :
    blankOrComma s -> blankOrComma (","%byte :: s).

Definition isContinuation (b : byte) : bool :=
  ((128 <=? Byte.to_N b) && (Byte.to_N b <? 192))%N.

Definition isLead (b : byte) : bool := (192 <=? Byte.to_N b)%N.

Definition isLead3 (b : byte) : bool := (224 <=? Byte.to_N b)%N.

(** The string does not start in the middle of a multi-byte rune. *)
Definition startsClean (s : gostring) : bool :=
  match s with
  | [] => true
  | b :: _ => negb (isContinuation b)
  end.

(** The reversed string does not start with (the string does not end
    with) the first byte or the first two bytes of a longer rune. *)
Definition endsCleanRev (rs : gostring) : bool :=
  match rs with
  | [] => true
  | b :: r =>
      negb (isLead b)
      && negb (isContinuation b
               && match r with b2 :: _ => isLead3 b2 | [] => false end)
  end.

(** The bytes of address literals without a zone: hexadecimal
    digits, the dot and the colon. *)
Definition addrChar (b : byte) : bool :=
  match netip.hexVal b with
  | Some _ => true
  | None => (Byte.eqb b "."%byte || Byte.eqb b ":"%byte)%bool
  end.

(** An IPv4 address, or an IPv6 address without a zone. *)
Definition unzoned (a : netip.Addr) : bool :=
  match netip.z a with
  | netip.z4 | netip.z6 [] => true
  | _ => false
  end.

(** A literal that neither starts nor ends with white space. *)
Definition trimmed (s : gostring) : Prop :=
  strings.TrimLeftSpace s = s /\ strings.TrimRightSpace s = s.

(** The tokens of the output that the loop of [GetIPs] parses: the
    output is trimmed and split on commas, every token is trimmed, and
    the empty ones are skipped. *)
Definition tokens (stdout : gostring) : list gostring :=
  filter (fun tok => negb (isEmpty tok))
    (map strings.TrimSpace
       (strings.Split (strings.TrimSpace stdout) ","%byte)).

(** A token with white space on both sides. *)
Definition pad (t : gostring * gostring * gostring) : gostring :=
  let '(l, lit, r) := t in l ++ lit ++ r.

Definition literal (t : gostring * gostring * gostring) : gostring :=
  let '(_, lit, _) := t in lit.

Definition padding (t : gostring * gostring * gostring) : gostring * gostring :=
  let '(l, _, r) := t in (l, r).

(** A padded token whose white space is white space and whose literal
    is not empty, has no white space at its ends and no comma. *)
Definition goodToken (t : gostring * gostring * gostring) : Prop :=
  let '(l, lit, r) := t in
  blank l /\ blank r /\ trimmed lit /\ lit <> [] /\ ~ In ","%byte lit.

(** The padded tokens without the white space before the first
    literal and after the last one. *)
Definition stripFirst (ts : list (gostring * gostring * gostring))
    : list (gostring * gostring * gostring) :=
  match ts with
  | (_, lit, r) :: ts' => ([], lit, r) :: ts'
  | [] => []
  end.

Fixpoint stripLast (ts : list (gostring * gostring * gostring))
    : list (gostring * gostring * gostring) :=
  match ts with
  | [] => []
  | [(l, lit, _)] => [(l, lit, [])]
  | t :: ts' => t :: stripLast ts'
  end.

(** The entries that [GetIPs] writes before the loop. *)
Definition runningEntry (c : Command) (expandedArgs : list gostring)
    (timeout : Duration) : zap.Entry :=
  {| zap.level := zap.DebugLevel;
     zap.msg := "running command"%go;
     zap.fields :=
       [ zap.String "command"%go (Cmd c);
         zap.Strings "args"%go expandedArgs;
         zap.String "dir"%go (Dir c);
         zap.Int64 "timeout"%go timeout ] |}.

Definition stderrEntry (c : Command) (stderr : gostring) : zap.Entry :=
  {| zap.level := zap.WarnLevel;
     zap.msg := "command produced stderr output"%go;
     zap.fields :=
       [ zap.String "command"%go (Cmd c);
         zap.String "stderr"%go stderr ] |}.

(** The entry that the loop writes for a token that is not an
    address. *)
Definition invalidEntry (c : Command) (expandedArgs : list gostring)
    (stdout ipStr : gostring) (err : error) : zap.Entry :=
  {| zap.level := zap.ErrorLevel;
     zap.msg := "parsing IP failed"%go;
     zap.fields :=
       [ zap.String "command"%go (Cmd c);
         zap.Strings "args"%go expandedArgs;
         zap.String "stdout"%go stdout;
         zap.String "ip"%go ipStr;
         zap.Error err ] |}.

(** The entry that [GetIPs] writes when [cmd.Run()] returns an error. *)
Definition failedEntry (c : Command) (expandedArgs : list gostring)
    (stdout stderr : gostring) (err : error) : zap.Entry :=
  {| zap.level := zap.ErrorLevel;
     zap.msg := "command execution failed"%go;
     zap.fields :=
       [ zap.String "command"%go (Cmd c);
         zap.Strings "args"%go expandedArgs;
         zap.String "dir"%go (Dir c);
         zap.String "stdout"%go stdout;
         zap.String "stderr"%go stderr;
         zap.Error err ] |}.

Definition timeoutOf (c : Command) : Duration :=
  match Timeout c with Some t => t | None => 0 end.

Section Specification.

Variable ParseAddr : gostring -> netip.Addr + error.
Variable Contains : dynamicdns.IPSettings -> netip.Addr -> bool.

(** All-or-nothing parsing of a list of tokens: the addresses, or the
    first token that is not an address. *)
Fixpoint parseAll (toks : list gostring) : list netip.Addr + gostring :=
  match toks with
  | [] => inl []
  | tok :: toks' =>
      match ParseAddr tok with
      | inr _ => inr tok
      | inl addr =>
          match parseAll toks' with
          | inl addrs => inl (addr :: addrs)
          | inr bad => inr bad
          end
      end
  end.

(** The enablement flag of the family of an address. *)
Definition familyEnabled (settings : dynamicdns.IPSettings)
    (addr : netip.Addr) : bool :=
  match netip.z addr with
  | netip.z4 => dynamicdns.V4Enabled settings
  | netip.z6 _ => dynamicdns.V6Enabled settings
  | netip.z0 => false
  end.

(** An address passes when its family is enabled and the range policy
    accepts it. *)
Definition passes (settings : dynamicdns.IPSettings) (addr : netip.Addr)
    : bool :=
  familyEnabled settings addr && Contains settings addr.

End Specification.

(** ** The earlier version of the module

    The second [package command] of [command.go] keeps the timeout in
    the struct itself. *)

Module Legacy.

Record Command : Type := {
  Cmd : gostring;
  Args : list gostring;
  Dir : gostring;
  Timeout : Duration;
  logger : option zap.Logger
}.

(** [Provision] sets up the module. *)
Definition Provision (c : Command) (ctx : CaddyContext)
    : Command * option error :=
  let c :=
    {| Cmd := Cmd c; Args := Args c; Dir := Dir c; Timeout := Timeout c;
       logger := Some (Logger ctx) |} in
  let c :=
    if Timeout c <=? 0 then
      {| Cmd := Cmd c; Args := Args c; Dir := Dir c;
         Timeout := 30 * Second; logger := logger c |}
    else c in
  (c, None).

Section GetIPs.

#[local] Open Scope go_monad_scope.

(** [caddy.NewReplacer().ReplaceAll(input, empty)]. *)
Variable ReplaceAll : gostring -> gostring -> gostring.

(** [net.IP], [net.ParseIP] (nil when the text is not an address) and
    [net.IP.String]. *)
Variable IP : Type.
Variable ParseIP : gostring -> option IP.
Variable IPString : IP -> gostring.

(** The operating system: what happens to the command that is run. *)
Variable OS : exec.Cmd -> exec.Behaviour.

Definition expandArgs (c : Command) : list gostring :=
  map (fun arg => ReplaceAll arg ""%go) (Args c).

Definition buildCmd (c : Command) (ctx : context.Context) : exec.Cmd :=
  exec.withDir
    (exec.CommandContext
       (if 0 <? Timeout c then context.WithTimeout ctx (Timeout c) else ctx)
       (Cmd c) (expandArgs c))
    (Dir c).

(** The loop of the earlier [GetIPs] over the comma-separated tokens. *)
Fixpoint parseLoop (c : Command) (expandedArgs : list gostring)
    (stdout : gostring) (ipArr : list gostring) (out : list IP)
    : M (option (list IP) * option error) :=
  match ipArr with
  | [] => ret (Some out, None)
  | tok :: ipArr' =>
      match ParseIP (strings.TrimSpace tok) with
      | None =>
          write (logger c) zap.ErrorLevel "parsing ip failed"%go
            [ zap.String "command"%go (Cmd c);
              zap.Strings "args"%go expandedArgs;
              zap.String "stdout"%go stdout;
              zap.String "ip"%go tok ] ;;;
          ret (None, Some (Errorf ("invalid IP: "%go ++ tok)))
      | Some ip =>
          let out := out ++ [ip] in
          write (logger c) zap.DebugLevel "parsed ip succesfull"%go
            [ zap.String "command"%go (Cmd c);
              zap.Strings "args"%go expandedArgs;
              zap.String "stdout"%go stdout;
              zap.String "ip"%go (IPString ip) ] ;;;
          parseLoop c expandedArgs stdout ipArr' out
      end
  end.

(** The earlier [GetIPs]; it does not read its argument [versions]. *)
Definition GetIPs (c : Command) (ctx : context.Context)
    : M (option (list IP) * option error) :=
  let out := [] in
  let expandedArgs := expandArgs c in
  let cmd := buildCmd c ctx in
  write (logger c) zap.DebugLevel "running command"%go
    [ zap.String "command"%go (Cmd c);
      zap.Strings "args"%go expandedArgs;
      zap.String "dir"%go (Dir c);
      zap.Int64 "timeout"%go (Timeout c) ] ;;;
  let r := exec.Run (OS cmd) in
  let stdout := exec.run_stdout r in
  let stderr := exec.run_stderr r in
  match exec.run_err r with
  | Some err => ret (None, Some err)
  | None =>
      let exitCode := os.ExitCode (exec.run_state r) in
      if (negb (exitCode =? 0) || (0 <? Z.of_nat (length stderr)))%bool then
        write (logger c) zap.ErrorLevel "command execution failed"%go
          [ zap.String "command"%go (Cmd c);
            zap.Strings "args"%go expandedArgs;
            zap.String "dir"%go (Dir c);
            zap.String "stdout"%go stdout;
            zap.String "stderr"%go stderr;
            zap.Int "exit code"%go exitCode ] ;;;
        ret (None,
             Some (Errorf ("command "%go ++ Cmd c ++ " exited with: "%go
                           ++ Itoa exitCode)))
      else
        let ipArr := strings.Split stdout ","%byte in
        parseLoop c expandedArgs stdout ipArr out
  end.

End GetIPs.

End Legacy.

(** ** Definitions used to state further properties *)

(** The entry that the loop writes for an address it returns: the
    message names the family of the address. *)
Definition parsedEntry (AddrString : netip.Addr -> gostring) (c : Command)
    (expandedArgs : list gostring) (addr : netip.Addr) : zap.Entry :=
  {| zap.level := zap.DebugLevel;
     zap.msg := if netip.Is4 addr then "parsed IPv4 successfully"%go
                else "parsed IPv6 successfully"%go;
     zap.fields :=
       [ zap.String "command"%go (Cmd c);
         zap.Strings "args"%go expandedArgs;
         zap.String "ip"%go (AddrString addr) ] |}.

(** The entry that the earlier [GetIPs] writes before it runs the
    command. *)
Definition legacyRunningEntry (c : Legacy.Command)
    (expandedArgs : list gostring) : zap.Entry :=
  {| zap.level := zap.DebugLevel;
     zap.msg := "running command"%go;
     zap.fields :=
       [ zap.String "command"%go (Legacy.Cmd c);
         zap.Strings "args"%go expandedArgs;
         zap.String "dir"%go (Legacy.Dir c);
         zap.Int64 "timeout"%go (Legacy.Timeout c) ] |}.

(** [q] appended to the last string of a list. *)
Fixpoint appLast (toks : list gostring) (q : gostring) : list gostring :=
  match toks with
  | [] => []
  | [t] => [t ++ q]
  | t :: ts => t :: appLast ts q
  end.

(** The dispenser over [toks] whose cursor is at the token of index
    [n], and the one whose cursor is before the token of index [k] (a
    new dispenser is before the token of index 0). *)
Definition atToken (toks : list caddyfile.Token) (n : nat)
    : caddyfile.Dispenser :=
  {| caddyfile.tokens := toks; caddyfile.cursor := Z.of_nat n |}.

Definition beforeToken (toks : list caddyfile.Token) (k : nat)
    : caddyfile.Dispenser :=
  {| caddyfile.tokens := toks; caddyfile.cursor := Z.of_nat k - 1 |}.

(** A directive as [UnmarshalCaddyfile] reads it: the token of its
    name, the token of the program, and the tokens of the arguments. *)
Definition directive : Type :=
  caddyfile.Token * caddyfile.Token * list caddyfile.Token.

Definition directiveTokens (l : directive) : list caddyfile.Token :=
  let '(name, prog, args) := l in name :: prog :: args.

Definition lastToken (l : directive) : caddyfile.Token :=
  let '(_, prog, args) := l in last args prog.

(** What a directive sets in the command, and what a sequence of
    directives sets, one after the other. *)
Definition setCommand (l : directive) (c : Command) : Command :=
  let '(_, prog, args) := l in
  {| Cmd := caddyfile.Text prog; Args := map caddyfile.Text args;
     Dir := Dir c; Timeout := Timeout c; logger := logger c |}.

Definition setCommands (ls : list directive) (c : Command) : Command :=
  fold_left (fun c l => setCommand l c) ls c.

Section Directives.

Variable isNextOnNewLine : caddyfile.Token -> caddyfile.Token -> bool.

(** The token after [cur] does not continue its line: there is none,
    it stands on a new line, or it opens a block. *)
Definition lineEnds (cur : caddyfile.Token) (rest : list caddyfile.Token)
    : bool :=
  match rest with
  | [] => true
  | t :: _ => isNextOnNewLine cur t || gostring_eqb (caddyfile.Text t) "{"%go
  end.

(** The tokens [rest] continue the line of [cur]: each stands on the
    line of the one before it and does not open a block. *)
Fixpoint continues (cur : caddyfile.Token) (rest : list caddyfile.Token)
    : bool :=
  match rest with
  | [] => true
  | t :: rest' =>
      negb (isNextOnNewLine cur t)
      && negb (gostring_eqb (caddyfile.Text t) "{"%go)
      && continues t rest'
  end.

(** The directives [ls], followed by the tokens [following], stand
    each on a line of its own: the program and the arguments continue
    the line of the name, and the line ends after the last of them. *)
Fixpoint directives (ls : list directive) (following : list caddyfile.Token)
    : Prop :=
  match ls with
  | [] => True
  | l :: ls' =>
      (let '(name, prog, args) := l in continues name (prog :: args) = true)
      /\ lineEnds (lastToken l)
           (flat_map directiveTokens ls' ++ following) = true
      /\ directives ls' following
  end.

End Directives.

(** A template of an argument: text and placeholders. *)
Inductive piece : Type :=
| Text (s : gostring)
| Placeholder (key : gostring).

(** The template as it is written in the configuration. *)
Definition renderPiece (p : piece) : gostring :=
  match p with
  | Text s => s
  | Placeholder key => "{"%go ++ key ++ "}"%go
  end.

Definition render (t : list piece) : gostring := concat (map renderPiece t).

(** The template with every placeholder replaced by the value of its
    key, and by the empty string when the key has none. *)
Definition expandPiece (context : gostring -> option gostring) (p : piece)
    : gostring :=
  match p with
  | Text s => s
  | Placeholder key =>
      match context key with
      | Some value => value
      | None => []
      end
  end.

Definition expand (context : gostring -> option gostring) (t : list piece)
    : gostring :=
  concat (map (expandPiece context) t).

(** The text of a template holds no opening brace, and the key of a
    placeholder no closing brace: a placeholder goes from an opening
    brace to the next closing brace. *)
Definition wellFormed (p : piece) : Prop :=
  match p with
  | Text s => ~ In caddy.phOpen s
  | Placeholder key => ~ In caddy.phClose key
  end.

(** A brace of the string is escaped: a backslash stands before it. *)
Fixpoint escapesBrace (s : gostring) : bool :=
  match s with
  | b :: s' =>
      match s' with
      | c :: _ =>
          (Byte.eqb b caddy.phEscape
           && (Byte.eqb c caddy.phOpen || Byte.eqb c caddy.phClose))
          || escapesBrace s'
      | [] => false
      end
  | [] => false
  end.

(** An argument: a template, and after it a tail of text with opening
    braces that are not closed. *)
Definition argument : Type := list piece * gostring.

Definition renderArgument (a : argument) : gostring :=
  render (fst a) ++ snd a.

Definition expandArgument (context : gostring -> option gostring)
    (a : argument) : gostring :=
  expand context (fst a) ++ snd a.

(** No brace of the argument is escaped, and at most 101 opening
    braces are not closed. *)
Definition plain (a : argument) : Prop :=
  Forall wellFormed (fst a)
  /\ ~ In caddy.phClose (snd a)
  /\ (count_occ Byte.byte_eq_dec (snd a) caddy.phOpen <= 101)%nat
  /\ escapesBrace (renderArgument a) = false.

(** The argument that a string is: a placeholder goes from an opening
    brace to the next closing brace, and text stands between the
    placeholders; the tail starts at the first opening brace that is
    not closed.  [key] holds the bytes read after an opening brace, in
    reverse. *)
Fixpoint parseArgument (key : option gostring) (input : gostring)
    : argument :=
  match input, key with
  | [], None => ([], [])
  | [], Some k => ([], caddy.phOpen :: rev k)
  | c :: input', None =>
      if Byte.eqb c caddy.phOpen then parseArgument (Some []) input'
      else
        let '(pieces, tail) := parseArgument None input' in
        (Text [c] :: pieces, tail)
  | c :: input', Some k =>
      if Byte.eqb c caddy.phClose then
        let '(pieces, tail) := parseArgument None input' in
        (Placeholder (rev k) :: pieces, tail)
      else parseArgument (Some (c :: k)) input'
  end.

(** The opening braces of a string that are not closed. *)
Definition unclosed (s : gostring) : nat :=
  count_occ Byte.byte_eq_dec (snd (parseArgument None s)) caddy.phOpen.

(** ** Instances for the examples *)

(** [ReplaceAll] on inputs without braces: Caddy's replacer returns
    such an input as it is. *)
Definition plainReplaceAll (input empty : gostring) : gostring := input.

(** Modelled from the spec: the substitution of placeholders, which
    Caddy's replacer (not part of this repository) does.  A placeholder
    is a key between braces; it is replaced by the value that the
    context gives for the key, and by [empty] when it gives none.
    [key] holds the bytes of the key read so far, in reverse. *)
Fixpoint substitute (context : gostring -> option gostring)
    (key : option gostring) (input empty : gostring) : gostring :=
  match input, key with
  | [], None => []
  | [], Some k => "{"%byte :: rev k
  | c :: input', None =>
      if Byte.eqb c "{"%byte then substitute context (Some []) input' empty
      else c :: substitute context None input' empty
  | c :: input', Some k =>
      if Byte.eqb c "}"%byte then
        match context (rev k) with
        | Some value => value
        | None => empty
        end ++ substitute context None input' empty
      else substitute context (Some (c :: k)) input' empty
  end.

(** A context that knows the one key [ip]. *)
Definition exampleSubstitution (key : gostring) : option gostring :=
  if gostring_eqb key "ip"%go then Some "8.8.8.8"%go else None.

(** A range policy that accepts every address. *)
Definition anyRange (settings : dynamicdns.IPSettings) (addr : netip.Addr)
    : bool := true.

(** The program [echo]: it prints its arguments, separated by spaces
    and followed by a newline, and exits with code 0. *)
Definition echo (cmd : exec.Cmd) : exec.Behaviour :=
  exec.Runs (Exited 0) (strings.Join (exec.Args cmd) " "%byte ++ [x0a]) [].

(** A system on which the program does not exist. *)
Definition notFound (cmd : exec.Cmd) : exec.Behaviour :=
  exec.StartFails
    ("exec: "%go ++ [x22] ++ exec.Name cmd ++ [x22]
     ++ ": executable file not found in $PATH"%go).

(** A program that prints to both streams and exits with a code. *)
Definition program (code : Z) (stdout stderr : gostring) (cmd : exec.Cmd)
    : exec.Behaviour :=
  exec.Runs (Exited code) stdout stderr.

Definition exampleLogger : zap.Logger :=
  {| zap.name := "dynamic_dns.ip_sources.command"%go |}.

Definition exampleContext : CaddyContext := {| Logger := exampleLogger |}.

(** A provisioned command [name args...]. *)
Definition exampleCommand (name : gostring) (args : list gostring) : Command :=
  {| Cmd := name; Args := args; Dir := ""%go;
     Timeout := Some (30 * Second); logger := Some exampleLogger |}.

(** The settings of the tests: "nil means enabled, false means
    disabled". *)
Definition createIPSettings (ipv4 ipv6 : bool) : dynamicdns.IPSettings :=
  {| dynamicdns.IPv4 := if ipv4 then None else Some false;
     dynamicdns.IPv6 := if ipv6 then None else Some false;
     dynamicdns.IPRanges := [] |}.

(** A run of [GetIPs] with these instances, without a deadline of the
    caller and with an empty log. *)
Definition run (OS : exec.Cmd -> exec.Behaviour) (c : Command)
    (settings : dynamicdns.IPSettings) : outcome Result * list zap.Entry :=
  GetIPs plainReplaceAll netip.ParseAddr netip.String anyRange OS c
    context.Background settings [].

Definition addr_8_8_8_8 : netip.Addr :=
  {| netip.hi := 0; netip.lo := 0xffff08080808; netip.z := netip.z4 |}.

Definition addr_2001_4860_4860__8888 : netip.Addr :=
  {| netip.hi := 0x2001486048600000; netip.lo := 0x8888;
     netip.z := netip.z6 ""%go |}.

(** [setupCommand] of the tests ("Simple provision without complex
    context setup"): it sets the logger, and the timeout when there is
    none. *)
Definition setupCommand (lg : zap.Logger) (cmd : Command) : Command :=
  let cmd :=
    {| Cmd := Cmd cmd; Args := Args cmd; Dir := Dir cmd;
       Timeout := Timeout cmd; logger := Some lg |} in
  match Timeout cmd with
  | None =>
      let timeout := 30 * Second in
      {| Cmd := Cmd cmd; Args := Args cmd; Dir := Dir cmd;
         Timeout := Some timeout; logger := logger cmd |}
  | Some _ => cmd
  end.

(** The zero value [Command{}]. *)
Definition zeroCommand : Command :=
  {| Cmd := ""%go; Args := []; Dir := ""%go; Timeout := None;
     logger := None |}.

(** A token of the file "Testfile", which [caddyfile.NewTestDispenser]
    reads its input as. *)
Definition testToken (line : Z) (text : gostring) : caddyfile.Token :=
  {| caddyfile.File := "Testfile"%go; caddyfile.Line := line;
     caddyfile.Text := text |}.

(** [isNextOnNewLine] on tokens that are not imported and hold no line
    break: the second token is in another file or on a later line. *)
Definition plainIsNextOnNewLine (t1 t2 : caddyfile.Token) : bool :=
  negb (gostring_eqb (caddyfile.File t1) (caddyfile.File t2))
  || (caddyfile.Line t1 <? caddyfile.Line t2).

(** The message of [ArgErr] for a token that is not a brace, without
    the position that Caddy appends to it. *)
Definition plainArgErr (d : caddyfile.Dispenser) : error :=
  Errorf ("wrong argument count or unexpected line ending after '"%go
          ++ caddyfile.Val d ++ "'"%go).

(** A parser that differs from [netip.ParseAddr] on the texts that
    hold a comma only. *)
Definition commaParser (s : gostring) : netip.Addr + error :=
  if existsb (Byte.eqb ","%byte) s then inl addr_8_8_8_8
  else netip.ParseAddr s.

(** [net.ParseIP] stands for an address or nil; here by way of
    [netip.ParseAddr]. *)
Definition exampleParseIP (s : gostring) : option netip.Addr :=
  match netip.ParseAddr s with
  | inl a => Some a
  | inr _ => None
  end.

(** A command of the earlier version with its logger set. *)
Definition legacyCommand (name : gostring) (args : list gostring)
    : Legacy.Command :=
  {| Legacy.Cmd := name; Legacy.Args := args; Legacy.Dir := ""%go;
     Legacy.Timeout := 30 * Second; Legacy.logger := Some exampleLogger |}.

(** * Properties *)

(** ** White space *)

Import strings.

Lemma TrimLeftSpace_rune (e s : gostring) :
  In e spaceRunes -> TrimLeftSpace (e ++ s) = TrimLeftSpace s.
Proof.
  unfold spaceRunes. simpl In.
  intros H. repeat (destruct H as [<- | H]; [reflexivity|]). contradiction.
Qed.

Lemma trimLeftSpaceRev_rune (e s : gostring) :
  In e spaceRunes -> trimLeftSpaceRev (rev e ++ s) = trimLeftSpaceRev s.
Proof.
  unfold spaceRunes. simpl In.
  intros H. repeat (destruct H as [<- | H]; [reflexivity|]). contradiction.
Qed.

Lemma TrimLeftSpace_length_lt (n : nat) :
  forall s, (length s < n)%nat -> (length (TrimLeftSpace s) <= length s)%nat.
Proof.
  induction n as [|n IH]; intros s Hn; [lia|].
  destruct s as [|c s1]; [apply le_n|].
  assert (H1 : forall t, (length t <= length s1)%nat -> (length (TrimLeftSpace t) <= length t)%nat).
  { intros t Ht. apply IH. simpl in Hn. lia. }
  destruct c; simpl; try apply le_n; try (specialize (H1 s1); lia);
    (destruct s1 as [|c2 s2]; [apply le_n|]);
    destruct c2; simpl; try apply le_n; try (specialize (H1 s2); simpl in H1; lia);
    (destruct s2 as [|c3 s3]; [apply le_n|]);
    destruct c3; simpl; try apply le_n; try (specialize (H1 s3); simpl in H1; lia).
Qed.

Lemma TrimLeftSpace_length (s : gostring) :
  (length (TrimLeftSpace s) <= length s)%nat.
Proof. apply (TrimLeftSpace_length_lt (S (length s))). lia. Qed.

Lemma TrimLeftSpace_shorter (s t : gostring) :
  (length s < length t)%nat -> TrimLeftSpace s <> t.
Proof.
  intros Hlt Heq. pose proof (TrimLeftSpace_length s) as H.
  rewrite Heq in H. lia.
Qed.

Ltac shorter H :=
  exfalso; revert H; apply TrimLeftSpace_shorter; simpl; lia.

Lemma TrimLeftSpace_boundary (lit rest : gostring) :
  TrimLeftSpace lit = lit -> lit <> [] -> startsClean rest = true ->
  TrimLeftSpace (lit ++ rest) = lit ++ rest.
Proof.
  intros H Hne Hclean.
  destruct lit as [|c t]; [congruence|]. clear Hne.
  destruct c; simpl in H |- *; try reflexivity; try (shorter H);
    (destruct t as [|c2 t2];
     [ destruct rest as [|b r]; [reflexivity|];
       destruct b; try reflexivity; discriminate Hclean |]);
    destruct c2; simpl in H |- *; try reflexivity; try (shorter H);
    (destruct t2 as [|c3 t3];
     [ destruct rest as [|b r]; [reflexivity|];
       destruct b; try reflexivity; discriminate Hclean |]);
    destruct c3; simpl in H |- *; try reflexivity; shorter H.
Qed.

Lemma trimLeftSpaceRev_length_lt (n : nat) :
  forall s, (length s < n)%nat -> (length (trimLeftSpaceRev s) <= length s)%nat.
Proof.
  induction n as [|n IH]; intros s Hn; [lia|].
  destruct s as [|c s1]; [apply le_n|].
  assert (H1 : forall t, (length t <= length s1)%nat -> (length (trimLeftSpaceRev t) <= length t)%nat).
  { intros t Ht. apply IH. simpl in Hn. lia. }
  destruct c; simpl; try apply le_n; try (specialize (H1 s1); lia);
    (destruct s1 as [|c2 s2]; [apply le_n|]);
    destruct c2; simpl; try apply le_n; try (specialize (H1 s2); simpl in H1; lia);
    (destruct s2 as [|c3 s3]; [apply le_n|]);
    destruct c3; simpl; try apply le_n; try (specialize (H1 s3); simpl in H1; lia).
Qed.

Lemma trimLeftSpaceRev_length (s : gostring) :
  (length (trimLeftSpaceRev s) <= length s)%nat.
Proof. apply (trimLeftSpaceRev_length_lt (S (length s))). lia. Qed.

Lemma trimLeftSpaceRev_shorter (s t : gostring) :
  (length s < length t)%nat -> trimLeftSpaceRev s <> t.
Proof.
  intros Hlt Heq. pose proof (trimLeftSpaceRev_length s) as H.
  rewrite Heq in H. lia.
Qed.

Ltac shorter_rev H :=
  exfalso; revert H; apply trimLeftSpaceRev_shorter; simpl; lia.

Ltac rest_cases Hclean :=
  try reflexivity; try discriminate Hclean;
  match goal with
  | |- context [match ?l with [] => _ | _ :: _ => _ end] =>
      is_var l; destruct l as [|? ?]; [reflexivity|];
      match goal with
      | b : byte |- _ => destruct b; simpl in Hclean |- *; rest_cases Hclean
      end
  end.

Lemma trimLeftSpaceRev_boundary (lit rest : gostring) :
  trimLeftSpaceRev lit = lit -> lit <> [] -> endsCleanRev rest = true ->
  trimLeftSpaceRev (lit ++ rest) = lit ++ rest.
Proof.
  intros H Hne Hclean.
  destruct lit as [|c t]; [congruence|]. clear Hne.
  destruct c; simpl in H |- *; try reflexivity; try (shorter_rev H);
    (destruct t as [|c2 t2]; [ clear H; simpl; rest_cases Hclean |]);
    destruct c2; simpl in H |- *; try reflexivity; try (shorter_rev H);
    (destruct t2 as [|c3 t3]; [ clear H; simpl; rest_cases Hclean |]);
    destruct c3; simpl in H |- *; try reflexivity; shorter_rev H.
Qed.
Lemma blank_app (a b : gostring) : blank a -> blank b -> blank (a ++ b).
Proof.
  induction 1 as [|e s He Hs IH]; intros Hb; [exact Hb|].
  rewrite <- app_assoc. constructor; auto.
Qed.

Lemma blank_snoc_inv (l : gostring) :
  blank l -> l = [] \/ exists l' e, l = l' ++ e /\ In e spaceRunes.
Proof.
  induction 1 as [|e s He Hs IH]; [now left|]. right.
  destruct IH as [-> | (l' & e' & -> & He')].
  - exists [], e. now rewrite app_nil_r.
  - exists (e ++ l'), e'. now rewrite app_assoc.
Qed.

Lemma rune_not_nil (e : gostring) : In e spaceRunes -> e <> [].
Proof.
  unfold spaceRunes; simpl In. intros H.
  repeat (destruct H as [<- | H]; [discriminate|]). contradiction.
Qed.

Lemma rune_no_comma (e : gostring) : In e spaceRunes -> ~ In ","%byte e.
Proof.
  unfold spaceRunes; simpl In. intros H.
  repeat (destruct H as [<- | H];
          [simpl; intuition discriminate|]).
  contradiction.
Qed.

Lemma blank_no_comma (s : gostring) : blank s -> ~ In ","%byte s.
Proof.
  induction 1 as [|e s He Hs IH]; [auto|].
  rewrite in_app_iff. intros [H | H]; [now apply (rune_no_comma e)|auto].
Qed.

Lemma startsClean_rune (e s : gostring) :
  In e spaceRunes -> startsClean (e ++ s) = true.
Proof.
  unfold spaceRunes; simpl In. intros H.
  repeat (destruct H as [<- | H]; [reflexivity|]). contradiction.
Qed.

Lemma startsClean_blank_app (r s : gostring) :
  blank r -> startsClean s = true -> startsClean (r ++ s) = true.
Proof.
  intros Hr Hs. destruct Hr as [|e r' He Hr']; [exact Hs|].
  rewrite <- app_assoc. now apply startsClean_rune.
Qed.

Lemma endsCleanRev_rune (e s : gostring) :
  In e spaceRunes -> endsCleanRev (rev e ++ s) = true.
Proof.
  unfold spaceRunes; simpl In. intros H.
  repeat (destruct H as [<- | H]; [reflexivity|]). contradiction.
Qed.

Lemma endsCleanRev_blank_app (p l : gostring) :
  blank l -> endsCleanRev (rev p) = true -> endsCleanRev (rev (p ++ l)) = true.
Proof.
  intros Hl Hp. destruct (blank_snoc_inv l Hl) as [-> | (l' & e & -> & He)].
  - now rewrite app_nil_r.
  - rewrite app_assoc, rev_app_distr. now apply endsCleanRev_rune.
Qed.

Lemma TrimLeftSpace_blank_app (l s : gostring) :
  blank l -> TrimLeftSpace (l ++ s) = TrimLeftSpace s.
Proof.
  induction 1 as [|e l He Hl IH]; [reflexivity|].
  rewrite <- app_assoc, TrimLeftSpace_rune; assumption.
Qed.

Lemma TrimRightSpace_app_blank (s r : gostring) :
  blank r -> TrimRightSpace (s ++ r) = TrimRightSpace s.
Proof.
  intros Hr. revert s. induction Hr as [|e r He Hr IH]; intros s.
  - now rewrite app_nil_r.
  - rewrite app_assoc, IH. unfold TrimRightSpace.
    now rewrite rev_app_distr, trimLeftSpaceRev_rune.
Qed.

Lemma TrimSpace_blank (s : gostring) : blank s -> TrimSpace s = [].
Proof.
  intros Hs. unfold TrimSpace.
  rewrite <- (app_nil_r s), TrimLeftSpace_blank_app by assumption.
  reflexivity.
Qed.

Lemma TrimRightSpace_boundary (x lit : gostring) :
  TrimRightSpace lit = lit -> lit <> [] -> endsCleanRev (rev x) = true ->
  TrimRightSpace (x ++ lit) = x ++ lit.
Proof.
  unfold TrimRightSpace. intros H Hne Hx.
  assert (H' : trimLeftSpaceRev (rev lit) = rev lit).
  { rewrite <- (rev_involutive (trimLeftSpaceRev (rev lit))), H. reflexivity. }
  rewrite rev_app_distr, trimLeftSpaceRev_boundary; auto.
  - now rewrite <- rev_app_distr, rev_involutive.
  - intros E. apply Hne. now rewrite <- (rev_involutive lit), E.
Qed.

Lemma TrimSpace_pad (l lit r : gostring) :
  blank l -> blank r -> trimmed lit -> lit <> [] ->
  TrimSpace (l ++ lit ++ r) = lit.
Proof.
  intros Hl Hr [HL HR] Hne. unfold TrimSpace.
  rewrite TrimLeftSpace_blank_app by assumption.
  rewrite TrimLeftSpace_boundary; auto.
  - rewrite TrimRightSpace_app_blank; assumption.
  - rewrite <- (app_nil_r r). now apply startsClean_blank_app.
Qed.

(** ** Splitting and joining *)

Lemma Split_not_nil (s : gostring) (sep : byte) : Split s sep <> [].
Proof.
  destruct s as [|c s]; simpl; [discriminate|].
  destruct (Byte.eqb c sep); [discriminate|].
  destruct (Split s sep); discriminate.
Qed.

Lemma Split_no_sep (s : gostring) (sep : byte) :
  ~ In sep s -> Split s sep = [s].
Proof.
  induction s as [|c s IH]; intros Hn; [reflexivity|]. simpl.
  destruct (Byte.eqb c sep) eqn:E.
  - apply Byte.byte_dec_bl in E. subst. exfalso. apply Hn. now left.
  - rewrite IH; [reflexivity|]. intros H. apply Hn. now right.
Qed.

Lemma Split_app_sep (a b : gostring) (sep : byte) :
  ~ In sep a -> Split (a ++ sep :: b) sep = a :: Split b sep.
Proof.
  induction a as [|c a IH]; intros Hn; simpl.
  - now rewrite (Byte.byte_dec_lb (eq_refl sep)).
  - destruct (Byte.eqb c sep) eqn:E.
    + apply Byte.byte_dec_bl in E. subst. exfalso. apply Hn. now left.
    + rewrite IH; [reflexivity|]. intros H. apply Hn. now right.
Qed.

Lemma Split_Join (toks : list gostring) (sep : byte) :
  toks <> [] -> Forall (fun tok => ~ In sep tok) toks ->
  Split (Join toks sep) sep = toks.
Proof.
  induction toks as [|tok toks IH]; intros Hne Hall; [congruence|].
  inversion Hall as [|? ? Htok Htoks]; subst.
  destruct toks as [|tok2 toks].
  - simpl. now apply Split_no_sep.
  - change (Join (tok :: tok2 :: toks) sep)
      with (tok ++ sep :: Join (tok2 :: toks) sep).
    rewrite Split_app_sep by assumption. f_equal. apply IH; [discriminate|assumption].
Qed.

Lemma pad_no_comma t : goodToken t -> ~ In ","%byte (pad t).
Proof.
  destruct t as [[l lit] r]. intros (Hl & Hr & _ & _ & Hlit). simpl.
  rewrite !in_app_iff. intros [H | [H | H]]; auto.
  - now apply (blank_no_comma l).
  - now apply (blank_no_comma r).
Qed.

Lemma TrimSpace_pad_token t : goodToken t -> TrimSpace (pad t) = literal t.
Proof.
  destruct t as [[l lit] r]. intros (Hl & Hr & Ht & Hne & _).
  now apply TrimSpace_pad.
Qed.

Lemma literal_not_empty t : goodToken t -> isEmpty (literal t) = false.
Proof.
  destruct t as [[l lit] r]. intros (_ & _ & _ & Hne & _). simpl.
  destruct lit; [congruence|reflexivity].
Qed.

Lemma stripFirst_good ts : Forall goodToken ts -> Forall goodToken (stripFirst ts).
Proof.
  intros H. destruct H as [|[[l lit] r] ts Ht Hts]; simpl; constructor; auto.
  destruct Ht as (_ & Hr & Hrest). repeat split; try apply Hrest; auto. constructor.
Qed.

Lemma stripLast_good ts : Forall goodToken ts -> Forall goodToken (stripLast ts).
Proof.
  induction 1 as [|[[l lit] r] ts Ht Hts IH]; simpl; [constructor|].
  destruct ts as [|t2 ts].
  - constructor; [|constructor]. destruct Ht as (Hl & _ & Hrest).
    repeat split; try apply Hrest; auto. constructor.
  - constructor; assumption.
Qed.

Lemma stripFirst_literal ts : map literal (stripFirst ts) = map literal ts.
Proof. destruct ts as [|[[l lit] r] ts]; reflexivity. Qed.

Lemma stripLast_literal ts : map literal (stripLast ts) = map literal ts.
Proof.
  induction ts as [|[[l lit] r] ts IH]; [reflexivity|].
  destruct ts as [|t2 ts]; [reflexivity|].
  change (stripLast ((l, lit, r) :: t2 :: ts)) with ((l, lit, r) :: stripLast (t2 :: ts)).
  rewrite (map_cons literal (l, lit, r) (stripLast (t2 :: ts))), IH. reflexivity.
Qed.

Lemma stripFirst_not_nil ts : ts <> [] -> stripFirst ts <> [].
Proof. destruct ts as [|[[l lit] r] ts]; [congruence|discriminate]. Qed.

Lemma stripLast_not_nil ts : ts <> [] -> stripLast ts <> [].
Proof.
  destruct ts as [|[[l lit] r] ts]; [congruence|].
  intros _. simpl. destruct ts; discriminate.
Qed.

Lemma Join_pad_cons (l lit r w1 : gostring) ts :
  Join (map pad ((l, lit, r) :: ts)) ","%byte ++ w1
  = l ++ lit ++ r ++ match ts with
                     | [] => w1
                     | _ :: _ => ","%byte :: Join (map pad ts) ","%byte ++ w1
                     end.
Proof.
  destruct ts as [|t2 ts].
  - simpl. now rewrite <- !app_assoc.
  - change (Join (map pad ((l, lit, r) :: t2 :: ts)) ","%byte)
      with (pad (l, lit, r) ++ ","%byte :: Join (map pad (t2 :: ts)) ","%byte).
    simpl pad. rewrite <- !app_assoc. reflexivity.
Qed.

Lemma TrimLeftSpace_Join (w0 w1 : gostring) ts :
  blank w0 -> blank w1 -> Forall goodToken ts -> ts <> [] ->
  TrimLeftSpace (w0 ++ Join (map pad ts) ","%byte ++ w1)
  = Join (map pad (stripFirst ts)) ","%byte ++ w1.
Proof.
  intros Hw0 Hw1 Hts Hne.
  destruct Hts as [|[[l lit] r] ts (Hl & Hr & [HL HR] & Hlit & _) Hts]; [congruence|].
  unfold stripFirst. rewrite !Join_pad_cons.
  rewrite !TrimLeftSpace_blank_app by assumption.
  rewrite app_nil_l.
  apply TrimLeftSpace_boundary; auto.
  apply startsClean_blank_app; auto.
  destruct ts; [|reflexivity].
  rewrite <- (app_nil_r w1). apply startsClean_blank_app; auto.
Qed.

Lemma TrimRightSpace_Join ts : forall (p w1 : gostring),
  blank w1 -> Forall goodToken ts -> ts <> [] ->
  endsCleanRev (rev p) = true ->
  TrimRightSpace (p ++ Join (map pad ts) ","%byte ++ w1)
  = p ++ Join (map pad (stripLast ts)) ","%byte.
Proof.
  induction ts as [|[[l lit] r] ts IH]; intros p w1 Hw1 Hts Hne Hp; [congruence|].
  inversion Hts as [|? ? Ht Hts']; subst.
  destruct Ht as (Hl & Hr & [HL HR] & Hlit & _).
  destruct ts as [|t2 ts].
  - simpl. rewrite app_nil_r.
    replace (p ++ (l ++ lit ++ r) ++ w1) with (((p ++ l) ++ lit) ++ (r ++ w1))
      by (now rewrite <- !app_assoc).
    rewrite TrimRightSpace_app_blank by (now apply blank_app).
    rewrite TrimRightSpace_boundary; auto.
    + now rewrite <- !app_assoc.
    + now apply endsCleanRev_blank_app.
  - change (Join (map pad ((l, lit, r) :: t2 :: ts)) ","%byte)
      with (pad (l, lit, r) ++ ","%byte :: Join (map pad (t2 :: ts)) ","%byte).
    change (stripLast ((l, lit, r) :: t2 :: ts))
      with ((l, lit, r) :: stripLast (t2 :: ts)).
    replace (p ++ (pad (l, lit, r) ++ ","%byte :: Join (map pad (t2 :: ts)) ","%byte) ++ w1)
      with ((p ++ pad (l, lit, r) ++ [","%byte]) ++ Join (map pad (t2 :: ts)) ","%byte ++ w1)
      by (rewrite <- !app_assoc; reflexivity).
    rewrite IH; auto; try discriminate.
    + pose proof (stripLast_not_nil (t2 :: ts)) as Hn.
      destruct (stripLast (t2 :: ts)) as [|t3 ts3] eqn:E; [exfalso; apply Hn; [discriminate|reflexivity]|].
      simpl. rewrite <- !app_assoc. reflexivity.
    + rewrite !app_assoc, rev_app_distr. reflexivity.
Qed.

Lemma TrimSpace_Join (w0 w1 : gostring) ts :
  blank w0 -> blank w1 -> Forall goodToken ts -> ts <> [] ->
  TrimSpace (w0 ++ Join (map pad ts) ","%byte ++ w1)
  = Join (map pad (stripLast (stripFirst ts))) ","%byte.
Proof.
  intros Hw0 Hw1 Hts Hne. unfold TrimSpace.
  rewrite TrimLeftSpace_Join by assumption.
  apply (TrimRightSpace_Join (stripFirst ts) [] w1); auto.
  - now apply stripFirst_good.
  - now apply stripFirst_not_nil.
Qed.

Lemma tokens_padded (w0 w1 : gostring) ts :
  blank w0 -> blank w1 -> Forall goodToken ts ->
  tokens (w0 ++ Join (map pad ts) ","%byte ++ w1) = map literal ts.
Proof.
  intros Hw0 Hw1 Hts. unfold tokens.
  destruct ts as [|t ts].
  - simpl. rewrite TrimSpace_blank by (now apply blank_app). reflexivity.
  - rewrite TrimSpace_Join by (auto; discriminate).
    set (ts' := stripLast (stripFirst (t :: ts))).
    assert (Hgood : Forall goodToken ts')
      by (now apply stripLast_good, stripFirst_good).
    assert (Hlit : map literal ts' = map literal (t :: ts))
      by (unfold ts'; now rewrite stripLast_literal, stripFirst_literal).
    rewrite Split_Join.
    + rewrite <- Hlit. clear Hlit. induction Hgood as [|t' ts'' Ht' _ IH]; [reflexivity|].
      simpl. rewrite TrimSpace_pad_token, literal_not_empty by assumption.
      simpl. now rewrite IH.
    + intros E. apply map_eq_nil in E. revert E.
      apply stripLast_not_nil, stripFirst_not_nil. discriminate.
    + apply Forall_map. revert Hgood. apply Forall_impl. apply pad_no_comma.
Qed.

Lemma boc_app (a b : gostring) :
  blankOrComma a -> blankOrComma b -> blankOrComma (a ++ b).
Proof.
  induction 1 as [|e s He Hs IH|s Hs IH]; intros Hb; [exact Hb| |].
  - rewrite <- app_assoc. constructor; auto.
  - simpl. constructor; auto.
Qed.

Lemma boc_snoc_ind (P : gostring -> Prop) :
  P [] ->
  (forall s e, In e spaceRunes -> blankOrComma s -> P s -> P (s ++ e)) ->
  (forall s, blankOrComma s -> P s -> P (s ++ [","%byte])) ->
  forall s, blankOrComma s -> P s.
Proof.
  intros Hnil Hrune Hcomma s Hs.
  assert (G : forall a, blankOrComma a -> P a -> blankOrComma (a ++ s) /\ P (a ++ s)).
  { induction Hs as [|e s He Hs IH|s Hs IH]; intros a Ha HP.
    - rewrite app_nil_r. now split.
    - rewrite app_assoc. apply IH.
      + apply boc_app; [assumption|]. rewrite <- (app_nil_r e).
        constructor; [assumption|constructor].
      + now apply Hrune.
    - change (","%byte :: s) with ([","%byte] ++ s). rewrite app_assoc. apply IH.
      + apply boc_app; [assumption|]. repeat constructor.
      + now apply Hcomma. }
  apply (G [] boc_nil Hnil).
Qed.

Lemma boc_TrimLeftSpace (s : gostring) :
  blankOrComma s -> blankOrComma (TrimLeftSpace s).
Proof.
  induction 1 as [|e s He Hs IH|s Hs IH]; [constructor| |].
  - now rewrite TrimLeftSpace_rune.
  - simpl. now constructor.
Qed.

Lemma boc_TrimRightSpace (s : gostring) :
  blankOrComma s -> blankOrComma (TrimRightSpace s).
Proof.
  intros Hs. induction Hs as [|s e He Hs IH|s Hs IH] using boc_snoc_ind.
  - constructor.
  - rewrite TrimRightSpace_app_blank; [assumption|].
    rewrite <- (app_nil_r e). constructor; [assumption|constructor].
  - unfold TrimRightSpace. rewrite rev_app_distr. simpl.
    rewrite rev_involutive. apply boc_app; [assumption|repeat constructor].
Qed.

Lemma Split_app_no_sep (e s : gostring) (sep : byte) :
  ~ In sep e ->
  Split (e ++ s) sep
  = match Split s sep with
    | tok :: toks => (e ++ tok) :: toks
    | [] => [e]
    end.
Proof.
  induction e as [|c e IH]; intros Hn.
  - simpl. destruct (Split s sep) eqn:E; [|reflexivity].
    now apply Split_not_nil in E.
  - simpl. destruct (Byte.eqb c sep) eqn:Ec.
    + apply Byte.byte_dec_bl in Ec. subst. exfalso. apply Hn. now left.
    + rewrite IH by (intros H; apply Hn; now right).
      destruct (Split s sep); reflexivity.
Qed.

Lemma boc_Split (s : gostring) :
  blankOrComma s -> Forall blank (Split s ","%byte).
Proof.
  induction 1 as [|e s He Hs IH|s Hs IH].
  - repeat constructor.
  - rewrite Split_app_no_sep by (now apply rune_no_comma).
    destruct (Split s ","%byte) as [|tok toks].
    + constructor; [|constructor]. rewrite <- (app_nil_r e).
      constructor; [assumption|constructor].
    + inversion IH; subst. constructor; [|assumption]. now constructor.
  - simpl. constructor; [constructor|assumption].
Qed.

Lemma tokens_blank_list (toks : list gostring) :
  Forall blank toks ->
  filter (fun tok => negb (isEmpty tok)) (map TrimSpace toks) = [].
Proof.
  induction 1 as [|tok toks Htok _ IH]; [reflexivity|].
  simpl. rewrite TrimSpace_blank by assumption. exact IH.
Qed.

Lemma tokens_blankOrComma (s : gostring) : blankOrComma s -> tokens s = [].
Proof.
  intros Hs. unfold tokens. apply tokens_blank_list, boc_Split.
  unfold TrimSpace. now apply boc_TrimRightSpace, boc_TrimLeftSpace.
Qed.

Lemma blank_blankOrComma (s : gostring) : blank s -> blankOrComma s.
Proof. induction 1; constructor; assumption. Qed.

(** ** Address literals without a zone *)

Lemma digitVal_addrChar (c : byte) (d : N) :
  netip.digitVal c = Some d -> addrChar c = true.
Proof. destruct c; simpl; intros H; try discriminate H; reflexivity. Qed.

Lemma eqb_addrChar (c b : byte) :
  Byte.eqb c b = true -> addrChar b = true -> addrChar c = true.
Proof. intros H. apply Byte.byte_dec_bl in H. now subst. Qed.

Lemma parseIPv4Loop_chars (s : gostring) :
  forall first prevDot val pos digLen fields r,
    netip.parseIPv4Loop s first prevDot val pos digLen fields = inl r ->
    Forall (fun b => addrChar b = true) s.
Proof.
  induction s as [|c s IH]; intros first prevDot val pos digLen fields r H;
    [constructor|].
  simpl in H. destruct (netip.digitVal c) as [d|] eqn:Ed.
  - constructor; [now apply (digitVal_addrChar c d)|].
    destruct ((digLen =? 1)%nat && (val =? 0)%N)%bool; [discriminate|].
    destruct (255 <? val * 10 + d)%N; [discriminate|]. eapply IH; eassumption.
  - destruct (Byte.eqb c "."%byte) eqn:Ec; [|discriminate].
    constructor; [now apply (eqb_addrChar c "."%byte)|].
    destruct (first || isEmpty s || prevDot)%bool; [discriminate|].
    destruct (pos =? 3)%nat; [discriminate|]. eapply IH; eassumption.
Qed.

Lemma scanHex_chars (s : gostring) :
  forall off acc acc' off' rest,
    netip.scanHex s off acc = inl (acc', off', rest) ->
    exists ds, s = ds ++ rest /\ Forall (fun b => addrChar b = true) ds.
Proof.
  induction s as [|c s IH]; intros off acc acc' off' rest H; simpl in H.
  - inversion H; subst. exists []. split; [reflexivity|constructor].
  - destruct (netip.hexVal c) as [d|] eqn:Ed.
    + destruct (3 <? off)%nat; [discriminate|].
      destruct (65535 <? acc * 16 + d)%N; [discriminate|].
      destruct (IH _ _ _ _ _ H) as (ds & -> & Hds).
      exists (c :: ds). split; [reflexivity|]. constructor; [|assumption].
      unfold addrChar. now rewrite Ed.
    + inversion H; subst. exists []. split; [reflexivity|constructor].
Qed.

Lemma colon_addrChar (c : byte) :
  Byte.eqb c ":"%byte = true -> addrChar c = true.
Proof. intros H. now apply (eqb_addrChar c ":"%byte). Qed.

Lemma parseIPv6Loop_chars (fuel : nat) :
  forall s ip ellipsis rest ip' ellipsis',
    netip.parseIPv6Loop fuel s ip ellipsis = inl (rest, ip', ellipsis') ->
    exists pre, s = pre ++ rest /\ Forall (fun b => addrChar b = true) pre.
Proof.
  induction fuel as [|fuel IH]; intros s ip ellipsis rest ip' ellipsis' H.
  - simpl in H. inversion H; subst. exists []. split; [reflexivity|constructor].
  - simpl in H.
    destruct (netip.scanHex s 0 0%N) as [[[acc off] rest0]|msg] eqn:Es;
      [|discriminate].
    destruct (scanHex_chars _ _ _ _ _ _ Es) as (ds & Hs & Hds).
    destruct (off =? 0)%nat; [discriminate|].
    destruct (match rest0 with c :: _ => Byte.eqb c "."%byte | [] => false end).
    + destruct (_ && _)%bool; [discriminate|].
      destruct (16 <? length ip + 4)%nat; [discriminate|].
      destruct (netip.parseIPv4Fields s) as [fields|msg] eqn:E4; [|discriminate].
      inversion H; subst rest ip' ellipsis'. exists s. split; [now rewrite app_nil_r|].
      now apply parseIPv4Loop_chars in E4.
    + destruct rest0 as [|c s1].
      * inversion H; subst rest ip' ellipsis'. exists ds. split; assumption.
      * destruct (Byte.eqb c ":"%byte) eqn:Ec; simpl in H; [|discriminate].
        destruct s1 as [|c1 s2]; [discriminate|].
        destruct (Byte.eqb c1 ":"%byte) eqn:Ec1.
        -- destruct ellipsis; [discriminate|].
           destruct s2 as [|c2 s3].
           ++ inversion H; subst rest ip' ellipsis'. exists s.
              split; [now rewrite app_nil_r|]. rewrite Hs.
              apply Forall_app. split; [assumption|].
              repeat constructor; now apply colon_addrChar.
           ++ destruct (IH _ _ _ _ _ _ H) as (pre & Hpre & Hall).
              exists (ds ++ c :: c1 :: pre). split.
              ** rewrite Hs, Hpre, <- app_assoc. reflexivity.
              ** apply Forall_app. split; [assumption|].
                 repeat constructor; try now apply colon_addrChar. assumption.
        -- destruct (IH _ _ _ _ _ _ H) as (pre & Hpre & Hall).
           exists (ds ++ c :: pre). split.
           ** rewrite Hs, Hpre, <- app_assoc. reflexivity.
           ** apply Forall_app. split; [assumption|].
              constructor; [now apply colon_addrChar|assumption].
Qed.

Lemma cutByte_none (s : gostring) (b : byte) :
  netip.cutByte s b = None -> ~ In b s.
Proof.
  induction s as [|c s IH]; simpl; [auto|].
  destruct (Byte.eqb c b) eqn:E; [discriminate|].
  destruct (netip.cutByte s b) as [[before after]|]; [discriminate|].
  intros _ [H | H]; [|now apply IH].
  subst. now rewrite (Byte.byte_dec_lb eq_refl) in E.
Qed.

Lemma WithZone_unzoned (ip : netip.Addr) (zone : gostring) :
  netip.Is6 ip = true -> unzoned (netip.WithZone ip zone) = true -> zone = [].
Proof.
  unfold netip.WithZone, unzoned. intros ->. simpl. destruct zone; [reflexivity|discriminate].
Qed.

Lemma finishIPv6_unzoned (s : gostring) (ip : list N) (ellipsis : option nat)
    (zone : gostring) (a : netip.Addr) :
  netip.finishIPv6 s ip ellipsis zone = inl a -> unzoned a = true ->
  s = [] /\ zone = [].
Proof.
  unfold netip.finishIPv6. destruct s as [|c s]; [|discriminate]. simpl.
  intros H Hu. split; [reflexivity|].
  destruct (length ip <? 16)%nat; destruct ellipsis; try discriminate;
    inversion H; subst a; now apply WithZone_unzoned in Hu.
Qed.

Lemma parseIPv6Groups_unzoned (s zone : gostring) (a : netip.Addr) :
  netip.parseIPv6Groups s zone = inl a -> unzoned a = true ->
  zone = [] /\ Forall (fun b => addrChar b = true) s.
Proof.
  unfold netip.parseIPv6Groups. intros H Hu.
  assert (G : forall s1 e,
            match netip.parseIPv6Loop 8 s1 [] e with
            | inl (s2, ip, ellipsis) => netip.finishIPv6 s2 ip ellipsis zone
            | inr msg => inr (ParseAddrError msg)
            end = inl a ->
            zone = [] /\ Forall (fun b => addrChar b = true) s1).
  { intros s1 e H1.
    destruct (netip.parseIPv6Loop 8 s1 [] e) as [[[s2 ip] e']|msg] eqn:El;
      [|discriminate].
    destruct (finishIPv6_unzoned _ _ _ _ _ H1 Hu) as [-> Hz].
    destruct (parseIPv6Loop_chars _ _ _ _ _ _ _ El) as (pre & -> & Hall).
    split; [assumption|now rewrite app_nil_r]. }
  unfold netip.leadingEllipsis in H.
  destruct s as [|c0 [|c1 s']]; try (now apply (G _ None)).
  destruct (Byte.eqb c0 ":"%byte && Byte.eqb c1 ":"%byte)%bool eqn:Ecc;
    [|now apply (G _ None)].
  apply andb_true_iff in Ecc as [E0 E1].
  assert (Hcc : forall t, Forall (fun b => addrChar b = true) t ->
                          Forall (fun b => addrChar b = true) (c0 :: c1 :: t)).
  { intros t Ht. repeat constructor; try now apply colon_addrChar. assumption. }
  destruct s' as [|c2 s'].
  - inversion H; subst a. split; [|apply Hcc; constructor].
    now apply WithZone_unzoned in Hu.
  - destruct (G _ _ H) as [Hz Hall]. split; [assumption|now apply Hcc].
Qed.

Lemma parseIPv6_chars (s : gostring) (a : netip.Addr) :
  netip.parseIPv6 s = inl a -> unzoned a = true ->
  Forall (fun b => addrChar b = true) s.
Proof.
  unfold netip.parseIPv6.
  destruct (netip.cutByte s "%"%byte) as [[s0 zone]|] eqn:Ecut.
  - destruct (isEmpty zone) eqn:Ez; [discriminate|].
    intros H Hu. destruct (parseIPv6Groups_unzoned _ _ _ H Hu) as [-> _].
    discriminate.
  - intros H Hu. now destruct (parseIPv6Groups_unzoned _ _ _ H Hu).
Qed.

Lemma parseIPv4_chars (s : gostring) (a : netip.Addr) :
  netip.parseIPv4 s = inl a -> Forall (fun b => addrChar b = true) s.
Proof.
  unfold netip.parseIPv4, netip.parseIPv4Fields.
  destruct (netip.parseIPv4Loop s true false 0%N 0%nat 0%nat []) eqn:E;
    [|discriminate].
  intros _. now apply parseIPv4Loop_chars in E.
Qed.

Lemma parseAddrScan_chars (s whole : gostring) (a : netip.Addr) :
  netip.parseAddrScan s whole = inl a -> unzoned a = true ->
  Forall (fun b => addrChar b = true) whole.
Proof.
  induction s as [|c s IH]; simpl; [discriminate|].
  destruct (Byte.eqb c "."%byte); [intros H _; now apply parseIPv4_chars in H|].
  destruct (Byte.eqb c ":"%byte); [apply parseIPv6_chars|].
  destruct (Byte.eqb c "%"%byte); [discriminate|assumption].
Qed.

Lemma addrChar_TrimLeftSpace (b : byte) (s : gostring) :
  addrChar b = true -> TrimLeftSpace (b :: s) = b :: s.
Proof. destruct b; intros H; try discriminate H; reflexivity. Qed.

Lemma addrChar_trimLeftSpaceRev (b : byte) (s : gostring) :
  addrChar b = true -> trimLeftSpaceRev (b :: s) = b :: s.
Proof. destruct b; intros H; try discriminate H; reflexivity. Qed.

Lemma addrChar_not_comma (s : gostring) :
  Forall (fun b => addrChar b = true) s -> ~ In ","%byte s.
Proof.
  intros H Hin. rewrite Forall_forall in H. specialize (H _ Hin). discriminate.
Qed.

Lemma addrChars_trimmed (s : gostring) :
  Forall (fun b => addrChar b = true) s -> trimmed s.
Proof.
  intros H. split.
  - destruct H as [|b s Hb _]; [reflexivity|now apply addrChar_TrimLeftSpace].
  - unfold TrimRightSpace. pose proof (Forall_rev H) as Hr.
    destruct (rev s) as [|b r] eqn:Er.
    + apply (f_equal (@rev byte)) in Er. rewrite rev_involutive in Er.
      now subst.
    + inversion Hr; subst. rewrite addrChar_trimLeftSpaceRev by assumption.
      rewrite <- Er. apply rev_involutive.
Qed.

(** An IPv4 literal, and an IPv6 literal without a zone, is made of
    hexadecimal digits, dots and colons: it has no comma and no white
    space. *)
Lemma unzoned_literal_good (lit : gostring) (a : netip.Addr) :
  netip.ParseAddr lit = inl a -> unzoned a = true ->
  trimmed lit /\ lit <> [] /\ ~ In ","%byte lit.
Proof.
  intros H Hu. unfold netip.ParseAddr in H.
  pose proof (parseAddrScan_chars lit lit a H Hu) as Hall.
  repeat split.
  - now destruct (addrChars_trimmed lit Hall).
  - now destruct (addrChars_trimmed lit Hall).
  - intros ->. discriminate.
  - now apply addrChar_not_comma.
Qed.

(** ** The module *)

Section Properties.

Variable ReplaceAll : gostring -> gostring -> gostring.
Variable ParseAddr : gostring -> netip.Addr + error.
Variable AddrString : netip.Addr -> gostring.
Variable Contains : dynamicdns.IPSettings -> netip.Addr -> bool.

Lemma ready_inv (c : Command) :
  ready c = true -> exists t lg, Timeout c = Some t /\ logger c = Some lg.
Proof.
  unfold ready. destruct (Timeout c) as [t|], (logger c) as [lg|];
    try discriminate. intros _. now exists t, lg.
Qed.

Lemma passes_code (settings : dynamicdns.IPSettings) (a : netip.Addr) :
  (if dynamicdns.V4Enabled settings && netip.Is4 a && Contains settings a
   then true
   else if dynamicdns.V6Enabled settings && netip.Is6 a && Contains settings a
        then true else false)
  = passes Contains settings a.
Proof.
  unfold passes, familyEnabled, netip.Is4, netip.Is6.
  destruct (netip.z a); simpl;
    rewrite ?andb_false_r, ?andb_true_r; simpl;
    repeat match goal with |- context [if ?b then _ else _] => destruct b end;
    reflexivity.
Qed.

#[local] Arguments passes : simpl never.

(** The loop returns what all-or-nothing parsing followed by the
    filter returns. *)
Lemma parseLoop_refines (c : Command) (ea : list gostring)
    (stdout : gostring) (settings : dynamicdns.IPSettings) :
  logger c <> None ->
  forall ipArr out log,
    fst (parseLoop ParseAddr AddrString Contains c ea stdout settings ipArr out log)
    = match parseAll ParseAddr
              (filter (fun tok => negb (isEmpty tok)) (map TrimSpace ipArr)) with
      | inl addrs =>
          Done (Some (out ++ filter (passes Contains settings) addrs), None)
      | inr bad => Done (None, Some (Errorf ("invalid IP: "%go ++ bad)))
      end.
Proof.
  intros Hlg. destruct (logger c) as [lg|] eqn:El; [clear Hlg|congruence].
  induction ipArr as [|tok ipArr IH]; intros out log.
  - simpl. now rewrite app_nil_r.
  - simpl. destruct (isEmpty (TrimSpace tok)) eqn:Ee; simpl; [apply IH|].
    destruct (ParseAddr (TrimSpace tok)) as [addr|err] eqn:Ep.
    + pose proof (passes_code settings addr) as Hp.
      destruct (dynamicdns.V4Enabled settings && netip.Is4 addr
                && Contains settings addr);
        [|destruct (dynamicdns.V6Enabled settings && netip.Is6 addr
                    && Contains settings addr)];
        unfold bind, write; rewrite ?El; rewrite IH;
        (destruct (parseAll _ _); [|reflexivity]);
        simpl filter; rewrite <- Hp; rewrite <- ?app_assoc; reflexivity.
    + unfold bind, write, ret. rewrite El. reflexivity.
Qed.

(** The loop only appends to the log. *)
Lemma parseLoop_log (c : Command) (ea : list gostring)
    (stdout : gostring) (settings : dynamicdns.IPSettings) :
  forall ipArr out log,
    parseLoop ParseAddr AddrString Contains c ea stdout settings ipArr out log
    = (fst (parseLoop ParseAddr AddrString Contains c ea stdout settings ipArr out []),
       log ++ snd (parseLoop ParseAddr AddrString Contains c ea stdout settings ipArr out [])).
Proof.
  induction ipArr as [|tok ipArr IH]; intros out log.
  - simpl. unfold ret. simpl. now rewrite app_nil_r.
  - simpl. destruct (isEmpty (TrimSpace tok)); [apply IH|].
    destruct (ParseAddr (TrimSpace tok)) as [addr|err].
    + destruct (dynamicdns.V4Enabled settings && netip.Is4 addr
                && Contains settings addr);
        [|destruct (dynamicdns.V6Enabled settings && netip.Is6 addr
                    && Contains settings addr)]; try apply IH;
        unfold bind, write; (destruct (logger c); [|simpl; now rewrite app_nil_r]);
        rewrite (IH (out ++ [addr]) (log ++ [_])), (IH (out ++ [addr]) ([] ++ [_]));
        simpl; now rewrite <- app_assoc.
    + unfold bind, write, ret. destruct (logger c); simpl; now rewrite ?app_nil_r.
Qed.

(** A run that ends with exit code 0 goes on to the loop. *)
Lemma GetIPs_exit_zero (OS : exec.Cmd -> exec.Behaviour) (c : Command)
    (ctx : context.Context) (settings : dynamicdns.IPSettings)
    (stdout stderr : gostring) :
  ready c = true ->
  OS (buildCmd ReplaceAll c ctx) = exec.Runs (Exited 0) stdout stderr ->
  GetIPs ReplaceAll ParseAddr AddrString Contains OS c ctx settings []
  = parseLoop ParseAddr AddrString Contains c (expandArgs ReplaceAll c) stdout
      settings (Split (TrimSpace stdout) ","%byte) []
      (runningEntry c (expandArgs ReplaceAll c) (timeoutOf c)
       :: if isEmpty stderr then [] else [stderrEntry c stderr]).
Proof.
  intros Hr Hos. destruct (ready_inv c Hr) as (t & lg & Et & El).
  unfold GetIPs, timeoutOf. rewrite Hos, Et, El. unfold bind, deref, write, ret. simpl.
  destruct stderr as [|b stderr]; reflexivity.
Qed.

Lemma GetIPs_result (OS : exec.Cmd -> exec.Behaviour) (c : Command)
    (ctx : context.Context) (settings : dynamicdns.IPSettings)
    (stdout stderr : gostring) :
  ready c = true ->
  OS (buildCmd ReplaceAll c ctx) = exec.Runs (Exited 0) stdout stderr ->
  fst (GetIPs ReplaceAll ParseAddr AddrString Contains OS c ctx settings [])
  = match parseAll ParseAddr (tokens stdout) with
    | inl addrs => Done (Some (filter (passes Contains settings) addrs), None)
    | inr bad => Done (None, Some (Errorf ("invalid IP: "%go ++ bad)))
    end.
Proof.
  intros Hr Hos. rewrite (GetIPs_exit_zero OS c ctx settings stdout stderr Hr Hos).
  destruct (ready_inv c Hr) as (t & lg & Et & El).
  rewrite parseLoop_refines by congruence. reflexivity.
Qed.


Lemma GetIPs_log (OS : exec.Cmd -> exec.Behaviour) (c : Command)
    (ctx : context.Context) (settings : dynamicdns.IPSettings)
    (stdout stderr : gostring) :
  ready c = true ->
  OS (buildCmd ReplaceAll c ctx) = exec.Runs (Exited 0) stdout stderr ->
  snd (GetIPs ReplaceAll ParseAddr AddrString Contains OS c ctx settings [])
  = (runningEntry c (expandArgs ReplaceAll c) (timeoutOf c)
     :: if isEmpty stderr then [] else [stderrEntry c stderr])
    ++ snd (parseLoop ParseAddr AddrString Contains c (expandArgs ReplaceAll c)
              stdout settings (Split (TrimSpace stdout) ","%byte) [] []).
Proof.
  intros Hr Hos. rewrite (GetIPs_exit_zero OS c ctx settings stdout stderr Hr Hos).
  rewrite parseLoop_log. reflexivity.
Qed.

(** Whatever error [cmd.Run()] returns is returned as it is, with no
    addresses. *)
Lemma GetIPs_run_error (OS : exec.Cmd -> exec.Behaviour) (c : Command)
    (ctx : context.Context) (settings : dynamicdns.IPSettings) (err : error) :
  ready c = true ->
  exec.run_err (exec.Run (OS (buildCmd ReplaceAll c ctx))) = Some err ->
  fst (GetIPs ReplaceAll ParseAddr AddrString Contains OS c ctx settings [])
  = Done (None, Some err).
Proof.
  intros Hr He. destruct (ready_inv c Hr) as (t & lg & Et & El).
  unfold GetIPs. rewrite He, Et, El. reflexivity.
Qed.

(** After [cmd.Run()] has returned no error the exit code is 0. *)
Lemma Run_no_error_exit_zero (b : exec.Behaviour) :
  exec.run_err (exec.Run b) = None ->
  os.ExitCode (exec.run_state (exec.Run b)) = 0.
Proof.
  destruct b as [msg|state stdout stderr]; simpl; [discriminate|].
  destruct state as [code|sig]; simpl; [|discriminate].
  destruct (code =? 0) eqn:E; [|discriminate]. intros _. now apply Z.eqb_eq.
Qed.

Lemma parseAll_app_invalid (before after : list gostring) (bad : gostring)
    (err : error) :
  Forall (fun tok => exists a, ParseAddr tok = inl a) before ->
  ParseAddr bad = inr err ->
  parseAll ParseAddr (before ++ bad :: after) = inr bad.
Proof.
  intros Hb Hbad. induction Hb as [|tok before [a Ha] _ IH]; simpl.
  - now rewrite Hbad.
  - now rewrite Ha, IH.
Qed.

Lemma first_invalid (toks : list gostring) :
  Exists (fun tok => exists err, ParseAddr tok = inr err) toks ->
  exists before bad after err,
    toks = before ++ bad :: after
    /\ Forall (fun tok => exists a, ParseAddr tok = inl a) before
    /\ ParseAddr bad = inr err.
Proof.
  induction toks as [|tok toks IH]; intros H; [inversion H|].
  destruct (ParseAddr tok) as [a|err] eqn:E.
  - assert (H' : Exists (fun tok => exists err, ParseAddr tok = inr err) toks).
    { inversion H as [? ? [e He]|]; subst; [congruence|assumption]. }
    destruct (IH H') as (before & bad & after & err & -> & Hb & Hbad).
    exists (tok :: before), bad, after, err. repeat split; auto.
    constructor; [now exists a|assumption].
  - exists [], tok, toks, err. repeat split; auto.
Qed.

Lemma parseAll_valid (toks : list gostring) (addrs : list netip.Addr) :
  Forall2 (fun tok a => ParseAddr tok = inl a) toks addrs ->
  parseAll ParseAddr toks = inl addrs.
Proof.
  induction 1 as [|tok a toks addrs Ha _ IH]; simpl; [reflexivity|].
  now rewrite Ha, IH.
Qed.

Lemma parseAll_length (toks : list gostring) (addrs : list netip.Addr) :
  parseAll ParseAddr toks = inl addrs -> length addrs = length toks.
Proof.
  revert addrs. induction toks as [|tok toks IH]; simpl; intros addrs H.
  - now inversion H.
  - destruct (ParseAddr tok); [|discriminate].
    destruct (parseAll ParseAddr toks) as [addrs'|]; [|discriminate].
    inversion H; subst. simpl. now rewrite (IH addrs').
Qed.

(** The loop ends with the entry for the token that is not an
    address. *)
Lemma parseLoop_invalid_log (c : Command) (ea : list gostring)
    (stdout : gostring) (settings : dynamicdns.IPSettings) (bad : gostring) :
  logger c <> None ->
  forall ipArr out log,
    parseAll ParseAddr
      (filter (fun tok => negb (isEmpty tok)) (map TrimSpace ipArr)) = inr bad ->
    exists log' err,
      ParseAddr bad = inr err
      /\ snd (parseLoop ParseAddr AddrString Contains c ea stdout settings
                ipArr out log)
         = log' ++ [invalidEntry c ea stdout bad err].
Proof.
  intros Hlg. destruct (logger c) as [lg|] eqn:El; [clear Hlg|congruence].
  induction ipArr as [|tok ipArr IH]; intros out log; simpl; [discriminate|].
  destruct (isEmpty (TrimSpace tok)) eqn:Ee; simpl; [apply IH|].
  destruct (ParseAddr (TrimSpace tok)) as [addr|err] eqn:Ep.
  - destruct (parseAll _ _) as [|bad'] eqn:Epa; [discriminate|].
    intros H; inversion H; subst bad'.
    destruct (dynamicdns.V4Enabled settings && netip.Is4 addr
              && Contains settings addr);
      [|destruct (dynamicdns.V6Enabled settings && netip.Is6 addr
                  && Contains settings addr)];
      unfold bind, write; rewrite ?El; apply IH; assumption.
  - intros H; inversion H; subst bad.
    exists log, err. split; [assumption|].
    unfold bind, write, ret. rewrite El. reflexivity.
Qed.


#[local] Abbreviation getIPs := (GetIPs ReplaceAll ParseAddr AddrString Contains).

(** C1.  When the command exits with code 0 and every token of its
    output is an address, [GetIPs] returns no error and exactly the
    parsed addresses whose family is enabled and which the range
    policy contains, in the order of the output (it is the parsed
    sequence filtered by [passes]); with IPv4 disabled no IPv4 address
    is returned, and with IPv6 disabled no IPv6 address. *)
Theorem GetIPs_filters_by_family_and_range
    (OS : exec.Cmd -> exec.Behaviour) (c : Command) (ctx : context.Context)
    (settings : dynamicdns.IPSettings) (stdout stderr : gostring)
    (addrs : list netip.Addr) :
  ready c = true ->
  OS (buildCmd ReplaceAll c ctx) = exec.Runs (Exited 0) stdout stderr ->
  parseAll ParseAddr (tokens stdout) = inl addrs ->
  exists out,
    fst (getIPs OS c ctx settings []) = Done (Some out, None)
    /\ out = filter (passes Contains settings) addrs
    /\ (forall a, In a out <->
                  In a addrs /\ familyEnabled settings a = true
                  /\ Contains settings a = true)
    /\ (dynamicdns.V4Enabled settings = false ->
        Forall (fun a => netip.Is4 a = false) out)
    /\ (dynamicdns.V6Enabled settings = false ->
        Forall (fun a => netip.Is6 a = false) out).
Proof.
  intros Hr Hos Hp. exists (filter (passes Contains settings) addrs).
  pose proof (GetIPs_result OS c ctx settings stdout stderr Hr Hos) as H.
  rewrite Hp in H. split; [exact H|split; [reflexivity|split; [|split]]].
  - intros a. rewrite filter_In. unfold passes. rewrite andb_true_iff. tauto.
  - intros Hv4. apply Forall_forall. intros a Ha.
    apply filter_In in Ha as [_ Ha]. unfold passes, familyEnabled in Ha.
    unfold netip.Is4. destruct (netip.z a); try reflexivity.
    rewrite Hv4 in Ha. discriminate.
  - intros Hv6. apply Forall_forall. intros a Ha.
    apply filter_In in Ha as [_ Ha]. unfold passes, familyEnabled in Ha.
    unfold netip.Is6. destruct (netip.z a); try reflexivity.
    rewrite Hv6 in Ha. discriminate.
Qed.

(** The run on a padded list of literals. *)
Lemma GetIPs_padded
    (OS : exec.Cmd -> exec.Behaviour) (c : Command) (ctx : context.Context)
    (settings : dynamicdns.IPSettings) (stderr w0 w1 : gostring)
    (ts : list (gostring * gostring * gostring)) (addrs : list netip.Addr) :
  ready c = true ->
  blank w0 -> blank w1 -> Forall goodToken ts ->
  Forall2 (fun t a => ParseAddr (literal t) = inl a) ts addrs ->
  OS (buildCmd ReplaceAll c ctx)
  = exec.Runs (Exited 0) (w0 ++ Join (map pad ts) ","%byte ++ w1) stderr ->
  parseAll ParseAddr (tokens (w0 ++ Join (map pad ts) ","%byte ++ w1))
  = inl addrs
  /\ fst (getIPs OS c ctx settings [])
     = Done (Some (filter (passes Contains settings) addrs), None).
Proof.
  intros Hr Hw0 Hw1 Hts Hp Hos.
  pose proof (tokens_padded w0 w1 ts Hw0 Hw1 Hts) as Ht.
  assert (Hpa : parseAll ParseAddr (map literal ts) = inl addrs).
  { apply parseAll_valid. clear - Hp. induction Hp; constructor; auto. }
  rewrite Ht. split; [assumption|].
  rewrite (GetIPs_result OS c ctx settings _ stderr Hr Hos).
  now rewrite Ht, Hpa.
Qed.

(** C2 (as amended).  Take literals that are not empty, contain no
    comma and neither start nor end with white space, each of which
    [ParseAddr] accepts; put any white space around each of them and
    around the whole text, and join them with commas.  Then the tokens
    that [GetIPs] parses are exactly the literals, parsing yields
    exactly their addresses in the original order, and the result
    does not depend on the white space. *)
Theorem padded_literals_parse_in_order
    (OS : exec.Cmd -> exec.Behaviour) (c : Command) (ctx : context.Context)
    (settings : dynamicdns.IPSettings) (stderr w0 w1 : gostring)
    (ts : list (gostring * gostring * gostring)) (addrs : list netip.Addr) :
  ready c = true ->
  blank w0 -> blank w1 -> Forall goodToken ts ->
  Forall2 (fun t a => ParseAddr (literal t) = inl a) ts addrs ->
  OS (buildCmd ReplaceAll c ctx)
  = exec.Runs (Exited 0) (w0 ++ Join (map pad ts) ","%byte ++ w1) stderr ->
  tokens (w0 ++ Join (map pad ts) ","%byte ++ w1) = map literal ts
  /\ parseAll ParseAddr (tokens (w0 ++ Join (map pad ts) ","%byte ++ w1))
     = inl addrs
  /\ length addrs = length ts
  /\ fst (getIPs OS c ctx settings [])
     = Done (Some (filter (passes Contains settings) addrs), None).
Proof.
  intros Hr Hw0 Hw1 Hts Hp Hos.
  destruct (GetIPs_padded OS c ctx settings stderr w0 w1 ts addrs
              Hr Hw0 Hw1 Hts Hp Hos) as [Hpa Hres].
  repeat split; auto.
  - now apply tokens_padded.
  - symmetry. apply (Forall2_length Hp).
Qed.

(** C3.  Parsing is all-or-nothing.  When some token of the output is
    not an address there is a first such token, [bad]; and when the
    tokens before [bad] are addresses and [bad] is not, [GetIPs] returns
    a nil slice and the one error "invalid IP: " followed by exactly
    that token, whatever comes before or after it; the last entry of
    the log is the one for that token. *)
Theorem GetIPs_fails_at_first_invalid_token
    (OS : exec.Cmd -> exec.Behaviour) (c : Command) (ctx : context.Context)
    (settings : dynamicdns.IPSettings) (stdout stderr : gostring) :
  ready c = true ->
  OS (buildCmd ReplaceAll c ctx) = exec.Runs (Exited 0) stdout stderr ->
  (Exists (fun tok => exists err, ParseAddr tok = inr err) (tokens stdout) ->
   exists before bad after err,
     tokens stdout = before ++ bad :: after
     /\ Forall (fun tok => exists a, ParseAddr tok = inl a) before
     /\ ParseAddr bad = inr err)
  /\ (forall before bad after err,
        tokens stdout = before ++ bad :: after ->
        Forall (fun tok => exists a, ParseAddr tok = inl a) before ->
        ParseAddr bad = inr err ->
        fst (getIPs OS c ctx settings [])
        = Done (None, Some (Errorf ("invalid IP: "%go ++ bad)))
        /\ Error (Errorf ("invalid IP: "%go ++ bad)) = "invalid IP: "%go ++ bad
        /\ exists log,
             snd (getIPs OS c ctx settings [])
             = log ++ [invalidEntry c (expandArgs ReplaceAll c) stdout bad err]).
Proof.
  intros Hr Hos. split; [apply first_invalid|].
  intros before bad after err Ht Hb Hbad.
  pose proof (parseAll_app_invalid before after bad err Hb Hbad) as Hpa.
  rewrite <- Ht in Hpa. split; [|split; [reflexivity|]].
  - rewrite (GetIPs_result OS c ctx settings stdout stderr Hr Hos).
    now rewrite Hpa.
  - rewrite (GetIPs_exit_zero OS c ctx settings stdout stderr Hr Hos).
    destruct (ready_inv c Hr) as (t & lg & Et & El).
    destruct (parseLoop_invalid_log c
                (expandArgs ReplaceAll c) stdout settings bad
                ltac:(congruence) (Split (TrimSpace stdout) ","%byte) []
                (runningEntry c (expandArgs ReplaceAll c) (timeoutOf c)
                 :: (if isEmpty stderr then [] else [stderrEntry c stderr]))
                Hpa)
      as (log & err' & Herr' & Hlog).
    exists log. rewrite Hlog. congruence.
Qed.

(** C4.  An output without non-empty tokens is not an error:
    [GetIPs] returns an empty (non-nil) slice and no error.  Empty
    output, white space only, and commas and white space only are such
    outputs. *)
Theorem GetIPs_without_tokens_returns_empty
    (OS : exec.Cmd -> exec.Behaviour) (c : Command) (ctx : context.Context)
    (settings : dynamicdns.IPSettings) (stdout stderr : gostring) :
  ready c = true ->
  OS (buildCmd ReplaceAll c ctx) = exec.Runs (Exited 0) stdout stderr ->
  (tokens stdout = [] ->
   fst (getIPs OS c ctx settings []) = Done (Some [], None))
  /\ (blank stdout ->
      fst (getIPs OS c ctx settings []) = Done (Some [], None))
  /\ (blankOrComma stdout ->
      fst (getIPs OS c ctx settings []) = Done (Some [], None)).
Proof.
  intros Hr Hos.
  assert (H : tokens stdout = [] ->
              fst (getIPs OS c ctx settings []) = Done (Some [], None)).
  { intros Ht.
    rewrite (GetIPs_result OS c ctx settings stdout stderr Hr Hos).
    now rewrite Ht. }
  repeat split; auto.
  - intros Hb. now apply H, tokens_blankOrComma, blank_blankOrComma.
  - intros Hb. now apply H, tokens_blankOrComma.
Qed.

(** C5.  A run that exits with code 0 and has written to its standard
    error returns what the same run without that output returns (the
    result of parsing and filtering its standard output); the only
    difference is one more entry, at warning level, in the log. *)
Theorem stderr_on_success_is_only_a_warning
    (OS OS' : exec.Cmd -> exec.Behaviour) (c : Command) (ctx : context.Context)
    (settings : dynamicdns.IPSettings) (stdout stderr : gostring) :
  ready c = true ->
  stderr <> [] ->
  OS (buildCmd ReplaceAll c ctx) = exec.Runs (Exited 0) stdout stderr ->
  OS' (buildCmd ReplaceAll c ctx) = exec.Runs (Exited 0) stdout [] ->
  fst (getIPs OS c ctx settings []) = fst (getIPs OS' c ctx settings [])
  /\ fst (getIPs OS c ctx settings [])
     = match parseAll ParseAddr (tokens stdout) with
       | inl addrs => Done (Some (filter (passes Contains settings) addrs), None)
       | inr bad => Done (None, Some (Errorf ("invalid IP: "%go ++ bad)))
       end
  /\ exists first rest,
       snd (getIPs OS' c ctx settings []) = first :: rest
       /\ snd (getIPs OS c ctx settings [])
          = first :: stderrEntry c stderr :: rest.
Proof.
  intros Hr Hne Hos Hos'.
  pose proof (GetIPs_result OS c ctx settings stdout stderr Hr Hos) as H.
  pose proof (GetIPs_result OS' c ctx settings stdout [] Hr Hos') as H'.
  split; [congruence|split; [exact H|]].
  rewrite (GetIPs_log OS c ctx settings stdout stderr Hr Hos).
  rewrite (GetIPs_log OS' c ctx settings stdout [] Hr Hos').
  destruct stderr as [|b stderr]; [congruence|]. simpl.
  eexists; eexists; split; reflexivity.
Qed.

(** C6.  What the code does when the process exits with a code other
    than 0: [cmd.Run()] returns an [*exec.ExitError], and [GetIPs]
    returns that error as it is, with a nil slice.  Its text is
    "exit status N"; it is not the error "command NAME exited with:
    N" that the branch on the exit code would build, and that branch
    is never taken: after [cmd.Run()] has returned no error the exit
    code is 0. *)
Theorem nonzero_exit_returns_the_exit_error
    (OS : exec.Cmd -> exec.Behaviour) (c : Command) (ctx : context.Context)
    (settings : dynamicdns.IPSettings) (code : Z) (stdout stderr : gostring) :
  ready c = true ->
  code <> 0 ->
  OS (buildCmd ReplaceAll c ctx) = exec.Runs (Exited code) stdout stderr ->
  fst (getIPs OS c ctx settings [])
  = Done (None, Some (ExitError (Exited code)))
  /\ Error (ExitError (Exited code)) = "exit status "%go ++ Itoa code
  /\ ExitError (Exited code)
     <> Errorf ("command "%go ++ Cmd c ++ " exited with: "%go ++ Itoa code)
  /\ (forall b : exec.Behaviour,
        exec.run_err (exec.Run b) = None ->
        os.ExitCode (exec.run_state (exec.Run b)) = 0).
Proof.
  intros Hr Hc Hos.
  split; [|split; [reflexivity|split; [discriminate|]]].
  - apply GetIPs_run_error; [assumption|]. rewrite Hos. simpl.
    apply Z.eqb_neq in Hc. now rewrite Hc.
  - exact Run_no_error_exit_zero.
Qed.

(** C8.  [Provision] returns no error and resolves the timeout: a nil
    or non-positive timeout becomes exactly 30 seconds
    (30000000000 ns); a positive one is kept.  The other configured
    fields are not changed. *)
Theorem Provision_resolves_timeout (c : Command) (ctx : CaddyContext) :
  snd (Provision c ctx) = None
  /\ (Timeout c = None ->
      Timeout (fst (Provision c ctx)) = Some (30 * Second))
  /\ (forall t, Timeout c = Some t -> t <= 0 ->
      Timeout (fst (Provision c ctx)) = Some (30 * Second))
  /\ (forall t, Timeout c = Some t -> 0 < t ->
      Timeout (fst (Provision c ctx)) = Some t)
  /\ 30 * Second = 30000000000
  /\ Cmd (fst (Provision c ctx)) = Cmd c
  /\ Args (fst (Provision c ctx)) = Args c
  /\ Dir (fst (Provision c ctx)) = Dir c.
Proof.
  unfold Provision. simpl.
  split; [reflexivity|]. split; [|split; [|split]].
  - intros ->. reflexivity.
  - intros t -> Ht. apply Z.leb_le in Ht. now rewrite Ht.
  - intros t -> Ht. apply Z.leb_gt in Ht. now rewrite Ht.
  - split; [reflexivity|].
    destruct (Timeout c) as [t|]; [destruct (t <=? 0)|]; auto.
Qed.

Lemma Provision_ready (c : Command) (cctx : CaddyContext) :
  ready (fst (Provision c cctx)) = true.
Proof.
  unfold Provision, ready. simpl.
  destruct (Timeout c) as [t|]; [destruct (t <=? 0)|]; reflexivity.
Qed.

(** C10.  After [Provision] the timeout is a non-nil pointer to a
    positive duration, and [GetIPs] on the provisioned command does not
    panic, whatever the command does.  With a nil timeout the branch
    that installs the timeout is skipped without harm, and [GetIPs]
    then panics on the dereference in its first log call, before
    anything is logged or run. *)
Theorem Provision_makes_Timeout_dereference_safe :
  (forall c cctx, exists t,
      Timeout (fst (Provision c cctx)) = Some t /\ 0 < t)
  /\ (forall OS c cctx ctx settings, exists r,
        fst (getIPs OS (fst (Provision c cctx)) ctx settings []) = Done r)
  /\ (forall OS name args dir lg ctx settings,
        let c := {| Cmd := name; Args := args; Dir := dir;
                    Timeout := None; logger := lg |} in
        commandContext c ctx = ctx
        /\ getIPs OS c ctx settings [] = (Panic nilDereference, [])).
Proof.
  split; [|split].
  - intros c cctx. unfold Provision. simpl.
    destruct (Timeout c) as [t|]; simpl.
    + destruct (t <=? 0) eqn:E; simpl.
      * exists (30 * Second). split; [reflexivity|reflexivity].
      * exists t. split; [reflexivity|]. now apply Z.leb_gt.
    + exists (30 * Second). split; reflexivity.
  - intros OS c cctx ctx settings.
    set (c' := fst (Provision c cctx)).
    pose proof (Provision_ready c cctx : ready c' = true) as Hr.
    destruct (OS (buildCmd ReplaceAll c' ctx))
      as [msg|[code|sig] stdout stderr] eqn:Hos.
    + exists (None, Some (StartError msg)).
      apply GetIPs_run_error; [assumption|]. now rewrite Hos.
    + destruct (code =? 0) eqn:E.
      * apply Z.eqb_eq in E. subst code.
        rewrite (GetIPs_result OS c' ctx settings stdout stderr Hr Hos).
        destruct (parseAll _ _); eexists; reflexivity.
      * exists (None, Some (ExitError (Exited code))).
        apply GetIPs_run_error; [assumption|]. rewrite Hos. simpl. now rewrite E.
    + exists (None, Some (ExitError (Signaled sig))).
      apply GetIPs_run_error; [assumption|]. now rewrite Hos.
  - intros OS name args dir lg ctx settings c. split; reflexivity.
Qed.

(** X1.  Whatever error [cmd.Run()] returns (the command cannot be
    started, it exits with a code other than 0, it is killed) is
    returned as it is, with a nil slice, after an entry at error level
    in the log; no token of the output is parsed. *)
Theorem run_error_is_returned
    (OS : exec.Cmd -> exec.Behaviour) (c : Command) (ctx : context.Context)
    (settings : dynamicdns.IPSettings) (err : error) :
  ready c = true ->
  exec.run_err (exec.Run (OS (buildCmd ReplaceAll c ctx))) = Some err ->
  getIPs OS c ctx settings []
  = (Done (None, Some err),
     [ runningEntry c (expandArgs ReplaceAll c) (timeoutOf c);
       failedEntry c (expandArgs ReplaceAll c)
         (exec.run_stdout (exec.Run (OS (buildCmd ReplaceAll c ctx))))
         (exec.run_stderr (exec.Run (OS (buildCmd ReplaceAll c ctx))))
         err ]).
Proof.
  intros Hr He. destruct (ready_inv c Hr) as (t & lg & Et & El).
  unfold GetIPs, timeoutOf. rewrite He, Et, El. reflexivity.
Qed.

End Properties.

(** ** Literals that [netip.ParseAddr] accepts *)

(** X2.  With [netip.ParseAddr], a list of IPv4 literals and of IPv6
    literals without a zone, joined with commas, with any white space
    around each literal and around the whole output, is parsed to
    exactly their addresses, in their order. *)
Theorem unzoned_literals_parse_in_order
    (ReplaceAll : gostring -> gostring -> gostring)
    (AddrString : netip.Addr -> gostring)
    (Contains : dynamicdns.IPSettings -> netip.Addr -> bool)
    (OS : exec.Cmd -> exec.Behaviour) (c : Command) (ctx : context.Context)
    (settings : dynamicdns.IPSettings) (stderr w0 w1 : gostring)
    (ts : list (gostring * gostring * gostring)) (addrs : list netip.Addr) :
  ready c = true ->
  blank w0 -> blank w1 ->
  Forall (fun t => blank (fst (padding t)) /\ blank (snd (padding t))) ts ->
  Forall2 (fun t a => netip.ParseAddr (literal t) = inl a /\ unzoned a = true)
    ts addrs ->
  OS (buildCmd ReplaceAll c ctx)
  = exec.Runs (Exited 0) (w0 ++ Join (map pad ts) ","%byte ++ w1) stderr ->
  tokens (w0 ++ Join (map pad ts) ","%byte ++ w1) = map literal ts
  /\ fst (GetIPs ReplaceAll netip.ParseAddr AddrString Contains OS c ctx
            settings [])
     = Done (Some (filter (passes Contains settings) addrs), None).
Proof.
  intros Hr Hw0 Hw1 Hpad Hp Hos.
  assert (Hts : Forall goodToken ts).
  { clear - Hpad Hp. induction Hp as [|[[l lit] r] a ts addrs [Ha Hu] _ IH];
      [constructor|].
    inversion Hpad as [|? ? [Hl Hrr] Hpad']; subst. constructor; [|auto].
    destruct (unzoned_literal_good lit a Ha Hu) as (Ht & Hne & Hc).
    simpl in Hl, Hrr. repeat split; auto; apply Ht. }
  assert (Hp' : Forall2 (fun t a => netip.ParseAddr (literal t) = inl a) ts addrs).
  { clear - Hp. induction Hp as [|t a ts addrs [Ha _] _ IH]; constructor; auto. }
  split; [now apply tokens_padded|].
  apply (GetIPs_padded ReplaceAll netip.ParseAddr AddrString Contains
           OS c ctx settings stderr w0 w1 ts addrs); assumption.
Qed.

(** ** The earlier version *)

(** X3.  The earlier [Provision] resolves the timeout in the same way: a
    non-positive timeout (also the zero value of an absent one)
    becomes 30 seconds, a positive one is kept. *)
Theorem Legacy_Provision_resolves_timeout (c : Legacy.Command)
    (ctx : CaddyContext) :
  snd (Legacy.Provision c ctx) = None
  /\ (Legacy.Timeout c <= 0 ->
      Legacy.Timeout (fst (Legacy.Provision c ctx)) = 30 * Second)
  /\ (0 < Legacy.Timeout c ->
      Legacy.Timeout (fst (Legacy.Provision c ctx)) = Legacy.Timeout c).
Proof.
  unfold Legacy.Provision. simpl. split; [reflexivity|split].
  - intros H. apply Z.leb_le in H. now rewrite H.
  - intros H. apply Z.leb_gt in H. now rewrite H.
Qed.

(** X4.  The earlier [GetIPs] treats any output on standard error as a
    failure, also when the exit code is 0: it returns the error
    "command NAME exited with: 0" and a nil slice. *)
Theorem Legacy_stderr_is_a_failure
    (ReplaceAll : gostring -> gostring -> gostring) (IP : Type)
    (ParseIP : gostring -> option IP) (IPString : IP -> gostring)
    (OS : exec.Cmd -> exec.Behaviour) (c : Legacy.Command)
    (ctx : context.Context) (stdout stderr : gostring) :
  Legacy.logger c <> None ->
  stderr <> [] ->
  OS (Legacy.buildCmd ReplaceAll c ctx) = exec.Runs (Exited 0) stdout stderr ->
  fst (Legacy.GetIPs ReplaceAll IP ParseIP IPString OS c ctx [])
  = Done (None,
          Some (Errorf ("command "%go ++ Legacy.Cmd c
                        ++ " exited with: 0"%go))).
Proof.
  intros Hlg Hne Hos. unfold Legacy.GetIPs. rewrite Hos.
  destruct (Legacy.logger c) as [lg|]; [|congruence].
  destruct stderr as [|b stderr]; [congruence|]. reflexivity.
Qed.

(** ** More on white space *)

Ltac rune1 :=
  match goal with
  | |- _ \/ (exists e x, _ /\ ?a :: ?s = e ++ x) =>
      right; exists [a], s; split; [simpl; tauto | reflexivity]
  end.
Ltac rune2 :=
  match goal with
  | |- _ \/ (exists e x, _ /\ ?a :: ?b :: ?s = e ++ x) =>
      right; exists [a; b], s; split; [simpl; tauto | reflexivity]
  end.
Ltac rune3 :=
  match goal with
  | |- _ \/ (exists e x, _ /\ ?a :: ?b :: ?c :: ?s = e ++ x) =>
      right; exists [a; b; c], s; split; [simpl; tauto | reflexivity]
  end.

Lemma TrimLeftSpace_cases (s : gostring) :
  TrimLeftSpace s = s \/ exists e x, In e spaceRunes /\ s = e ++ x.
Proof.
  destruct s as [|c s1]; [now left|].
  destruct c; try (left; reflexivity); try rune1;
    (destruct s1 as [|c2 s2]; [left; reflexivity|]);
    destruct c2; try (left; reflexivity); try rune2;
    (destruct s2 as [|c3 s3]; [left; reflexivity|]);
    destruct c3; try (left; reflexivity); rune3.
Qed.

Ltac runeRev1 :=
  match goal with
  | |- _ \/ (exists e x, _ /\ ?a :: ?s = rev e ++ x) =>
      right; exists [a], s; split; [simpl; tauto | reflexivity]
  end.
Ltac runeRev2 :=
  match goal with
  | |- _ \/ (exists e x, _ /\ ?a :: ?b :: ?s = rev e ++ x) =>
      right; exists [b; a], s; split; [simpl; tauto | reflexivity]
  end.
Ltac runeRev3 :=
  match goal with
  | |- _ \/ (exists e x, _ /\ ?a :: ?b :: ?c :: ?s = rev e ++ x) =>
      right; exists [c; b; a], s; split; [simpl; tauto | reflexivity]
  end.

Lemma trimLeftSpaceRev_cases (s : gostring) :
  trimLeftSpaceRev s = s \/ exists e x, In e spaceRunes /\ s = rev e ++ x.
Proof.
  destruct s as [|c s1]; [now left|].
  destruct c; try (left; reflexivity); try runeRev1;
    (destruct s1 as [|c2 s2]; [left; reflexivity|]);
    destruct c2; try (left; reflexivity); try runeRev2;
    (destruct s2 as [|c3 s3]; [left; reflexivity|]);
    destruct c3; try (left; reflexivity); runeRev3.
Qed.

Lemma rune_app_length (e x : gostring) :
  In e spaceRunes -> (length x < length (e ++ x))%nat.
Proof.
  intros He. pose proof (rune_not_nil e He) as Hn.
  rewrite length_app. destruct e; [congruence|simpl; lia].
Qed.

(** A string that the scan leaves as it is does not start with a
    white-space rune. *)
Lemma TrimLeftSpace_fixed_no_rune (e x : gostring) :
  In e spaceRunes -> TrimLeftSpace (e ++ x) <> e ++ x.
Proof.
  intros He. rewrite TrimLeftSpace_rune by assumption.
  apply TrimLeftSpace_shorter. now apply rune_app_length.
Qed.

Lemma trimLeftSpaceRev_fixed_no_rune (e x : gostring) :
  In e spaceRunes -> trimLeftSpaceRev (rev e ++ x) <> rev e ++ x.
Proof.
  intros He. rewrite trimLeftSpaceRev_rune by assumption.
  apply trimLeftSpaceRev_shorter. rewrite length_app, length_rev.
  pose proof (rune_not_nil e He). destruct e; [congruence|simpl; lia].
Qed.

Lemma TrimLeftSpace_decompose_lt (n : nat) :
  forall s, (length s < n)%nat ->
    TrimLeftSpace (TrimLeftSpace s) = TrimLeftSpace s
    /\ exists p, blank p /\ s = p ++ TrimLeftSpace s.
Proof.
  induction n as [|n IH]; intros s Hn; [lia|].
  destruct (TrimLeftSpace_cases s) as [E | (e & x & He & ->)].
  - rewrite !E. split; [reflexivity|]. exists []. split; [constructor|reflexivity].
  - pose proof (rune_app_length e x He) as Hl.
    rewrite TrimLeftSpace_rune by assumption.
    destruct (IH x ltac:(lia)) as [Hi (p & Hp & Hx)].
    split; [assumption|]. exists (e ++ p). split; [now constructor|].
    rewrite <- app_assoc. now rewrite <- Hx.
Qed.

Lemma TrimLeftSpace_idem (s : gostring) :
  TrimLeftSpace (TrimLeftSpace s) = TrimLeftSpace s.
Proof. apply (TrimLeftSpace_decompose_lt (S (length s))). lia. Qed.

Lemma TrimLeftSpace_decompose (s : gostring) :
  exists p, blank p /\ s = p ++ TrimLeftSpace s.
Proof. apply (TrimLeftSpace_decompose_lt (S (length s))). lia. Qed.

Lemma trimLeftSpaceRev_decompose_lt (n : nat) :
  forall s, (length s < n)%nat ->
    trimLeftSpaceRev (trimLeftSpaceRev s) = trimLeftSpaceRev s
    /\ exists q, blank q /\ s = rev q ++ trimLeftSpaceRev s.
Proof.
  induction n as [|n IH]; intros s Hn; [lia|].
  destruct (trimLeftSpaceRev_cases s) as [E | (e & x & He & ->)].
  - rewrite !E. split; [reflexivity|]. exists []. split; [constructor|reflexivity].
  - assert (Hl : (length x < length (rev e ++ x))%nat).
    { rewrite length_app, length_rev. pose proof (rune_not_nil e He).
      destruct e; [congruence|simpl; lia]. }
    rewrite trimLeftSpaceRev_rune by assumption.
    destruct (IH x ltac:(lia)) as [Hi (q & Hq & Hx)].
    split; [assumption|]. exists (q ++ e). split.
    + apply blank_app; [assumption|]. rewrite <- (app_nil_r e).
      constructor; [assumption|constructor].
    + rewrite rev_app_distr, <- app_assoc. now rewrite <- Hx.
Qed.

Lemma TrimRightSpace_idem (s : gostring) :
  TrimRightSpace (TrimRightSpace s) = TrimRightSpace s.
Proof.
  unfold TrimRightSpace. rewrite rev_involutive. f_equal.
  apply (trimLeftSpaceRev_decompose_lt (S (length (rev s)))). lia.
Qed.

Lemma TrimRightSpace_decompose (s : gostring) :
  exists q, blank q /\ s = TrimRightSpace s ++ q.
Proof.
  destruct (trimLeftSpaceRev_decompose_lt (S (length (rev s))) (rev s)
              ltac:(lia)) as [_ (q & Hq & E)].
  exists q. split; [assumption|]. unfold TrimRightSpace.
  apply (f_equal (@rev byte)) in E.
  now rewrite rev_involutive, rev_app_distr, rev_involutive in E.
Qed.

(** What [TrimSpace] returns neither starts nor ends with white
    space, and it is the string without white space at its two ends. *)
Lemma TrimSpace_trimmed (s : gostring) : trimmed (TrimSpace s).
Proof.
  unfold TrimSpace, trimmed. split; [|apply TrimRightSpace_idem].
  set (u := TrimLeftSpace s).
  assert (Hu : TrimLeftSpace u = u) by apply TrimLeftSpace_idem.
  destruct (TrimRightSpace_decompose u) as (q & Hq & Eu).
  destruct (TrimLeftSpace_cases (TrimRightSpace u)) as [E | (e & x & He & E)];
    [assumption|].
  exfalso. rewrite E, <- app_assoc in Eu. rewrite Eu in Hu.
  now apply (TrimLeftSpace_fixed_no_rune e (x ++ q)).
Qed.

Lemma TrimSpace_decompose (s : gostring) :
  exists p q, blank p /\ blank q /\ s = p ++ TrimSpace s ++ q.
Proof.
  destruct (TrimLeftSpace_decompose s) as (p & Hp & Es).
  destruct (TrimRightSpace_decompose (TrimLeftSpace s)) as (q & Hq & Eu).
  exists p, q. repeat split; auto. unfold TrimSpace. now rewrite <- Eu.
Qed.

Lemma TrimSpace_idem (s : gostring) : TrimSpace (TrimSpace s) = TrimSpace s.
Proof.
  destruct (TrimSpace_trimmed s) as [HL HR]. unfold TrimSpace at 1.
  now rewrite HL.
Qed.

Lemma TrimSpace_blank_app (p t : gostring) :
  blank p -> TrimSpace (p ++ t) = TrimSpace t.
Proof. intros Hp. unfold TrimSpace. now rewrite TrimLeftSpace_blank_app. Qed.

Lemma blank_startsClean (q : gostring) : blank q -> startsClean q = true.
Proof.
  intros Hq. rewrite <- (app_nil_r q). now apply startsClean_blank_app.
Qed.

Lemma TrimSpace_app_blank (t q : gostring) :
  blank q -> TrimSpace (t ++ q) = TrimSpace t.
Proof.
  intros Hq. destruct (TrimLeftSpace_decompose t) as (p & Hp & Et).
  pose proof (TrimLeftSpace_idem t) as Hi.
  unfold TrimSpace. destruct (TrimLeftSpace t) as [|c r] eqn:Er.
  - rewrite app_nil_r in Et. subst t.
    rewrite <- (app_nil_r (p ++ q)).
    rewrite TrimLeftSpace_blank_app by (now apply blank_app). reflexivity.
  - rewrite Et at 1. rewrite <- app_assoc.
    rewrite TrimLeftSpace_blank_app by assumption.
    rewrite TrimLeftSpace_boundary; auto; try discriminate.
    + now apply TrimRightSpace_app_blank.
    + now apply blank_startsClean.
Qed.

(** ** More on splitting *)

Lemma Split_app_sep_all (a b : gostring) (sep : byte) :
  Split (a ++ sep :: b) sep = Split a sep ++ Split b sep.
Proof.
  induction a as [|c a IH]; simpl.
  - now rewrite (Byte.byte_dec_lb (eq_refl sep)).
  - rewrite IH. destruct (Byte.eqb c sep); [reflexivity|].
    destruct (Split a sep) as [|t ts] eqn:E; [|reflexivity].
    now apply Split_not_nil in E.
Qed.

Lemma Split_tokens_no_sep (s : gostring) (sep : byte) :
  Forall (fun tok => ~ In sep tok) (Split s sep).
Proof.
  induction s as [|c s IH]; simpl; [repeat constructor; auto|].
  destruct (Byte.eqb c sep) eqn:E; [constructor; auto|].
  destruct (Split s sep) as [|t ts]; [repeat constructor|].
  - intros [H | []]. subst. now rewrite (Byte.byte_dec_lb eq_refl) in E.
  - inversion IH; subst. constructor; [|assumption].
    intros [H | H]; [|auto]. subst. now rewrite (Byte.byte_dec_lb eq_refl) in E.
Qed.

Lemma Join_Split (s : gostring) (sep : byte) : Join (Split s sep) sep = s.
Proof.
  induction s as [|c s IH]; [reflexivity|]. simpl.
  destruct (Split s sep) as [|t ts] eqn:Es; [now apply Split_not_nil in Es|].
  destruct (Byte.eqb c sep) eqn:E.
  - apply Byte.byte_dec_bl in E. subst c. simpl. f_equal. exact IH.
  - rewrite <- IH. destruct ts; reflexivity.
Qed.

Lemma Split_app_no_sep_r (x q : gostring) (sep : byte) :
  ~ In sep q -> Split (x ++ q) sep = appLast (Split x sep) q.
Proof.
  intros Hq. induction x as [|c x IH]; simpl.
  - now apply Split_no_sep.
  - rewrite IH. destruct (Byte.eqb c sep).
    + destruct (Split x sep) as [|t ts] eqn:E; [now apply Split_not_nil in E|].
      reflexivity.
    + destruct (Split x sep) as [|t ts] eqn:E; [now apply Split_not_nil in E|].
      destruct ts; reflexivity.
Qed.

Lemma map_TrimSpace_appLast (toks : list gostring) (q : gostring) :
  blank q -> map TrimSpace (appLast toks q) = map TrimSpace toks.
Proof.
  intros Hq. induction toks as [|t ts IH]; [reflexivity|].
  destruct ts as [|t2 ts].
  - simpl. now rewrite TrimSpace_app_blank.
  - change (appLast (t :: t2 :: ts) q) with (t :: appLast (t2 :: ts) q).
    rewrite !map_cons. now rewrite IH.
Qed.

Lemma map_TrimSpace_Split_blank_l (p x : gostring) :
  blank p ->
  map TrimSpace (Split (p ++ x) ","%byte) = map TrimSpace (Split x ","%byte).
Proof.
  intros Hp. rewrite Split_app_no_sep by (now apply blank_no_comma).
  destruct (Split x ","%byte) as [|t ts] eqn:E; [now apply Split_not_nil in E|].
  simpl. now rewrite TrimSpace_blank_app.
Qed.

Lemma map_TrimSpace_Split_blank_r (x q : gostring) :
  blank q ->
  map TrimSpace (Split (x ++ q) ","%byte) = map TrimSpace (Split x ","%byte).
Proof.
  intros Hq. rewrite Split_app_no_sep_r by (now apply blank_no_comma).
  now apply map_TrimSpace_appLast.
Qed.

(** Trimming the whole output first changes nothing: every token is
    trimmed after the split. *)
Lemma tokens_without_outer_trim (s : gostring) :
  tokens s
  = filter (fun tok => negb (isEmpty tok))
      (map TrimSpace (Split s ","%byte)).
Proof.
  unfold tokens. f_equal.
  destruct (TrimSpace_decompose s) as (p & q & Hp & Hq & E).
  rewrite E at 2.
  rewrite map_TrimSpace_Split_blank_l by assumption.
  now rewrite map_TrimSpace_Split_blank_r.
Qed.

Lemma tokens_app_comma (a b : gostring) :
  tokens (a ++ ","%byte :: b) = tokens a ++ tokens b.
Proof.
  rewrite !tokens_without_outer_trim, Split_app_sep_all, map_app.
  apply filter_app.
Qed.

Lemma TrimSpace_incl (s : gostring) (b : byte) :
  In b (TrimSpace s) -> In b s.
Proof.
  destruct (TrimSpace_decompose s) as (p & q & _ & _ & E). intros H.
  rewrite E, !in_app_iff. auto.
Qed.

Lemma tokens_wellformed (s : gostring) :
  Forall (fun tok => tok <> [] /\ trimmed tok /\ ~ In ","%byte tok) (tokens s).
Proof.
  rewrite tokens_without_outer_trim. apply Forall_forall. intros tok Hin.
  apply filter_In in Hin as [Hin Hne]. apply in_map_iff in Hin as (t & <- & Ht).
  repeat split.
  - intros E. rewrite E in Hne. discriminate.
  - apply TrimSpace_trimmed.
  - apply TrimSpace_trimmed.
  - intros Hc. apply TrimSpace_incl in Hc.
    pose proof (Split_tokens_no_sep s ","%byte) as Hall.
    rewrite Forall_forall in Hall. now apply (Hall t).
Qed.

(** ** More on the module *)

Section MoreProperties.

Variable ReplaceAll : gostring -> gostring -> gostring.
Variable ParseAddr : gostring -> netip.Addr + error.
Variable AddrString : netip.Addr -> gostring.
Variable Contains : dynamicdns.IPSettings -> netip.Addr -> bool.

#[local] Arguments passes : simpl never.
#[local] Abbreviation getIPs := (GetIPs ReplaceAll ParseAddr AddrString Contains).

Lemma parseAll_inl (toks : list gostring) (addrs : list netip.Addr) :
  parseAll ParseAddr toks = inl addrs ->
  Forall2 (fun tok a => ParseAddr tok = inl a) toks addrs.
Proof.
  revert addrs. induction toks as [|tok toks IH]; simpl; intros addrs H.
  - inversion H. constructor.
  - destruct (ParseAddr tok) as [a|] eqn:E; [|discriminate].
    destruct (parseAll ParseAddr toks) as [addrs'|]; [|discriminate].
    inversion H; subst. constructor; auto.
Qed.

Lemma parseAll_inr (toks : list gostring) (bad : gostring) :
  parseAll ParseAddr toks = inr bad ->
  In bad toks /\ exists err, ParseAddr bad = inr err.
Proof.
  induction toks as [|tok toks IH]; simpl; intros H; [discriminate|].
  destruct (ParseAddr tok) as [a|err] eqn:E.
  - destruct (parseAll ParseAddr toks) as [|bad']; [discriminate|].
    inversion H; subst. destruct (IH eq_refl) as [Hin He]. auto.
  - inversion H; subst. split; [now left|now exists err].
Qed.

Lemma parseAll_app (x y : list gostring) :
  parseAll ParseAddr (x ++ y)
  = match parseAll ParseAddr x with
    | inl a =>
        match parseAll ParseAddr y with
        | inl b => inl (a ++ b)
        | inr bad => inr bad
        end
    | inr bad => inr bad
    end.
Proof.
  induction x as [|tok x IH]; simpl.
  - now destruct (parseAll ParseAddr y).
  - destruct (ParseAddr tok); [|reflexivity]. rewrite IH.
    destruct (parseAll ParseAddr x); [|reflexivity].
    now destruct (parseAll ParseAddr y).
Qed.

(** When [cmd.Run()] returns no error the process has run and exited
    with code 0. *)
Lemma Run_no_error (b : exec.Behaviour) :
  exec.run_err (exec.Run b) = None ->
  b = exec.Runs (Exited 0) (exec.run_stdout (exec.Run b))
        (exec.run_stderr (exec.Run b)).
Proof.
  destruct b as [msg|state stdout stderr]; simpl; [discriminate|].
  destruct state as [code|sig]; simpl; [|discriminate].
  destruct (code =? 0) eqn:E; [|discriminate]. intros _.
  apply Z.eqb_eq in E. now subst.
Qed.

Lemma filter_passes_Forall (settings : dynamicdns.IPSettings)
    (toks : list gostring) (addrs : list netip.Addr) :
  Forall2 (fun tok a => ParseAddr tok = inl a) toks addrs ->
  Forall (fun a => passes Contains settings a = true
                   /\ exists tok, In tok toks /\ ParseAddr tok = inl a)
    (filter (passes Contains settings) addrs).
Proof.
  intros H. apply Forall_forall. intros a Ha.
  apply filter_In in Ha as [Hin Hp]. split; [assumption|].
  clear Hp. induction H as [|tok a' toks addrs Hpa _ IH]; [contradiction|].
  destruct Hin as [->|Hin].
  - exists tok. split; [now left|assumption].
  - destruct (IH Hin) as (t & Ht & Hpt). exists t. split; [now right|assumption].
Qed.

(** X5.  [GetIPs] on a provisioned command never panics and returns
    either addresses or an error, never both and never neither.  When
    it returns addresses, [cmd.Run()] has returned no error and every
    address is the parse of a token of the output and passes the
    filter.  When it returns an error, the error is the one of
    [cmd.Run()], or [cmd.Run()] has returned none and the error is
    "invalid IP: " followed by a token of the output that is not an
    address. *)
Theorem GetIPs_returns_addresses_or_an_error
    (OS : exec.Cmd -> exec.Behaviour) (c : Command) (ctx : context.Context)
    (settings : dynamicdns.IPSettings) :
  ready c = true ->
  (exists out,
      fst (getIPs OS c ctx settings []) = Done (Some out, None)
      /\ exec.run_err (exec.Run (OS (buildCmd ReplaceAll c ctx))) = None
      /\ Forall
           (fun a =>
              passes Contains settings a = true
              /\ exists tok,
                   In tok (tokens (exec.run_stdout
                                     (exec.Run (OS (buildCmd ReplaceAll c ctx)))))
                   /\ ParseAddr tok = inl a)
           out)
  \/ (exists err,
        fst (getIPs OS c ctx settings []) = Done (None, Some err)
        /\ (exec.run_err (exec.Run (OS (buildCmd ReplaceAll c ctx))) = Some err
            \/ exec.run_err (exec.Run (OS (buildCmd ReplaceAll c ctx))) = None
               /\ exists bad e,
                    In bad (tokens (exec.run_stdout
                                      (exec.Run (OS (buildCmd ReplaceAll c ctx)))))
                    /\ ParseAddr bad = inr e
                    /\ err = Errorf ("invalid IP: "%go ++ bad))).
Proof.
  intros Hr.
  destruct (exec.run_err (exec.Run (OS (buildCmd ReplaceAll c ctx))))
    as [err|] eqn:He.
  - right. exists err. split; [|now left].
    now apply GetIPs_run_error.
  - pose proof (Run_no_error _ He) as Hos.
    pose proof (GetIPs_result ReplaceAll ParseAddr AddrString Contains
                  OS c ctx settings _ _ Hr Hos) as H.
    destruct (parseAll ParseAddr _) as [addrs|bad] eqn:Ep.
    + left. exists (filter (passes Contains settings) addrs).
      split; [exact H|]. split; [reflexivity|].
      apply filter_passes_Forall. now apply parseAll_inl.
    + right. exists (Errorf ("invalid IP: "%go ++ bad)).
      split; [exact H|]. right. split; [reflexivity|].
      destruct (parseAll_inr _ _ Ep) as [Hin [e Hbad]].
      exists bad, e. auto.
Qed.

(** The log of a loop that finds only addresses: one entry for every
    address that passes. *)
Lemma parseLoop_success_log (c : Command) (ea : list gostring)
    (stdout : gostring) (settings : dynamicdns.IPSettings) :
  logger c <> None ->
  forall ipArr out log addrs,
    parseAll ParseAddr
      (filter (fun tok => negb (isEmpty tok)) (map TrimSpace ipArr))
    = inl addrs ->
    snd (parseLoop ParseAddr AddrString Contains c ea stdout settings
           ipArr out log)
    = log ++ map (parsedEntry AddrString c ea)
               (filter (passes Contains settings) addrs).
Proof.
  intros Hlg. destruct (logger c) as [lg|] eqn:El; [clear Hlg|congruence].
  induction ipArr as [|tok ipArr IH]; intros out log addrs; simpl.
  - intros H. inversion H. unfold ret. simpl. now rewrite app_nil_r.
  - destruct (isEmpty (TrimSpace tok)) eqn:Ee; simpl; [apply IH|].
    destruct (ParseAddr (TrimSpace tok)) as [addr|err] eqn:Ep; [|discriminate].
    destruct (parseAll _ _) as [addrs'|] eqn:Epa; [|discriminate].
    intros H; inversion H; subst addrs. clear H.
    pose proof (passes_code Contains settings addr) as Hp.
    simpl filter. rewrite <- Hp.
    unfold parsedEntry, netip.Is4, netip.Is6 in *.
    destruct (dynamicdns.V4Enabled settings
              && match netip.z addr with netip.z4 => true | _ => false end
              && Contains settings addr) eqn:E4.
    + unfold bind, write. rewrite El. rewrite (IH _ _ addrs' eq_refl).
      rewrite <- app_assoc. simpl.
      apply andb_true_iff in E4 as [E4 _]. apply andb_true_iff in E4 as [_ E4].
      now rewrite E4.
    + destruct (dynamicdns.V6Enabled settings
                && match netip.z addr with netip.z6 _ => true | _ => false end
                && Contains settings addr) eqn:E6.
      * unfold bind, write. rewrite El. rewrite (IH _ _ addrs' eq_refl).
        rewrite <- app_assoc. simpl.
        apply andb_true_iff in E6 as [E6 _]. apply andb_true_iff in E6 as [_ E6].
        destruct (netip.z addr); try discriminate. reflexivity.
      * apply (IH _ _ addrs' eq_refl).
Qed.

(** X6.  The log of a successful run: the entry "running command",
    the warning when the command has written to its standard error,
    and then one debug entry for every address that is returned, in
    the order of the result, whose message names the family of the
    address.  An address that the filter drops leaves no entry. *)
Theorem GetIPs_logs_every_returned_address
    (OS : exec.Cmd -> exec.Behaviour) (c : Command) (ctx : context.Context)
    (settings : dynamicdns.IPSettings) (stdout stderr : gostring)
    (addrs : list netip.Addr) :
  ready c = true ->
  OS (buildCmd ReplaceAll c ctx) = exec.Runs (Exited 0) stdout stderr ->
  parseAll ParseAddr (tokens stdout) = inl addrs ->
  getIPs OS c ctx settings []
  = (Done (Some (filter (passes Contains settings) addrs), None),
     runningEntry c (expandArgs ReplaceAll c) (timeoutOf c)
     :: (if isEmpty stderr then [] else [stderrEntry c stderr])
     ++ map (parsedEntry AddrString c (expandArgs ReplaceAll c))
          (filter (passes Contains settings) addrs)).
Proof.
  intros Hr Hos Hp.
  pose proof (GetIPs_result ReplaceAll ParseAddr AddrString Contains
                OS c ctx settings stdout stderr Hr Hos) as H1.
  pose proof (GetIPs_log ReplaceAll ParseAddr AddrString Contains
                OS c ctx settings stdout stderr Hr Hos) as H2.
  rewrite Hp in H1.
  destruct (ready_inv c Hr) as (t & lg & Et & El).
  rewrite (parseLoop_success_log c _ stdout settings ltac:(congruence)
             _ [] [] addrs Hp) in H2.
  destruct (getIPs OS c ctx settings []) as [r log]. simpl in H1, H2.
  now subst.
Qed.

(** The loop reads the parser at the trimmed tokens that are not
    empty. *)
Lemma parseLoop_ext (ParseAddr' : gostring -> netip.Addr + error)
    (c : Command) (ea : list gostring) (stdout : gostring)
    (settings : dynamicdns.IPSettings) :
  forall ipArr out log,
    Forall (fun tok => TrimSpace tok <> [] ->
                       ParseAddr' (TrimSpace tok) = ParseAddr (TrimSpace tok))
      ipArr ->
    parseLoop ParseAddr' AddrString Contains c ea stdout settings ipArr out log
    = parseLoop ParseAddr AddrString Contains c ea stdout settings ipArr out log.
Proof.
  induction ipArr as [|tok ipArr IH]; intros out log H; [reflexivity|].
  inversion H as [|? ? Htok Hrest]; subst. simpl.
  destruct (TrimSpace tok) as [|b t] eqn:Et; [now apply IH|].
  simpl isEmpty. cbv iota. rewrite Htok by discriminate.
  destruct (ParseAddr (b :: t)) as [addr|err]; [|reflexivity].
  destruct (dynamicdns.V4Enabled settings && netip.Is4 addr
            && Contains settings addr);
    [|destruct (dynamicdns.V6Enabled settings && netip.Is6 addr
                && Contains settings addr)];
    try (now apply IH);
    unfold bind, write; (destruct (logger c); [now apply IH|reflexivity]).
Qed.

(** X7.  [GetIPs] hands to the parser only texts that are not empty,
    hold no comma and neither start nor end with white space: with
    another parser that agrees with [ParseAddr] on these texts it
    returns the same and logs the same. *)
Theorem GetIPs_parses_only_clean_tokens
    (ParseAddr' : gostring -> netip.Addr + error)
    (OS : exec.Cmd -> exec.Behaviour) (c : Command) (ctx : context.Context)
    (settings : dynamicdns.IPSettings) (log : list zap.Entry) :
  (forall tok, tok <> [] -> trimmed tok -> ~ In ","%byte tok ->
               ParseAddr' tok = ParseAddr tok) ->
  GetIPs ReplaceAll ParseAddr' AddrString Contains OS c ctx settings log
  = getIPs OS c ctx settings log.
Proof.
  intros Hagree. unfold GetIPs.
  unfold bind. destruct (deref (Timeout c) log) as [[?|t] log1]; [reflexivity|].
  destruct (write _ _ _ _ log1) as [[?|?] log2]; [reflexivity|].
  destruct (exec.run_err _); [reflexivity|].
  destruct (negb _); [reflexivity|].
  match goal with
  | |- context [match ?m log2 with _ => _ end] =>
      destruct (m log2) as [[?|?] log3]; [reflexivity|]
  end.
  apply parseLoop_ext. apply Forall_forall. intros tok Hin Hne.
  apply Hagree; [assumption|apply TrimSpace_trimmed|].
  intros Hc. apply TrimSpace_incl in Hc.
  pose proof (Split_tokens_no_sep
                (TrimSpace (exec.run_stdout
                              (exec.Run (OS (buildCmd ReplaceAll c ctx)))))
                ","%byte) as Hall.
  rewrite Forall_forall in Hall. now apply (Hall tok).
Qed.

Lemma tokens_outer_blank (w0 s w1 : gostring) :
  blank w0 -> blank w1 -> tokens (w0 ++ s ++ w1) = tokens s.
Proof.
  intros H0 H1. rewrite !tokens_without_outer_trim. f_equal.
  rewrite map_TrimSpace_Split_blank_l by assumption.
  now apply map_TrimSpace_Split_blank_r.
Qed.

(** X8.  White space around the whole output is immaterial, whatever
    the output is: it does not change the tokens, so that the call
    returns the same addresses or the same error.  The tokens are those
    of the output split at the commas, trimmed, without the empty
    ones: trimming the whole output first changes nothing. *)
Theorem outer_white_space_is_immaterial
    (OS OS' : exec.Cmd -> exec.Behaviour) (c : Command) (ctx : context.Context)
    (settings : dynamicdns.IPSettings) (w0 s w1 stderr stderr' : gostring) :
  ready c = true ->
  blank w0 -> blank w1 ->
  OS (buildCmd ReplaceAll c ctx) = exec.Runs (Exited 0) (w0 ++ s ++ w1) stderr ->
  OS' (buildCmd ReplaceAll c ctx) = exec.Runs (Exited 0) s stderr' ->
  tokens (w0 ++ s ++ w1) = tokens s
  /\ tokens s
     = filter (fun tok => negb (isEmpty tok))
         (map TrimSpace (Split s ","%byte))
  /\ fst (getIPs OS c ctx settings []) = fst (getIPs OS' c ctx settings []).
Proof.
  intros Hr H0 H1 Hos Hos'.
  pose proof (tokens_outer_blank w0 s w1 H0 H1) as Ht.
  split; [exact Ht|]. split; [apply tokens_without_outer_trim|].
  rewrite (GetIPs_result ReplaceAll ParseAddr AddrString Contains
             OS c ctx settings _ _ Hr Hos).
  rewrite (GetIPs_result ReplaceAll ParseAddr AddrString Contains
             OS' c ctx settings _ _ Hr Hos').
  now rewrite Ht.
Qed.

(** X9.  The tokens of two outputs joined by a comma are the tokens
    of the first followed by those of the second.  The call on the
    joined output returns the addresses of the first followed by those
    of the second; when the call fails on the first output it fails
    with that error, and otherwise with the error of the second. *)
Theorem outputs_joined_by_a_comma_concatenate
    (OSa OSb OSab : exec.Cmd -> exec.Behaviour) (c : Command)
    (ctx : context.Context) (settings : dynamicdns.IPSettings)
    (a b ea eb eab : gostring) :
  ready c = true ->
  OSa (buildCmd ReplaceAll c ctx) = exec.Runs (Exited 0) a ea ->
  OSb (buildCmd ReplaceAll c ctx) = exec.Runs (Exited 0) b eb ->
  OSab (buildCmd ReplaceAll c ctx)
  = exec.Runs (Exited 0) (a ++ ","%byte :: b) eab ->
  tokens (a ++ ","%byte :: b) = tokens a ++ tokens b
  /\ fst (getIPs OSab c ctx settings [])
     = match fst (getIPs OSa c ctx settings []) with
       | Done (Some outa, None) =>
           match fst (getIPs OSb c ctx settings []) with
           | Done (Some outb, None) => Done (Some (outa ++ outb), None)
           | failure => failure
           end
       | failure => failure
       end.
Proof.
  intros Hr Ha Hb Hab.
  split; [apply tokens_app_comma|].
  rewrite (GetIPs_result ReplaceAll ParseAddr AddrString Contains
             OSa c ctx settings _ _ Hr Ha).
  rewrite (GetIPs_result ReplaceAll ParseAddr AddrString Contains
             OSb c ctx settings _ _ Hr Hb).
  rewrite (GetIPs_result ReplaceAll ParseAddr AddrString Contains
             OSab c ctx settings _ _ Hr Hab).
  rewrite tokens_app_comma, parseAll_app.
  destruct (parseAll ParseAddr (tokens a)) as [xa|]; [|reflexivity].
  destruct (parseAll ParseAddr (tokens b)) as [xb|]; [|reflexivity].
  now rewrite filter_app.
Qed.

(** X10.  The command of a provisioned module always runs under a
    deadline: [GetIPs] hands to [exec.CommandContext] a context that is
    done after the resolved timeout, which is positive, or when the
    context of the caller is done, whichever comes first. *)
Theorem provisioned_command_runs_under_its_timeout
    (c : Command) (cctx : CaddyContext) (ctx : context.Context) :
  exists t deadline,
    Timeout (fst (Provision c cctx)) = Some t
    /\ 0 < t
    /\ exec.Ctx (buildCmd ReplaceAll (fst (Provision c cctx)) ctx)
       = Some deadline
    /\ deadline = match ctx with
                  | None => t
                  | Some remaining => Z.min remaining t
                  end
    /\ deadline <= t
    /\ (forall remaining, ctx = Some remaining -> deadline <= remaining).
Proof.
  unfold Provision, buildCmd, commandContext. simpl.
  destruct (Timeout c) as [t|]; simpl.
  - destruct (t <=? 0) eqn:E; simpl.
    + exists (30 * Second), (match ctx with
                             | None => 30 * Second
                             | Some r => Z.min r (30 * Second)
                             end).
      destruct ctx as [r|]; simpl; repeat split; try lia;
        intros r' Hr'; inversion Hr'; subst; lia.
    + apply Z.leb_gt in E. pose proof E as E'. apply Z.ltb_lt in E'.
      rewrite E'.
      exists t, (match ctx with None => t | Some r => Z.min r t end).
      destruct ctx as [r|]; simpl; repeat split; try lia;
        intros r' Hr'; inversion Hr'; subst; lia.
  - exists (30 * Second), (match ctx with
                           | None => 30 * Second
                           | Some r => Z.min r (30 * Second)
                           end).
    destruct ctx as [r|]; simpl; repeat split; try lia;
      intros r' Hr'; inversion Hr'; subst; lia.
Qed.

(** X11.  The settings decide which addresses are returned, never
    whether the call fails: an error returned with some settings is
    returned with any other settings. *)
Theorem errors_do_not_depend_on_the_settings
    (OS : exec.Cmd -> exec.Behaviour) (c : Command) (ctx : context.Context)
    (settings settings' : dynamicdns.IPSettings) (err : error) :
  ready c = true ->
  fst (getIPs OS c ctx settings [])
  = Done (None, Some err) ->
  fst (getIPs OS c ctx settings' [])
  = Done (None, Some err).
Proof.
  intros Hr H.
  destruct (exec.run_err (exec.Run (OS (buildCmd ReplaceAll c ctx))))
    as [e|] eqn:He.
  - rewrite (GetIPs_run_error ReplaceAll ParseAddr AddrString Contains
               OS c ctx settings e Hr He) in H.
    rewrite (GetIPs_run_error ReplaceAll ParseAddr AddrString Contains
               OS c ctx settings' e Hr He). exact H.
  - pose proof (Run_no_error _ He) as Hos.
    rewrite (GetIPs_result ReplaceAll ParseAddr AddrString Contains
               OS c ctx settings _ _ Hr Hos) in H.
    rewrite (GetIPs_result ReplaceAll ParseAddr AddrString Contains
               OS c ctx settings' _ _ Hr Hos).
    destruct (parseAll ParseAddr _); [discriminate|exact H].
Qed.

End MoreProperties.

(** X12.  [Provision] is idempotent: on a provisioned command, in the
    same context, it changes nothing; in another context it gives the
    command that provisioning in that context alone gives. *)
Theorem Provision_is_idempotent (c : Command) (cctx cctx' : CaddyContext) :
  Provision (fst (Provision c cctx)) cctx = Provision c cctx
  /\ fst (Provision (fst (Provision c cctx)) cctx')
     = fst (Provision c cctx').
Proof.
  unfold Provision. simpl.
  destruct (Timeout c) as [t|]; simpl; [|split; reflexivity].
  destruct (t <=? 0) eqn:E; simpl; [split; reflexivity|].
  rewrite E. split; reflexivity.
Qed.

(** X13.  [setupCommand] of the tests makes a command ready to run.
    It sets what [Provision] sets when the timeout is nil or positive.
    It keeps a timeout that is not positive, where [Provision] sets 30
    seconds, and [GetIPs] then runs the command in the context of the
    caller, with no deadline of its own. *)
Theorem setupCommand_keeps_a_non_positive_timeout
    (ReplaceAll : gostring -> gostring -> gostring)
    (lg : zap.Logger) (cmd : Command) (ctx : context.Context) :
  ready (setupCommand lg cmd) = true
  /\ ((Timeout cmd = None \/ exists t, Timeout cmd = Some t /\ 0 < t) ->
      setupCommand lg cmd = fst (Provision cmd {| Logger := lg |}))
  /\ (forall t, Timeout cmd = Some t -> t <= 0 ->
      Timeout (setupCommand lg cmd) = Some t
      /\ exec.Ctx (buildCmd ReplaceAll (setupCommand lg cmd) ctx) = ctx).
Proof.
  unfold setupCommand, Provision, ready, buildCmd, commandContext. simpl.
  destruct (Timeout cmd) as [t|] eqn:Et; simpl.
  - rewrite ?Et. split; [reflexivity|]. split.
    + intros [H|[t' [H Hpos]]]; [discriminate|]. inversion H; subst t'.
      apply Z.leb_gt in Hpos. now rewrite Hpos.
    + intros t' H Hle. inversion H; subst t'. split; [reflexivity|].
      simpl. rewrite ?Et. apply Z.ltb_ge in Hle. now rewrite Hle.
  - split; [reflexivity|]. split; [reflexivity|]. intros t H. discriminate.
Qed.

(** ** The Caddyfile *)

Lemma gostring_eqb_eq (a b : gostring) : gostring_eqb a b = true <-> a = b.
Proof.
  unfold gostring_eqb. destruct (list_eq_dec byte_eq_dec a b);
    split; auto; discriminate.
Qed.

Lemma gostring_eqb_neq (a b : gostring) : gostring_eqb a b = false <-> a <> b.
Proof.
  unfold gostring_eqb. destruct (list_eq_dec byte_eq_dec a b);
    split; auto; try discriminate. intros H. contradiction.
Qed.

Lemma skipn_cons_nth {A : Type} (l : list A) (n : nat) (a d : A) (r : list A) :
  skipn n l = a :: r -> nth n l d = a /\ skipn (S n) l = r /\ (n < length l)%nat.
Proof.
  revert n. induction l as [|x l IH]; intros n H.
  - destruct n; discriminate.
  - destruct n as [|n]; simpl in H.
    + inversion H; subst. simpl. repeat split. lia.
    + destruct (IH n H) as (H1 & H2 & H3). simpl. repeat split; auto. lia.
Qed.

Section Dispenser.

Variable isNextOnNewLine : caddyfile.Token -> caddyfile.Token -> bool.

Lemma Val_at (toks : list caddyfile.Token) (n : nat) (cur : caddyfile.Token)
    (rest : list caddyfile.Token) :
  skipn n toks = cur :: rest ->
  caddyfile.Val (atToken toks n) = caddyfile.Text cur.
Proof.
  intros H. destruct (skipn_cons_nth toks n cur caddyfile.emptyToken rest H)
    as (Hn & _ & Hl).
  unfold caddyfile.Val, caddyfile.len, caddyfile.index, atToken. simpl.
  replace (Z.of_nat n <? 0) with false by (symmetry; apply Z.ltb_ge; lia).
  replace (Z.of_nat (length toks) <=? Z.of_nat n) with false
    by (symmetry; apply Z.leb_gt; lia).
  simpl. now rewrite Nat2Z.id, Hn.
Qed.

Lemma Next_at (toks : list caddyfile.Token) (n : nat)
    (cur t : caddyfile.Token) (rest : list caddyfile.Token) :
  skipn n toks = cur :: t :: rest ->
  caddyfile.Next (atToken toks n) = (true, atToken toks (S n)).
Proof.
  intros H. destruct (skipn_cons_nth toks n cur cur _ H) as (_ & H1 & _).
  destruct (skipn_cons_nth toks (S n) t t _ H1) as (_ & _ & Hl).
  unfold caddyfile.Next, caddyfile.len, caddyfile.withCursor, atToken. simpl.
  replace (Z.of_nat n <? Z.of_nat (length toks) - 1) with true
    by (symmetry; apply Z.ltb_lt; lia).
  repeat f_equal. lia.
Qed.

Lemma Next_at_end (toks : list caddyfile.Token) (n : nat)
    (cur : caddyfile.Token) :
  skipn n toks = [cur] ->
  caddyfile.Next (atToken toks n) = (false, atToken toks n).
Proof.
  intros H. 
  assert (Hl : length toks = S n).
  { pose proof (f_equal (@length _) H) as E. rewrite length_skipn in E.
    simpl in E. lia. }
  unfold caddyfile.Next, caddyfile.len, atToken. simpl.
  replace (Z.of_nat n <? Z.of_nat (length toks) - 1) with false
    by (symmetry; apply Z.ltb_ge; lia).
  reflexivity.
Qed.

Lemma Next_new (t : caddyfile.Token) (rest : list caddyfile.Token) :
  caddyfile.Next (caddyfile.NewDispenser (t :: rest)) = (true, atToken (t :: rest) 0).
Proof.
  unfold caddyfile.Next, caddyfile.len, caddyfile.NewDispenser.
  cbn [caddyfile.cursor caddyfile.tokens].
  destruct (Z.ltb_spec (-1) (Z.of_nat (length (t :: rest)) - 1)) as [_|H];
    [reflexivity|]. simpl length in H. lia.
Qed.

Lemma NextArg_at (toks : list caddyfile.Token) (n : nat)
    (cur t : caddyfile.Token) (rest : list caddyfile.Token) :
  skipn n toks = cur :: t :: rest ->
  isNextOnNewLine cur t = false ->
  caddyfile.Text t <> "{"%go ->
  caddyfile.NextArg isNextOnNewLine (atToken toks n) = (true, atToken toks (S n)).
Proof.
  intros H Hline Hbrace.
  destruct (skipn_cons_nth toks n cur caddyfile.emptyToken _ H) as (Hc & H1 & _).
  destruct (skipn_cons_nth toks (S n) t caddyfile.emptyToken _ H1) as (Ht & _ & Hl).
  unfold caddyfile.NextArg, caddyfile.nextOnSameLine, caddyfile.len,
    caddyfile.index.
  change (caddyfile.cursor (atToken toks n)) with (Z.of_nat n).
  change (caddyfile.tokens (atToken toks n)) with toks.
  replace (Z.of_nat n <? 0) with false by (symmetry; apply Z.ltb_ge; lia).
  replace (Z.of_nat (length toks) - 1 <=? Z.of_nat n) with false
    by (symmetry; apply Z.leb_gt; lia).
  replace (Z.to_nat (Z.of_nat n + 1)) with (S n) by lia.
  rewrite Nat2Z.id, Hc, Ht, Hline. simpl negb. cbv iota.
  replace (caddyfile.withCursor (atToken toks n) (Z.of_nat n + 1)) with (atToken toks (S n))
    by (unfold caddyfile.withCursor, atToken; simpl; f_equal; lia).
  rewrite (Val_at toks (S n) t rest H1).
  apply gostring_eqb_neq in Hbrace. now rewrite Hbrace.
Qed.

Lemma NextArg_at_end (toks : list caddyfile.Token) (n : nat)
    (cur : caddyfile.Token) (rest : list caddyfile.Token) :
  skipn n toks = cur :: rest ->
  lineEnds isNextOnNewLine cur rest = true ->
  caddyfile.NextArg isNextOnNewLine (atToken toks n) = (false, atToken toks n).
Proof.
  intros H Hend.
  destruct (skipn_cons_nth toks n cur caddyfile.emptyToken _ H) as (Hc & H1 & Hl).
  unfold caddyfile.NextArg, caddyfile.nextOnSameLine, caddyfile.len,
    caddyfile.index.
  change (caddyfile.cursor (atToken toks n)) with (Z.of_nat n).
  change (caddyfile.tokens (atToken toks n)) with toks.
  replace (Z.of_nat n <? 0) with false by (symmetry; apply Z.ltb_ge; lia).
  destruct rest as [|t rest].
  - assert (Hlen : length toks = S n).
    { pose proof (f_equal (@length _) H) as E. rewrite length_skipn in E.
      simpl in E. lia. }
    replace (Z.of_nat (length toks) - 1 <=? Z.of_nat n) with true
      by (symmetry; apply Z.leb_le; lia).
    reflexivity.
  - destruct (skipn_cons_nth toks (S n) t caddyfile.emptyToken _ H1)
      as (Ht & _ & Hl2).
    replace (Z.of_nat (length toks) - 1 <=? Z.of_nat n) with false
      by (symmetry; apply Z.leb_gt; lia).
    replace (Z.to_nat (Z.of_nat n + 1)) with (S n) by lia.
    rewrite Nat2Z.id, Hc, Ht. simpl in Hend.
    destruct (isNextOnNewLine cur t); [reflexivity|]. simpl in Hend.
    simpl negb. cbv iota.
    replace (caddyfile.withCursor (atToken toks n) (Z.of_nat n + 1)) with (atToken toks (S n))
      by (unfold caddyfile.withCursor, atToken; simpl; f_equal; lia).
    rewrite (Val_at toks (S n) t rest H1), Hend.
    unfold caddyfile.withCursor, atToken.
    cbn [caddyfile.tokens caddyfile.cursor].
    replace (Z.of_nat (S n) - 1) with (Z.of_nat n) by lia. reflexivity.
Qed.

End Dispenser.

Section UnmarshalLoop.

Variable isNextOnNewLine : caddyfile.Token -> caddyfile.Token -> bool.
Variable ArgErr : caddyfile.Dispenser -> error.

Lemma atToken_beforeToken (toks : list caddyfile.Token) (n : nat) :
  atToken toks n = beforeToken toks (S n).
Proof. unfold atToken, beforeToken. f_equal. lia. Qed.

Lemma Next_before (toks : list caddyfile.Token) (k : nat)
    (t : caddyfile.Token) (rest : list caddyfile.Token) :
  skipn k toks = t :: rest ->
  caddyfile.Next (beforeToken toks k) = (true, atToken toks k).
Proof.
  intros H. destruct (skipn_cons_nth toks k t t rest H) as (_ & _ & Hl).
  unfold caddyfile.Next, caddyfile.len, caddyfile.withCursor, beforeToken, atToken.
  cbn [caddyfile.cursor caddyfile.tokens].
  destruct (Z.ltb_spec (Z.of_nat k - 1) (Z.of_nat (length toks) - 1));
    [|lia].
  do 2 f_equal. lia.
Qed.

Lemma Next_before_end (toks : list caddyfile.Token) :
  caddyfile.Next (beforeToken toks (length toks)) = (false, beforeToken toks (length toks)).
Proof.
  unfold caddyfile.Next, caddyfile.len, beforeToken.
  cbn [caddyfile.cursor caddyfile.tokens].
  now rewrite Z.ltb_irrefl.
Qed.

Lemma last_cons_default {A : Type} (l : list A) (a d : A) :
  last (a :: l) d = last l a.
Proof.
  revert a d. induction l as [|b l IH]; intros a d; [reflexivity|].
  change (last (a :: b :: l) d) with (last (b :: l) d).
  now rewrite (IH b d), (IH b a).
Qed.

Lemma remainingArgsLoop_line (args : list caddyfile.Token) :
  forall fuel toks n cur post acc,
    skipn n toks = cur :: args ++ post ->
    continues isNextOnNewLine cur args = true ->
    lineEnds isNextOnNewLine (last args cur) post = true ->
    (length args < fuel)%nat ->
    caddyfile.remainingArgsLoop isNextOnNewLine fuel (atToken toks n) acc
    = Some (acc ++ map caddyfile.Text args, atToken toks (n + length args)).
Proof.
  induction args as [|t args IH]; intros fuel toks n cur post acc Hs Hc He Hf;
    (destruct fuel as [|fuel]; [simpl in Hf; lia|]); simpl.
  - rewrite (NextArg_at_end isNextOnNewLine toks n cur post Hs He).
    now rewrite app_nil_r, Nat.add_0_r.
  - simpl in Hc. apply andb_true_iff in Hc as [Hc Hrest].
    apply andb_true_iff in Hc as [Hline Hbrace].
    apply negb_true_iff in Hline, Hbrace. apply gostring_eqb_neq in Hbrace.
    rewrite (NextArg_at isNextOnNewLine toks n cur t (args ++ post) Hs Hline Hbrace).
    destruct (skipn_cons_nth toks n cur cur _ Hs) as (_ & Hs' & _).
    rewrite (Val_at toks (S n) t (args ++ post) Hs').
    rewrite (IH fuel toks (S n) t post (acc ++ [caddyfile.Text t]) Hs' Hrest).
    + rewrite <- app_assoc.
      replace (n + S (length args))%nat with (S n + length args)%nat by lia.
      reflexivity.
    + rewrite <- (last_cons_default args t cur). exact He.
    + simpl in Hf. lia.
Qed.

Lemma skipn_app_exact {A : Type} (l : list A) (k : nat) (a b : list A) :
  skipn k l = a ++ b -> skipn (k + length a) l = b.
Proof.
  intros H.
  rewrite Nat.add_comm, <- skipn_skipn, H, skipn_app, skipn_all, Nat.sub_diag.
  reflexivity.
Qed.

(** One round of the loop for every directive. *)
Lemma unmarshalLoop_directives (ls : list directive) :
  forall fuel toks k c following,
    skipn k toks = flat_map directiveTokens ls ++ following ->
    directives isNextOnNewLine ls following ->
    unmarshalLoop isNextOnNewLine ArgErr (length ls + fuel) c (beforeToken toks k)
    = unmarshalLoop isNextOnNewLine ArgErr fuel (setCommands ls c)
        (beforeToken toks (k + length (flat_map directiveTokens ls))).
Proof.
  induction ls as [|[[name prog] args] ls IH];
    intros fuel toks k c following Hs Hd.
  - simpl. now rewrite Nat.add_0_r.
  - destruct Hd as (Hc & He & Hd).
    cbn [flat_map directiveTokens app] in Hs. rewrite <- app_assoc in Hs.
    cbn [length Nat.add unmarshalLoop].
    rewrite (Next_before toks k name _ Hs). cbn [negb].
    simpl in Hc. apply andb_true_iff in Hc as [Hc Hrest].
    apply andb_true_iff in Hc as [Hline Hbrace].
    apply negb_true_iff in Hline, Hbrace. apply gostring_eqb_neq in Hbrace.
    rewrite (NextArg_at isNextOnNewLine toks k name prog _ Hs Hline Hbrace).
    cbn [negb].
    destruct (skipn_cons_nth toks k name name _ Hs) as (_ & Hs' & _).
    destruct (skipn_cons_nth toks (S k) prog prog _ Hs') as (_ & Hs'' & _).
    unfold caddyfile.RemainingArgs.
    cbn [caddyfile.tokens atToken].
    rewrite (remainingArgsLoop_line args _ toks (S k) prog
               (flat_map directiveTokens ls ++ following) [] Hs' Hrest He).
    + rewrite (Val_at toks (S k) prog _ Hs'). rewrite atToken_beforeToken.
      pose proof (skipn_app_exact toks (S (S k)) args _ Hs'') as Hs3.
      rewrite (IH fuel toks (S (S k + length args)) _ following).
      * cbn [flat_map directiveTokens app length setCommands fold_left setCommand
               Cmd Args Dir Timeout logger app].
        do 2 f_equal. rewrite length_app. lia.
      * replace (S (S k + length args)) with (S (S k) + length args)%nat by lia.
        exact Hs3.
      * exact Hd.
    + pose proof (f_equal (@length _) Hs'') as E.
      rewrite length_skipn, length_app in E. lia.
Qed.

Lemma directives_length (ls : list directive) :
  (2 * length ls <= length (flat_map directiveTokens ls))%nat.
Proof.
  induction ls as [|[[name prog] args] ls IH]; simpl; [lia|].
  rewrite length_app. lia.
Qed.

Lemma UnmarshalCaddyfile_directives_then (ls : list directive)
    (following : list caddyfile.Token) (c : Command) :
  directives isNextOnNewLine ls following ->
  exists fuel,
    UnmarshalCaddyfile isNextOnNewLine ArgErr c
      (caddyfile.NewDispenser (flat_map directiveTokens ls ++ following))
    = unmarshalLoop isNextOnNewLine ArgErr (S fuel) (setCommands ls c)
        (beforeToken (flat_map directiveTokens ls ++ following)
           (length (flat_map directiveTokens ls))).
Proof.
  intros Hd. set (toks := flat_map directiveTokens ls ++ following).
  exists (S (length toks) - length ls)%nat.
  unfold UnmarshalCaddyfile. cbn [caddyfile.tokens caddyfile.NewDispenser].
  fold toks.
  assert (Hl : (2 * length ls <= length toks)%nat).
  { unfold toks. rewrite length_app. pose proof (directives_length ls). lia. }
  replace (S (S (length toks)))
    with (length ls + S (S (length toks) - length ls))%nat by lia.
  change (caddyfile.NewDispenser toks) with (beforeToken toks 0).
  rewrite (unmarshalLoop_directives ls _ toks 0 c following eq_refl Hd).
  reflexivity.
Qed.

End UnmarshalLoop.

Section UnmarshalProperties.

Variable isNextOnNewLine : caddyfile.Token -> caddyfile.Token -> bool.
Variable ArgErr : caddyfile.Dispenser -> error.

Lemma setCommands_keeps (ls : list directive) (c : Command) :
  Dir (setCommands ls c) = Dir c
  /\ Timeout (setCommands ls c) = Timeout c
  /\ logger (setCommands ls c) = logger c.
Proof.
  revert c. induction ls as [|[[name prog] args] ls IH]; intros c;
    [repeat split|].
  change (setCommands ((name, prog, args) :: ls) c)
    with (setCommands ls (setCommand (name, prog, args) c)).
  destruct (IH (setCommand (name, prog, args) c)) as (H1 & H2 & H3).
  rewrite H1, H2, H3. repeat split.
Qed.

Lemma setCommands_last (ls : list directive) (l : directive) (c : Command) :
  setCommands (ls ++ [l]) c = setCommand l c.
Proof.
  unfold setCommands. rewrite fold_left_app. simpl.
  fold (setCommands ls c).
  destruct (setCommands_keeps ls c) as (H1 & H2 & H3).
  destruct l as [[name prog] args]. unfold setCommand.
  now rewrite H1, H2, H3.
Qed.

(** X14.  On a sequence of directives that stand each on a line of
    its own, [UnmarshalCaddyfile] returns no error and reads every
    token.  The last directive wins: the second token of its line is
    the command and the tokens after it are the arguments, whatever
    the lines before it hold; the directory, the timeout and the
    logger are kept. *)
Theorem UnmarshalCaddyfile_last_directive_wins
    (ls : list directive) (name prog : caddyfile.Token)
    (args : list caddyfile.Token) (c : Command) :
  directives isNextOnNewLine (ls ++ [(name, prog, args)]) [] ->
  UnmarshalCaddyfile isNextOnNewLine ArgErr c
    (caddyfile.NewDispenser
       (flat_map directiveTokens (ls ++ [(name, prog, args)])))
  = Some ({| Cmd := caddyfile.Text prog;
             Args := map caddyfile.Text args;
             Dir := Dir c; Timeout := Timeout c; logger := logger c |},
          {| caddyfile.tokens :=
               flat_map directiveTokens (ls ++ [(name, prog, args)]);
             caddyfile.cursor :=
               caddyfile.len
                 (caddyfile.NewDispenser
                    (flat_map directiveTokens (ls ++ [(name, prog, args)])))
               - 1 |},
          None).
Proof.
  intros Hd.
  destruct (UnmarshalCaddyfile_directives_then isNextOnNewLine ArgErr
              _ [] c Hd) as [fuel H].
  rewrite app_nil_r in H. rewrite H.
  cbn [unmarshalLoop]. rewrite Next_before_end. cbn [negb].
  now rewrite setCommands_last.
Qed.

(** X15.  A directive whose name is followed by no argument on its
    line (the tokens end, the next token stands on another line or
    opens a block) makes [UnmarshalCaddyfile] return the error
    [ArgErr] with the cursor at that name, after the lines before
    it have been read; the tokens after it are not read.  The command
    is then left as the lines before it have set it: as the last of
    them says, if there is one. *)
Theorem UnmarshalCaddyfile_missing_argument
    (ls : list directive) (name : caddyfile.Token)
    (post : list caddyfile.Token) (c : Command) :
  directives isNextOnNewLine ls (name :: post) ->
  lineEnds isNextOnNewLine name post = true ->
  UnmarshalCaddyfile isNextOnNewLine ArgErr c
    (caddyfile.NewDispenser (flat_map directiveTokens ls ++ name :: post))
  = Some (setCommands ls c,
          atToken (flat_map directiveTokens ls ++ name :: post)
            (length (flat_map directiveTokens ls)),
          Some (ArgErr
                  (atToken (flat_map directiveTokens ls ++ name :: post)
                     (length (flat_map directiveTokens ls)))))
  /\ caddyfile.Val
       (atToken (flat_map directiveTokens ls ++ name :: post)
          (length (flat_map directiveTokens ls)))
     = caddyfile.Text name
  /\ Dir (setCommands ls c) = Dir c
  /\ Timeout (setCommands ls c) = Timeout c
  /\ logger (setCommands ls c) = logger c
  /\ (forall ls' l, ls = ls' ++ [l] -> setCommands ls c = setCommand l c).
Proof.
  intros Hd He. set (toks := flat_map directiveTokens ls ++ name :: post).
  destruct (UnmarshalCaddyfile_directives_then isNextOnNewLine ArgErr
              _ (name :: post) c Hd) as [fuel H].
  fold toks in H.
  assert (Hs : skipn (length (flat_map directiveTokens ls)) toks = name :: post).
  { apply (skipn_app_exact toks 0 (flat_map directiveTokens ls)). reflexivity. }
  split; [|split].
  - rewrite H. cbn [unmarshalLoop].
    rewrite (Next_before toks _ name post Hs). cbn [negb].
    rewrite (NextArg_at_end isNextOnNewLine toks _ name post Hs He).
    reflexivity.
  - apply (Val_at toks _ name post Hs).
  - destruct (setCommands_keeps ls c) as (H1 & H2 & H3).
    repeat split; auto. intros ls' l ->. apply setCommands_last.
Qed.

(** Generic behaviour of the dispenser *)

Lemma Next_spec (d : caddyfile.Dispenser) :
  caddyfile.tokens (snd (caddyfile.Next d)) = caddyfile.tokens d
  /\ (if fst (caddyfile.Next d)
      then caddyfile.cursor d < caddyfile.len d - 1
           /\ caddyfile.cursor (snd (caddyfile.Next d)) = caddyfile.cursor d + 1
      else caddyfile.len d - 1 <= caddyfile.cursor d
           /\ snd (caddyfile.Next d) = d).
Proof.
  unfold caddyfile.Next.
  destruct (Z.ltb_spec (caddyfile.cursor d) (caddyfile.len d - 1)); simpl;
    repeat split; auto.
Qed.

Lemma NextArg_spec (d : caddyfile.Dispenser) :
  caddyfile.tokens (snd (caddyfile.NextArg isNextOnNewLine d))
  = caddyfile.tokens d
  /\ (if fst (caddyfile.NextArg isNextOnNewLine d)
      then (caddyfile.cursor d < 0 \/ caddyfile.cursor d < caddyfile.len d - 1)
           /\ caddyfile.cursor (snd (caddyfile.NextArg isNextOnNewLine d))
              = caddyfile.cursor d + 1
      else caddyfile.cursor (snd (caddyfile.NextArg isNextOnNewLine d))
           = caddyfile.cursor d).
Proof.
  unfold caddyfile.NextArg, caddyfile.nextOnSameLine.
  destruct (Z.ltb_spec (caddyfile.cursor d) 0).
  - cbn [negb]. destruct (gostring_eqb _ _); simpl; repeat split; auto; lia.
  - destruct (Z.leb_spec (caddyfile.len d - 1) (caddyfile.cursor d)).
    + simpl. auto.
    + destruct (isNextOnNewLine _ _); simpl; [auto|].
      destruct (gostring_eqb _ _); simpl; repeat split; auto; lia.
Qed.

Lemma len_tokens (d d' : caddyfile.Dispenser) :
  caddyfile.tokens d' = caddyfile.tokens d -> caddyfile.len d' = caddyfile.len d.
Proof. unfold caddyfile.len. now intros ->. Qed.

Lemma remainingArgsLoop_total :
  forall fuel d acc,
    0 <= caddyfile.cursor d <= caddyfile.len d - 1 ->
    caddyfile.len d - caddyfile.cursor d <= Z.of_nat fuel ->
    exists args d',
      caddyfile.remainingArgsLoop isNextOnNewLine fuel d acc = Some (args, d')
      /\ caddyfile.tokens d' = caddyfile.tokens d
      /\ caddyfile.cursor d <= caddyfile.cursor d' <= caddyfile.len d - 1.
Proof.
  induction fuel as [|fuel IH]; intros d acc Hc Hf; [lia|].
  cbn [caddyfile.remainingArgsLoop].
  destruct (NextArg_spec d) as [Ht Hn].
  destruct (caddyfile.NextArg isNextOnNewLine d) as [ok d1].
  cbn [fst snd] in Ht, Hn. destruct ok.
  - destruct Hn as [Hlt Hc1]. pose proof (len_tokens d d1 Ht) as Hl.
    destruct (IH d1 (acc ++ [caddyfile.Val d1])) as (args & d' & H & Ht' & Hc');
      [lia|lia|].
    exists args, d'. split; [exact H|]. split; [congruence|lia].
  - exists acc, d1. split; [reflexivity|]. split; [assumption|lia].
Qed.

Lemma unmarshalLoop_total :
  forall fuel c d,
    -1 <= caddyfile.cursor d <= caddyfile.len d - 1 ->
    caddyfile.len d - caddyfile.cursor d <= Z.of_nat fuel ->
    exists c' d' e,
      unmarshalLoop isNextOnNewLine ArgErr fuel c d = Some (c', d', e)
      /\ caddyfile.tokens d' = caddyfile.tokens d
      /\ Dir c' = Dir c /\ Timeout c' = Timeout c /\ logger c' = logger c
      /\ match e with
         | None => caddyfile.cursor d' = caddyfile.len d - 1
         | Some err =>
             err = ArgErr d'
             /\ caddyfile.cursor d < caddyfile.cursor d' <= caddyfile.len d - 1
         end.
Proof.
  induction fuel as [|fuel IH]; intros c d Hc Hf; [lia|].
  cbn [unmarshalLoop].
  destruct (Next_spec d) as [Ht Hn].
  destruct (caddyfile.Next d) as [more d1]. cbn [fst snd] in Ht, Hn.
  destruct more; cbn [negb].
  - destruct Hn as [Hlt Hc1]. pose proof (len_tokens d d1 Ht) as Hl.
    destruct (NextArg_spec d1) as [Ht2 Hn2].
    destruct (caddyfile.NextArg isNextOnNewLine d1) as [ok d2].
    cbn [fst snd] in Ht2, Hn2. pose proof (len_tokens d1 d2 Ht2) as Hl2.
    destruct ok; cbn [negb].
    + destruct Hn2 as [Hlt2 Hc2].
      destruct (remainingArgsLoop_total
                  (S (S (length (caddyfile.tokens d2)))) d2 [])
        as (args & d3 & H3 & Ht3 & Hc3); [lia| |].
      { unfold caddyfile.len in *. lia. }
      unfold caddyfile.RemainingArgs. rewrite H3.
      pose proof (len_tokens d2 d3 Ht3) as Hl3.
      destruct (IH {| Cmd := caddyfile.Val d2; Args := args; Dir := Dir c;
                      Timeout := Timeout c; logger := logger c |} d3)
        as (c' & d' & e & H & Ht' & Hd & Hto & Hlg & He); [lia|lia|].
      exists c', d', e. split; [exact H|]. split; [congruence|].
      repeat split; auto.
      destruct e as [err|]; [|lia]. destruct He as [He1 He2].
      split; [assumption|lia].
    + exists c, d2, (Some (ArgErr d2)). split; [reflexivity|].
      split; [congruence|]. repeat split; lia.
  - destruct Hn as [Hge ->]. exists c, d, None. repeat split. lia.
Qed.

(** X16.  [UnmarshalCaddyfile] returns for every sequence of tokens:
    its loops end.  It never changes the tokens, the directory, the
    timeout or the logger.  When it returns no error it has read every
    token; an error is the [ArgErr] of a dispenser whose cursor is at
    a token.  Without tokens it returns no error and leaves the command
    as it is. *)
Theorem UnmarshalCaddyfile_returns (toks : list caddyfile.Token) (c : Command) :
  (exists c' d' e,
      UnmarshalCaddyfile isNextOnNewLine ArgErr c (caddyfile.NewDispenser toks)
      = Some (c', d', e)
      /\ caddyfile.tokens d' = toks
      /\ Dir c' = Dir c /\ Timeout c' = Timeout c /\ logger c' = logger c
      /\ match e with
         | None => caddyfile.cursor d' = Z.of_nat (length toks) - 1
         | Some err =>
             err = ArgErr d'
             /\ 0 <= caddyfile.cursor d' < Z.of_nat (length toks)
         end)
  /\ UnmarshalCaddyfile isNextOnNewLine ArgErr c (caddyfile.NewDispenser [])
     = Some (c, caddyfile.NewDispenser [], None).
Proof.
  split; [|reflexivity].
  unfold UnmarshalCaddyfile.
  destruct (unmarshalLoop_total
              (S (S (length (caddyfile.tokens (caddyfile.NewDispenser toks)))))
              c (caddyfile.NewDispenser toks))
    as (c' & d' & e & H & Ht & Hd & Hto & Hlg & He).
  - unfold caddyfile.len. simpl. lia.
  - unfold caddyfile.len. simpl. lia.
  - exists c', d', e. split; [exact H|]. split; [exact Ht|].
    repeat split; auto. unfold caddyfile.len in He. simpl in He.
    destruct e as [err|]; [|exact He]. destruct He as [He1 He2].
    split; [assumption|lia].
Qed.

End UnmarshalProperties.

(** ** More on the earlier version *)

Section LegacyProperties.

Variable ReplaceAll : gostring -> gostring -> gostring.
Variable IP : Type.
Variable ParseIP : gostring -> option IP.
Variable IPString : IP -> gostring.

Lemma Legacy_GetIPs_exit_zero (OS : exec.Cmd -> exec.Behaviour)
    (c : Legacy.Command) (ctx : context.Context) (stdout : gostring)
    (lg : zap.Logger) :
  Legacy.logger c = Some lg ->
  OS (Legacy.buildCmd ReplaceAll c ctx) = exec.Runs (Exited 0) stdout [] ->
  fst (Legacy.GetIPs ReplaceAll IP ParseIP IPString OS c ctx [])
  = fst (Legacy.parseLoop IP ParseIP IPString c (Legacy.expandArgs ReplaceAll c)
           stdout (Split stdout ","%byte) []
           [legacyRunningEntry c (Legacy.expandArgs ReplaceAll c)]).
Proof.
  intros El Hos. unfold Legacy.GetIPs. rewrite Hos, El. reflexivity.
Qed.

Lemma Legacy_parseLoop_valid (c : Legacy.Command) (ea : list gostring)
    (stdout : gostring) (lg : zap.Logger) :
  Legacy.logger c = Some lg ->
  forall ipArr ips out log,
    Forall2 (fun tok ip => ParseIP (TrimSpace tok) = Some ip) ipArr ips ->
    fst (Legacy.parseLoop IP ParseIP IPString c ea stdout ipArr out log)
    = Done (Some (out ++ ips), None).
Proof.
  intros El ipArr ips out log H. revert out log.
  induction H as [|tok ip ipArr ips Hp _ IH]; intros out log; simpl.
  - now rewrite app_nil_r.
  - rewrite Hp. unfold bind, write. rewrite El. rewrite IH.
    now rewrite <- app_assoc.
Qed.

Lemma Legacy_parseLoop_invalid (c : Legacy.Command) (ea : list gostring)
    (stdout : gostring) (lg : zap.Logger) :
  Legacy.logger c = Some lg ->
  forall before bad after out log,
    Forall (fun tok => ParseIP (TrimSpace tok) <> None) before ->
    ParseIP (TrimSpace bad) = None ->
    fst (Legacy.parseLoop IP ParseIP IPString c ea stdout
           (before ++ bad :: after) out log)
    = Done (None, Some (Errorf ("invalid IP: "%go ++ bad))).
Proof.
  intros El before bad after out log H Hbad. revert out log.
  induction H as [|tok before Hp _ IH]; intros out log; simpl.
  - rewrite Hbad. unfold bind, write, ret. now rewrite El.
  - destruct (ParseIP (TrimSpace tok)) as [ip|]; [|congruence].
    unfold bind, write. rewrite El. apply IH.
Qed.

(** X17.  The earlier [GetIPs] does not filter: when the command exits
    with code 0, writes nothing to its standard error, and every field
    of its output between commas, trimmed, is an address, it returns
    the addresses of all fields in their order.  There is at least one
    field, so that this result is never empty. *)
Theorem Legacy_GetIPs_returns_every_address
    (OS : exec.Cmd -> exec.Behaviour) (c : Legacy.Command)
    (ctx : context.Context) (stdout : gostring) (ips : list IP) :
  Legacy.logger c <> None ->
  OS (Legacy.buildCmd ReplaceAll c ctx) = exec.Runs (Exited 0) stdout [] ->
  Forall2 (fun tok ip => ParseIP (TrimSpace tok) = Some ip)
    (Split stdout ","%byte) ips ->
  fst (Legacy.GetIPs ReplaceAll IP ParseIP IPString OS c ctx [])
  = Done (Some ips, None)
  /\ ips <> [].
Proof.
  intros Hlg Hos Hp.
  destruct (Legacy.logger c) as [lg|] eqn:El; [clear Hlg|congruence].
  split.
  - rewrite (Legacy_GetIPs_exit_zero OS c ctx stdout lg El Hos).
    now rewrite (Legacy_parseLoop_valid c _ stdout lg El _ ips [] _ Hp).
  - intros ->. inversion Hp as [E|]. symmetry in E.
    now apply Split_not_nil in E.
Qed.

(** X18.  When a field of the output, trimmed, is not an address and
    the fields before it are, the earlier [GetIPs] returns a nil slice
    and the error "invalid IP: " followed by the field as the command
    has written it, with its white space. *)
Theorem Legacy_GetIPs_names_the_untrimmed_field
    (OS : exec.Cmd -> exec.Behaviour) (c : Legacy.Command)
    (ctx : context.Context) (stdout : gostring)
    (before after : list gostring) (bad : gostring) :
  Legacy.logger c <> None ->
  OS (Legacy.buildCmd ReplaceAll c ctx) = exec.Runs (Exited 0) stdout [] ->
  Split stdout ","%byte = before ++ bad :: after ->
  Forall (fun tok => ParseIP (TrimSpace tok) <> None) before ->
  ParseIP (TrimSpace bad) = None ->
  fst (Legacy.GetIPs ReplaceAll IP ParseIP IPString OS c ctx [])
  = Done (None, Some (Errorf ("invalid IP: "%go ++ bad))).
Proof.
  intros Hlg Hos Hs Hb Hbad.
  destruct (Legacy.logger c) as [lg|] eqn:El; [clear Hlg|congruence].
  rewrite (Legacy_GetIPs_exit_zero OS c ctx stdout lg El Hos), Hs.
  now apply (Legacy_parseLoop_invalid c _ stdout lg El).
Qed.

(** X19.  The earlier [GetIPs] does not skip empty fields.  When
    [ParseIP] rejects the empty text (as [net.ParseIP] does), an output
    with a field of white space only (an empty output, white space
    only, two commas in a row, a comma at the end) is an error that
    names a field of the output. *)
Theorem Legacy_GetIPs_fails_on_empty_fields
    (OS : exec.Cmd -> exec.Behaviour) (c : Legacy.Command)
    (ctx : context.Context) (stdout : gostring) :
  Legacy.logger c <> None ->
  ParseIP [] = None ->
  OS (Legacy.buildCmd ReplaceAll c ctx) = exec.Runs (Exited 0) stdout [] ->
  Exists blank (Split stdout ","%byte) ->
  exists bad,
    In bad (Split stdout ","%byte)
    /\ fst (Legacy.GetIPs ReplaceAll IP ParseIP IPString OS c ctx [])
       = Done (None, Some (Errorf ("invalid IP: "%go ++ bad))).
Proof.
  intros Hlg Hnil Hos Hex.
  destruct (Legacy.logger c) as [lg|] eqn:El; [clear Hlg|congruence].
  rewrite (Legacy_GetIPs_exit_zero OS c ctx stdout lg El Hos).
  generalize (@nil IP).
  generalize [legacyRunningEntry c (Legacy.expandArgs ReplaceAll c)].
  induction Hex as [tok ipArr Hb|tok ipArr _ IH]; intros log out; simpl.
  - rewrite (TrimSpace_blank tok Hb), Hnil. unfold bind, write, ret.
    rewrite El. exists tok. split; [now left|reflexivity].
  - destruct (ParseIP (TrimSpace tok)) as [ip|].
    + unfold bind, write. rewrite El.
      destruct (IH (log ++ [ {| zap.level := zap.DebugLevel;
                                zap.msg := "parsed ip succesfull"%go;
                                zap.fields :=
                                  [ zap.String "command"%go (Legacy.Cmd c);
                                    zap.Strings "args"%go
                                      (Legacy.expandArgs ReplaceAll c);
                                    zap.String "stdout"%go stdout;
                                    zap.String "ip"%go (IPString ip) ] |} ])
                  (out ++ [ip])) as (bad & Hin & H).
      exists bad. split; [now right|exact H].
    + unfold bind, write, ret. rewrite El.
      exists tok. split; [now left|reflexivity].
Qed.

End LegacyProperties.

(** ** The expansion of the arguments *)

Lemma strLen_app (a b : gostring) : strLen (a ++ b) = strLen a + strLen b.
Proof. unfold strLen. rewrite length_app. lia. Qed.

Lemma byteAt_app_cons (a : gostring) (b : byte) (r : gostring) :
  byteAt (a ++ b :: r) (strLen a) = b.
Proof.
  unfold byteAt, strLen. rewrite Nat2Z.id.
  rewrite app_nth2 by lia. now rewrite Nat.sub_diag.
Qed.

Lemma byteAt_last (a r : gostring) :
  a <> [] -> byteAt (a ++ r) (strLen a - 1) = last a x00.
Proof.
  intros Ha. destruct (exists_last Ha) as (a' & b & ->).
  rewrite last_last. rewrite <- app_assoc. simpl.
  replace (strLen (a' ++ [b]) - 1) with (strLen a')
    by (rewrite strLen_app; unfold strLen; simpl; lia).
  apply byteAt_app_cons.
Qed.

Lemma slice_app (a m r : gostring) :
  slice (a ++ m ++ r) (strLen a) (strLen a + strLen m) = m.
Proof.
  unfold slice, strLen. rewrite Nat2Z.id.
  rewrite skipn_app, skipn_all, Nat.sub_diag. simpl.
  replace (Z.to_nat (Z.of_nat (length a) + Z.of_nat (length m)
                     - Z.of_nat (length a))) with (length m) by lia.
  rewrite firstn_app, firstn_all, Nat.sub_diag. simpl. apply app_nil_r.
Qed.

Lemma slice_to_end (a m : gostring) :
  slice (a ++ m) (strLen a) (strLen (a ++ m)) = m.
Proof.
  rewrite strLen_app. rewrite <- (app_nil_r m) at 1. apply slice_app.
Qed.

Lemma IndexByte_first (k : gostring) (c : byte) (r : gostring) :
  ~ In c k -> IndexByte (k ++ c :: r) c = strLen k.
Proof.
  unfold strLen. induction k as [|b k IH]; intros H; simpl.
  - now rewrite (Byte.byte_dec_lb eq_refl).
  - destruct (Byte.eqb b c) eqn:E.
    + apply Byte.byte_dec_bl in E. subst. exfalso. apply H. now left.
    + rewrite IH by (intros Hin; apply H; now right).
      destruct (Z.ltb_spec (Z.of_nat (length k)) 0); lia.
Qed.

Lemma IndexByte_In (s : gostring) (c : byte) :
  0 <= IndexByte s c <-> In c s.
Proof.
  induction s as [|b s IH]; simpl; [split; [lia|tauto]|].
  destruct (Byte.eqb b c) eqn:E.
  - apply Byte.byte_dec_bl in E. subst. split; [now left|lia].
  - destruct (Z.ltb_spec (IndexByte s c) 0) as [Hlt|Hge].
    + split; [lia|]. intros [->|Hin].
      * now rewrite (Byte.byte_dec_lb eq_refl) in E.
      * apply IH in Hin. lia.
    + split; [intros _; right; apply IH; lia|lia].
Qed.

Lemma IndexByte_lower (s : gostring) (c : byte) : -1 <= IndexByte s c.
Proof.
  induction s as [|b s IH]; simpl; [lia|].
  destruct (Byte.eqb b c); [lia|].
  destruct (Z.ltb_spec (IndexByte s c) 0); lia.
Qed.

Lemma ContainsByte_In (s : gostring) (c : byte) :
  ContainsByte s c = true <-> In c s.
Proof.
  unfold ContainsByte. rewrite Z.leb_le. apply IndexByte_In.
Qed.

Lemma eqb_false (a b : byte) : a <> b -> Byte.eqb a b = false.
Proof.
  intros H. destruct (Byte.eqb a b) eqn:E; [|reflexivity].
  now apply Byte.byte_dec_bl in E.
Qed.

Lemma IndexByte_none (s : gostring) (c : byte) :
  ~ In c s -> IndexByte s c = -1.
Proof.
  intros H. pose proof (IndexByte_lower s c) as Hl.
  pose proof (IndexByte_In s c) as Hi.
  destruct (Z.eq_dec (IndexByte s c) (-1)); [assumption|].
  exfalso. apply H, Hi. lia.
Qed.

(** A brace that is not escaped: the byte before it is no backslash. *)
Lemma escapesBrace_last (pre : gostring) (c : byte) (rest : gostring) :
  escapesBrace (pre ++ c :: rest) = false ->
  Byte.eqb c caddy.phClose || Byte.eqb c caddy.phOpen = true ->
  pre <> [] -> last pre x00 <> caddy.phEscape.
Proof.
  intros He Hc. induction pre as [|a pre IH]; [congruence|]. intros _.
  destruct pre as [|a' pre].
  - simpl in He. simpl. intros ->.
    rewrite (Byte.byte_dec_lb (eq_refl caddy.phEscape)) in He.
    rewrite orb_comm in Hc. rewrite Hc in He. discriminate.
  - change (last (a :: a' :: pre) x00) with (last (a' :: pre) x00).
    apply IH; [|discriminate].
    change ((a :: a' :: pre) ++ c :: rest)
      with (a :: a' :: (pre ++ c :: rest)) in He.
    cbn [escapesBrace] in He. apply orb_false_iff in He as [_ He].
    exact He.
Qed.

Section ReplacerLoop.

Variable Get : gostring -> option gostring.

Lemma byteAt_eq (input pre : gostring) (b : byte) (rest : gostring) :
  input = pre ++ b :: rest -> byteAt input (strLen pre) = b.
Proof. intros ->. apply byteAt_app_cons. Qed.

Lemma strLen_lt (input pre : gostring) (b : byte) (rest : gostring) :
  input = pre ++ b :: rest -> (strLen pre <? strLen input) = true.
Proof.
  intros ->. apply Z.ltb_lt. rewrite strLen_app. unfold strLen.
  simpl length. lia.
Qed.

(** The check for escaped braces fails at every index of an input
    without escaped braces. *)
Lemma no_escape (input pre : gostring) (c : byte) (rest : gostring) :
  input = pre ++ c :: rest ->
  escapesBrace input = false ->
  (0 <? strLen pre)
  && Byte.eqb (byteAt input (strLen pre - 1)) caddy.phEscape
  && (Byte.eqb c caddy.phClose || Byte.eqb c caddy.phOpen) = false.
Proof.
  intros Hi He.
  destruct (Byte.eqb c caddy.phClose || Byte.eqb c caddy.phOpen) eqn:Hc;
    [|apply andb_false_r].
  rewrite andb_true_r. destruct pre as [|b pre]; [reflexivity|].
  subst input. rewrite byteAt_last by discriminate.
  rewrite (eqb_false _ caddy.phEscape); [apply andb_false_r|].
  apply (escapesBrace_last (b :: pre) c rest He Hc). discriminate.
Qed.

(** The loop passes over text. *)
Lemma replaceLoop_text (empty : gostring) (tu ee eu : bool) (s : gostring) :
  forall fuel input pre0 pend rest uc sb,
    input = pre0 ++ pend ++ s ++ rest ->
    ~ In caddy.phOpen s ->
    escapesBrace input = false ->
    caddy.replaceLoop Get (length s + fuel) input empty tu ee eu
      (strLen (pre0 ++ pend)) (strLen pre0) uc sb
    = caddy.replaceLoop Get fuel input empty tu ee eu
        (strLen (pre0 ++ pend ++ s)) (strLen pre0) uc sb.
Proof.
  induction s as [|b s IH]; intros fuel input pre0 pend rest uc sb Hin Ho He.
  - now rewrite app_nil_r.
  - cbn [length Nat.add caddy.replaceLoop].
    assert (Hi : input = (pre0 ++ pend) ++ b :: s ++ rest)
      by (rewrite Hin, <- app_assoc; reflexivity).
    assert (Hb : b <> caddy.phOpen) by (intros E; apply Ho; now left).
    rewrite (strLen_lt _ _ _ _ Hi). cbn [negb].
    rewrite (byteAt_eq _ _ _ _ Hi).
    rewrite (no_escape input (pre0 ++ pend) b _ Hi He).
    rewrite (eqb_false _ _ Hb). cbn [negb].
    replace (strLen (pre0 ++ pend) + 1) with (strLen (pre0 ++ (pend ++ [b])))
      by (rewrite !strLen_app; unfold strLen; simpl; lia).
    rewrite (IH fuel input pre0 (pend ++ [b]) rest uc sb).
    + now rewrite <- !app_assoc.
    + rewrite Hin, <- !app_assoc. reflexivity.
    + intros H. apply Ho. now right.
    + assumption.
Qed.

Lemma closingBrace_key (fuel : nat) (input pre key rest : gostring) :
  input = pre ++ caddy.phOpen :: key ++ caddy.phClose :: rest ->
  escapesBrace input = false ->
  caddy.closingBrace (S fuel) input (strLen (pre ++ caddy.phOpen :: key))
  = Some (caddy.ClosedAt (strLen (pre ++ caddy.phOpen :: key))).
Proof.
  intros Hi He. cbn [caddy.closingBrace].
  assert (Hi' : input = (pre ++ caddy.phOpen :: key) ++ caddy.phClose :: rest)
    by (rewrite Hi, <- app_assoc; reflexivity).
  pose proof (no_escape input _ caddy.phClose _ Hi' He) as Hn.
  rewrite (Byte.byte_dec_lb (eq_refl caddy.phClose)) in Hn.
  cbn [orb] in Hn. rewrite andb_true_r in Hn.
  apply andb_false_iff in Hn.
  destruct Hn as [Hn|Hn]; rewrite Hn; now rewrite ?andb_false_r.
Qed.

(** The loop replaces a placeholder. *)
Lemma replaceLoop_placeholder (key : gostring) :
  forall fuel input pre0 pend rest sb,
    input = pre0 ++ pend ++ (caddy.phOpen :: key ++ [caddy.phClose]) ++ rest ->
    ~ In caddy.phClose key ->
    escapesBrace input = false ->
    caddy.replaceLoop Get (S fuel) input [] true false false
      (strLen (pre0 ++ pend)) (strLen pre0) 0 sb
    = caddy.replaceLoop Get fuel input [] true false false
        (strLen (pre0 ++ pend ++ caddy.phOpen :: key ++ [caddy.phClose]))
        (strLen (pre0 ++ pend ++ caddy.phOpen :: key ++ [caddy.phClose]))
        0 (sb ++ pend ++ expandPiece Get (Placeholder key)).
Proof.
  intros fuel input pre0 pend rest sb Hin Hc He.
  set (pre := pre0 ++ pend) in *.
  assert (Hi : input = pre ++ caddy.phOpen :: key ++ caddy.phClose :: rest).
  { rewrite Hin. unfold pre. rewrite <- !app_assoc. simpl.
    now rewrite <- app_assoc. }
  assert (Hs : slice input (strLen pre) (strLen input)
               = (caddy.phOpen :: key) ++ caddy.phClose :: rest).
  { rewrite Hi. apply slice_to_end. }
  assert (Hk : ~ In caddy.phClose (caddy.phOpen :: key)).
  { intros [H|H]; [discriminate|contradiction]. }
  assert (Hend : strLen (caddy.phOpen :: key) + strLen pre
                 = strLen (pre ++ caddy.phOpen :: key))
    by (rewrite strLen_app; lia).
  assert (Hge : (strLen (pre ++ caddy.phOpen :: key) <? strLen pre) = false)
    by (apply Z.ltb_ge; rewrite strLen_app; unfold strLen; lia).
  assert (Hpend : slice input (strLen pre0) (strLen pre) = pend).
  { rewrite Hin. unfold pre. rewrite strLen_app. apply slice_app. }
  assert (Hkey : slice input (strLen pre + 1)
                   (strLen (pre ++ caddy.phOpen :: key)) = key).
  { replace input with ((pre ++ [caddy.phOpen]) ++ key ++ caddy.phClose :: rest)
      by (rewrite Hi, <- app_assoc; reflexivity).
    replace (strLen pre + 1) with (strLen (pre ++ [caddy.phOpen]))
      by (rewrite strLen_app; reflexivity).
    replace (strLen (pre ++ caddy.phOpen :: key))
      with (strLen (pre ++ [caddy.phOpen]) + strLen key)
      by (rewrite !strLen_app; unfold strLen; simpl length; lia).
    apply slice_app. }
  assert (Hnext : strLen (pre ++ caddy.phOpen :: key) + 1
                  = strLen (pre0 ++ pend ++ caddy.phOpen :: key ++ [caddy.phClose])).
  { unfold pre. rewrite !strLen_app. unfold strLen. simpl length.
    rewrite length_app. simpl length. lia. }
  cbn [caddy.replaceLoop].
  rewrite (strLen_lt _ _ _ _ Hi). cbn [negb].
  rewrite (byteAt_eq _ _ _ _ Hi).
  rewrite (no_escape input pre caddy.phOpen _ Hi He).
  rewrite (Byte.byte_dec_lb (eq_refl caddy.phOpen)). cbn [negb].
  change (100 <? 0) with false. cbv iota.
  rewrite Hs, (IndexByte_first _ _ _ Hk), Hend, Hge.
  rewrite (closingBrace_key _ input pre key rest Hi He).
  rewrite Hpend, Hkey, Hnext.
  cbn [expandPiece negb isEmpty].
  destruct (Get key) as [[|b v]|]; cbn [isEmpty negb];
    rewrite ?app_nil_r, <- ?app_assoc; reflexivity.
Qed.

(** The loop passes over a tail whose opening braces are not
    closed, and counts them. *)
Lemma replaceLoop_tail (empty : gostring) (tu ee eu : bool) (tail : gostring) :
  forall fuel input pre0 pend uc sb,
    input = pre0 ++ pend ++ tail ->
    ~ In caddy.phClose tail ->
    escapesBrace input = false ->
    uc + Z.of_nat (count_occ Byte.byte_eq_dec tail caddy.phOpen) <= 101 ->
    (length tail < fuel)%nat ->
    caddy.replaceLoop Get fuel input empty tu ee eu
      (strLen (pre0 ++ pend)) (strLen pre0) uc sb
    = Some (sb ++ pend ++ tail, None).
Proof.
  induction tail as [|b tail IH]; intros fuel input pre0 pend uc sb
    Hin Hc He Hu Hf;
    (destruct fuel as [|fuel]; [simpl in Hf; lia|]); cbn [caddy.replaceLoop].
  - rewrite app_nil_r in Hin. subst input. rewrite Z.ltb_irrefl. cbn [negb].
    rewrite slice_to_end, app_nil_r. reflexivity.
  - assert (Hi : input = (pre0 ++ pend) ++ b :: tail)
      by (rewrite Hin, <- app_assoc; reflexivity).
    assert (Hin' : input = pre0 ++ (pend ++ [b]) ++ tail)
      by (rewrite Hin, <- !app_assoc; reflexivity).
    assert (Hc' : ~ In caddy.phClose tail) by (intros H; apply Hc; now right).
    assert (Hlen : strLen (pre0 ++ pend) + 1 = strLen (pre0 ++ (pend ++ [b])))
      by (rewrite !strLen_app; unfold strLen; simpl; lia).
    rewrite (strLen_lt _ _ _ _ Hi). cbn [negb].
    rewrite (byteAt_eq _ _ _ _ Hi).
    rewrite (no_escape input (pre0 ++ pend) b _ Hi He).
    simpl in Hf. simpl count_occ in Hu.
    destruct (Byte.byte_eq_dec b caddy.phOpen) as [->|Hb].
    + rewrite (Byte.byte_dec_lb (eq_refl caddy.phOpen)). cbn [negb].
      replace (100 <? uc) with false by (symmetry; apply Z.ltb_ge; lia).
      replace (slice input (strLen (pre0 ++ pend)) (strLen input))
        with (caddy.phOpen :: tail) by (rewrite Hi; now rewrite slice_to_end).
      rewrite (IndexByte_none (caddy.phOpen :: tail) caddy.phClose Hc).
      replace (-1 + strLen (pre0 ++ pend) <? strLen (pre0 ++ pend)) with true
        by (symmetry; apply Z.ltb_lt; lia).
      rewrite Hlen.
      rewrite (IH fuel input pre0 (pend ++ [caddy.phOpen]) (uc + 1) sb
                 Hin' Hc' He); [now rewrite <- !app_assoc|lia|lia].
    + rewrite (eqb_false _ _ Hb). cbn [negb]. rewrite Hlen.
      rewrite (IH fuel input pre0 (pend ++ [b]) uc sb Hin' Hc' He);
        [now rewrite <- !app_assoc|lia|lia].
Qed.

Lemma replaceLoop_template (t : list piece) (tail : gostring) :
  forall fuel input pre0 pend sb,
    input = pre0 ++ pend ++ render t ++ tail ->
    Forall wellFormed t ->
    ~ In caddy.phClose tail ->
    (count_occ Byte.byte_eq_dec tail caddy.phOpen <= 101)%nat ->
    escapesBrace input = false ->
    (length (render t ++ tail) < fuel)%nat ->
    caddy.replaceLoop Get fuel input [] true false false
      (strLen (pre0 ++ pend)) (strLen pre0) 0 sb
    = Some (sb ++ pend ++ expand Get t ++ tail, None).
Proof.
  induction t as [|p t IH]; intros fuel input pre0 pend sb
    Hin Hwf Hc Hu He Hf.
  - cbn [render map concat app] in Hin, Hf.
    change (expand Get [] ++ tail) with tail.
    apply replaceLoop_tail; try assumption; lia.
  - pose proof (Forall_inv Hwf) as Hp.
    pose proof (Forall_inv_tail Hwf) as Hwf'.
    change (render (p :: t)) with (renderPiece p ++ render t) in *.
    change (expand Get (p :: t)) with (expandPiece Get p ++ expand Get t).
    rewrite <- app_assoc in Hin, Hf. rewrite length_app in Hf.
    destruct p as [s|key]; cbn [renderPiece expandPiece wellFormed] in *.
    + replace fuel with (length s + (fuel - length s))%nat by lia.
      rewrite (replaceLoop_text [] true false false s _ input pre0 pend
                 (render t ++ tail) 0 sb Hin Hp He).
      rewrite (IH _ input pre0 (pend ++ s) sb); try assumption.
      * now rewrite <- !app_assoc.
      * rewrite Hin, <- !app_assoc. reflexivity.
      * lia.
    + destruct fuel as [|fuel]; [lia|].
      change ("{"%go ++ key ++ "}"%go)
        with (caddy.phOpen :: key ++ [caddy.phClose]) in *.
      rewrite (replaceLoop_placeholder key fuel input pre0 pend
                 (render t ++ tail) sb Hin Hp He).
      specialize (IH fuel input
                    (pre0 ++ pend ++ caddy.phOpen :: key ++ [caddy.phClose]) []
                    (sb ++ pend ++ expandPiece Get (Placeholder key))).
      rewrite app_nil_r in IH.
      rewrite IH; try assumption.
      * change ([] ++ expand Get t ++ tail) with (expand Get t ++ tail).
        cbn [expandPiece]. rewrite <- !app_assoc. reflexivity.
      * rewrite Hin, <- !app_assoc. simpl. now rewrite <- !app_assoc.
      * simpl in Hf. rewrite length_app in Hf. simpl in Hf. lia.
Qed.

End ReplacerLoop.

Section ReplacerProperties.

Variable Get : gostring -> option gostring.

Lemma render_without_braces (t : list piece) :
  ~ In caddy.phOpen (render t) -> expand Get t = render t.
Proof.
  induction t as [|p t IH]; [reflexivity|].
  change (render (p :: t)) with (renderPiece p ++ render t).
  change (expand Get (p :: t)) with (expandPiece Get p ++ expand Get t).
  intros H. destruct p as [s|key].
  - simpl. f_equal. apply IH. intros Hin. apply H, in_or_app. now right.
  - exfalso. apply H. now left.
Qed.

(** On a plain argument [replace] returns the expansion and no
    error. *)
Lemma replace_argument (a : argument) :
  plain a ->
  caddy.replace Get (renderArgument a) [] true false false
  = Some (expandArgument Get a, None).
Proof.
  destruct a as [t tail]. unfold plain, renderArgument, expandArgument.
  cbn [fst snd]. intros (Hwf & Hc & Hu & He). unfold caddy.replace.
  assert (Hloop : caddy.replaceLoop Get (S (length (render t ++ tail)))
                    (render t ++ tail) [] true false false 0 0 0 []
                  = Some (expand Get t ++ tail, None)).
  { apply (replaceLoop_template Get t tail _ (render t ++ tail) [] [] []);
      [reflexivity|assumption|assumption|assumption|assumption|lia]. }
  destruct (ContainsByte (render t ++ tail) caddy.phOpen) eqn:Eo;
    cbn [negb andb]; [exact Hloop|].
  destruct (ContainsByte (render t ++ tail) caddy.phClose) eqn:Ec;
    cbn [negb]; [exact Hloop|].
  rewrite render_without_braces; [reflexivity|].
  intros Hin.
  assert (Hin' : In caddy.phOpen (render t ++ tail))
    by (apply in_or_app; now left).
  apply ContainsByte_In in Hin'. congruence.
Qed.

Lemma ReplaceAll_argument (a : argument) :
  plain a -> caddy.ReplaceAll Get (renderArgument a) [] = expandArgument Get a.
Proof.
  intros Hp. unfold caddy.ReplaceAll. now rewrite replace_argument.
Qed.

(** The loops end. *)
Lemma closingBrace_returns (input : gostring) :
  forall fuel end_,
    (0 < fuel)%nat -> strLen input - end_ < Z.of_nat fuel ->
    exists r,
      caddy.closingBrace fuel input end_ = Some r
      /\ forall e, r = caddy.ClosedAt e -> end_ <= e.
Proof.
  induction fuel as [|fuel IH]; intros end_ Hpos Hf; [lia|].
  cbn [caddy.closingBrace].
  destruct ((0 <? end_) && (end_ <? strLen input - 1)
            && Byte.eqb (byteAt input (end_ - 1)) caddy.phEscape) eqn:E.
  - apply andb_true_iff in E as [E _]. apply andb_true_iff in E as [_ E].
    apply Z.ltb_lt in E.
    pose proof (IndexByte_lower (slice input (end_ + 1) (strLen input))
                  caddy.phClose) as Hlow.
    destruct (Z.ltb_spec
                (IndexByte (slice input (end_ + 1) (strLen input)) caddy.phClose)
                0) as [Hlt|Hge].
    + exists caddy.Unclosed. split; [reflexivity|discriminate].
    + destruct (IH (end_ + (IndexByte (slice input (end_ + 1) (strLen input))
                              caddy.phClose + 1)))
        as (r & Hr & Hle); [lia|lia|].
      exists r. split; [exact Hr|]. intros e He. specialize (Hle e He). lia.
  - exists (caddy.ClosedAt end_). split; [reflexivity|].
    intros e He. inversion He. lia.
Qed.

Lemma replaceLoop_returns (input empty : gostring) (tu ee eu : bool) :
  forall fuel i lastWriteCursor unclosedCount sb,
    (0 < fuel)%nat -> 0 <= i -> strLen input - i < Z.of_nat fuel ->
    exists out err,
      caddy.replaceLoop Get fuel input empty tu ee eu
        i lastWriteCursor unclosedCount sb
      = Some (out, err).
Proof.
  induction fuel as [|fuel IH]; intros i lw uc sb Hpos Hi Hf; [lia|].
  cbn [caddy.replaceLoop].
  destruct (Z.ltb_spec i (strLen input)) as [Hlt|Hge]; cbn [negb];
    [|eexists; eexists; reflexivity].
  assert (Hnext : forall j lw' uc' sb',
             i < j ->
             exists out err,
               caddy.replaceLoop Get fuel input empty tu ee eu j lw' uc' sb'
               = Some (out, err)).
  { intros j lw' uc' sb' Hj. apply IH; lia. }
  destruct ((0 <? i) && Byte.eqb (byteAt input (i - 1)) caddy.phEscape
            && (Byte.eqb (byteAt input i) caddy.phClose
                || Byte.eqb (byteAt input i) caddy.phOpen));
    [apply Hnext; lia|].
  destruct (negb (Byte.eqb (byteAt input i) caddy.phOpen));
    [apply Hnext; lia|].
  destruct (100 <? uc); [eexists; eexists; reflexivity|].
  pose proof (IndexByte_lower (slice input i (strLen input)) caddy.phClose)
    as Hlow.
  destruct (Z.ltb_spec
              (IndexByte (slice input i (strLen input)) caddy.phClose + i) i)
    as [Hlti|Hgei]; [apply Hnext; lia|].
  destruct (closingBrace_returns input (S (length input))
              (IndexByte (slice input i (strLen input)) caddy.phClose + i))
    as (r & Hr & Hle); [lia|unfold strLen in *; lia|].
  rewrite Hr. destruct r as [|e]; [apply Hnext; lia|].
  specialize (Hle e eq_refl).
  destruct (Get (slice input (i + 1) e)) as [v|].
  - destruct (isEmpty v); [destruct ee|];
      [eexists; eexists; reflexivity|apply Hnext; lia|apply Hnext; lia].
  - destruct eu; [eexists; eexists; reflexivity|].
    destruct (negb tu); [apply Hnext; lia|].
    cbn [isEmpty]. destruct ee;
      [eexists; eexists; reflexivity|apply Hnext; lia].
Qed.

(** [replace] returns for every input. *)
Lemma replace_returns (input empty : gostring) (tu ee eu : bool) :
  exists out err, caddy.replace Get input empty tu ee eu = Some (out, err).
Proof.
  unfold caddy.replace.
  destruct (negb (ContainsByte input caddy.phOpen)
            && negb (ContainsByte input caddy.phClose));
    [eexists; eexists; reflexivity|].
  apply replaceLoop_returns; unfold strLen; lia.
Qed.

(** The substitution of the spec on a template. *)
Lemma substitute_key (key : gostring) :
  forall k rest,
    ~ In caddy.phClose key ->
    substitute Get (Some k) (key ++ caddy.phClose :: rest) []
    = match Get (rev k ++ key) with
      | Some value => value
      | None => []
      end ++ substitute Get None rest [].
Proof.
  induction key as [|b key IH]; intros k rest Hc; simpl.
  - now rewrite app_nil_r.
  - rewrite (eqb_false b "}"%byte) by (intros E; apply Hc; now left).
    rewrite IH by (intros H; apply Hc; now right).
    simpl. now rewrite <- app_assoc.
Qed.

Lemma substitute_text (s rest : gostring) :
  ~ In caddy.phOpen s ->
  substitute Get None (s ++ rest) [] = s ++ substitute Get None rest [].
Proof.
  induction s as [|b s IH]; intros Ho; [reflexivity|]. simpl.
  rewrite (eqb_false b "{"%byte) by (intros E; apply Ho; now left).
  rewrite IH by (intros H; apply Ho; now right). reflexivity.
Qed.

Lemma substitute_open (s : gostring) :
  forall k,
    ~ In caddy.phClose s ->
    substitute Get (Some k) s [] = "{"%byte :: rev k ++ s.
Proof.
  induction s as [|b s IH]; intros k Hc; simpl.
  - now rewrite app_nil_r.
  - rewrite (eqb_false b "}"%byte) by (intros E; apply Hc; now left).
    rewrite IH by (intros H; apply Hc; now right).
    simpl. now rewrite <- app_assoc.
Qed.

Lemma substitute_tail (tail : gostring) :
  ~ In caddy.phClose tail -> substitute Get None tail [] = tail.
Proof.
  induction tail as [|b tail IH]; intros Hc; [reflexivity|]. simpl.
  assert (Hc' : ~ In caddy.phClose tail) by (intros H; apply Hc; now right).
  destruct (Byte.eqb b "{"%byte) eqn:E.
  - apply Byte.byte_dec_bl in E. subst b. now rewrite substitute_open.
  - now rewrite IH.
Qed.

Lemma substitute_argument (a : argument) :
  Forall wellFormed (fst a) -> ~ In caddy.phClose (snd a) ->
  substitute Get None (renderArgument a) [] = expandArgument Get a.
Proof.
  destruct a as [t tail]. unfold renderArgument, expandArgument.
  cbn [fst snd]. intros Hwf Hc.
  induction Hwf as [|p t Hp _ IH]; [now apply substitute_tail|].
  change (render (p :: t)) with (renderPiece p ++ render t).
  change (expand Get (p :: t)) with (expandPiece Get p ++ expand Get t).
  rewrite <- !app_assoc.
  destruct p as [s|key]; cbn [renderPiece expandPiece wellFormed] in *.
  - rewrite substitute_text by apply Hp. now rewrite IH.
  - change (("{"%go ++ key ++ "}"%go) ++ render t ++ tail)
      with ("{"%byte :: (key ++ ["}"%byte]) ++ render t ++ tail).
    rewrite <- app_assoc. cbn [substitute].
    rewrite (Byte.byte_dec_lb (eq_refl "{"%byte)).
    change (["}"%byte] ++ render t ++ tail)
      with (caddy.phClose :: render t ++ tail).
    rewrite substitute_key by apply Hp. simpl rev. cbn [app]. now rewrite IH.
Qed.

End ReplacerProperties.

Lemma parseArgument_render (input : gostring) :
  forall key,
    renderArgument (parseArgument key input)
    = match key with
      | None => input
      | Some k => caddy.phOpen :: rev k ++ input
      end.
Proof.
  unfold renderArgument.
  induction input as [|c input IH]; intros [k|]; cbn [parseArgument].
  - cbn [fst snd render map concat app]. now rewrite app_nil_r.
  - reflexivity.
  - destruct (Byte.eqb c caddy.phClose) eqn:E.
    + apply Byte.byte_dec_bl in E. subst c.
      specialize (IH None). destruct (parseArgument None input) as [ps tail].
      cbn [fst snd] in *.
      change (render (Placeholder (rev k) :: ps))
        with (("{"%go ++ rev k ++ "}"%go) ++ render ps).
      rewrite <- !app_assoc. rewrite IH. simpl.
      rewrite <- ?app_assoc. reflexivity.
    + rewrite (IH (Some (c :: k))). simpl. now rewrite <- app_assoc.
  - destruct (Byte.eqb c caddy.phOpen) eqn:E.
    + apply Byte.byte_dec_bl in E. subst c. now rewrite (IH (Some [])).
    + specialize (IH None). destruct (parseArgument None input) as [ps tail].
      cbn [fst snd] in *.
      change (render (Text [c] :: ps)) with ([c] ++ render ps).
      rewrite <- app_assoc, IH. reflexivity.
Qed.

Lemma parseArgument_close (k input : gostring) :
  parseArgument (Some k) (caddy.phClose :: input)
  = (Placeholder (rev k) :: fst (parseArgument None input),
     snd (parseArgument None input)).
Proof. simpl. now destruct (parseArgument None input). Qed.

Lemma parseArgument_text (c : byte) (input : gostring) :
  c <> caddy.phOpen ->
  parseArgument None (c :: input)
  = (Text [c] :: fst (parseArgument None input),
     snd (parseArgument None input)).
Proof.
  intros H. simpl. rewrite (eqb_false _ _ H).
  now destruct (parseArgument None input).
Qed.

Lemma parseArgument_wellFormed (input : gostring) :
  forall key,
    match key with
    | None => True
    | Some k => ~ In caddy.phClose k
    end ->
    Forall wellFormed (fst (parseArgument key input))
    /\ ~ In caddy.phClose (snd (parseArgument key input)).
Proof.
  induction input as [|c input IH]; intros [k|] Hk.
  - split; [constructor|]. cbn [parseArgument snd].
    intros [H|H]; [discriminate|]. apply in_rev in H. contradiction.
  - split; [constructor|]. intros [].
  - destruct (Byte.byte_eq_dec c caddy.phClose) as [->|Hc].
    + rewrite parseArgument_close. cbn [fst snd].
      destruct (IH None I) as [H1 H2].
      split; [|assumption]. constructor; [|assumption].
      cbn [wellFormed]. intros H. apply in_rev in H. contradiction.
    + cbn [parseArgument]. rewrite (eqb_false _ _ Hc).
      apply (IH (Some (c :: k))). intros [H|H]; [congruence|contradiction].
  - destruct (Byte.byte_eq_dec c caddy.phOpen) as [->|Ho].
    + cbn [parseArgument]. rewrite (Byte.byte_dec_lb eq_refl).
      apply (IH (Some [])). intros [].
    + rewrite parseArgument_text by assumption. cbn [fst snd].
      destruct (IH None I) as [H1 H2].
      split; [|assumption]. constructor; [|assumption].
      cbn [wellFormed]. intros [H|[]]. congruence.
Qed.

(** Every string without an escaped brace and with at most 101
    opening braces that are not closed is a plain argument. *)
Lemma parseArgument_plain (s : gostring) :
  escapesBrace s = false -> (unclosed s <= 101)%nat ->
  plain (parseArgument None s) /\ renderArgument (parseArgument None s) = s.
Proof.
  intros He Hu. pose proof (parseArgument_render s None) as Hr.
  destruct (parseArgument_wellFormed s None I) as [Hwf Hc].
  split; [|exact Hr]. unfold plain. rewrite Hr. auto.
Qed.

(** C9 (as amended).  Take any values of the keys and any arguments in
    which no brace is escaped and at most 101 opening braces are not
    closed: templates of text and placeholders, with a tail after the
    last placeholder; every string without an escaped brace and with
    at most 101 opening braces that are not closed is such an
    argument.  The arguments of the command that [GetIPs] builds are
    the configured ones with every placeholder replaced by the value
    of its key, and by the empty string when the key has none; all
    other text is kept; they are as many as the configured ones and in
    their order.  Expansion does not fail: [replace] returns no error
    on these arguments, and [ReplaceAll] returns a string for every
    input.  The substitution that the spec describes gives the same
    arguments.  The name of the command is the configured one and is
    not expanded, also when [ReplaceAll] would change it.  The command
    built is the one that [GetIPs] hands to the operating system, and
    it runs it. *)
Theorem arguments_expanded_command_kept
    (Get : gostring -> option gostring)
    (ParseAddr : gostring -> netip.Addr + error)
    (AddrString : netip.Addr -> gostring)
    (Contains : dynamicdns.IPSettings -> netip.Addr -> bool)
    (c : Command) (ctx : context.Context) (arguments : list argument) :
  Forall plain arguments ->
  Args c = map renderArgument arguments ->
  exec.Args (buildCmd (caddy.ReplaceAll Get) c ctx)
  = map (expandArgument Get) arguments
  /\ length (exec.Args (buildCmd (caddy.ReplaceAll Get) c ctx))
     = length (Args c)
  /\ (forall i a,
        nth_error arguments i = Some a ->
        nth_error (Args c) i = Some (renderArgument a)
        /\ nth_error (exec.Args (buildCmd (caddy.ReplaceAll Get) c ctx)) i
           = Some (expandArgument Get a))
  /\ Forall (fun arg =>
               caddy.replace Get arg [] true false false
               = Some (caddy.ReplaceAll Get arg [], None))
       (Args c)
  /\ (forall s,
        escapesBrace s = false -> (unclosed s <= 101)%nat ->
        plain (parseArgument None s)
        /\ renderArgument (parseArgument None s) = s
        /\ caddy.ReplaceAll Get s [] = expandArgument Get (parseArgument None s))
  /\ (forall input empty,
        exists out err,
          caddy.replace Get input empty true false false = Some (out, err)
          /\ caddy.ReplaceAll Get input empty = out)
  /\ map (fun arg => substitute Get None arg []) (Args c)
     = exec.Args (buildCmd (caddy.ReplaceAll Get) c ctx)
  /\ exec.Name (buildCmd (caddy.ReplaceAll Get) c ctx) = Cmd c
  /\ (forall a,
        plain a -> Cmd c = renderArgument a ->
        exec.Name (buildCmd (caddy.ReplaceAll Get) c ctx) = renderArgument a
        /\ caddy.ReplaceAll Get (Cmd c) [] = expandArgument Get a)
  /\ exec.Dir (buildCmd (caddy.ReplaceAll Get) c ctx) = Dir c
  /\ (forall (OS OS' : exec.Cmd -> exec.Behaviour) settings log,
        OS (buildCmd (caddy.ReplaceAll Get) c ctx)
        = OS' (buildCmd (caddy.ReplaceAll Get) c ctx) ->
        GetIPs (caddy.ReplaceAll Get) ParseAddr AddrString Contains
          OS c ctx settings log
        = GetIPs (caddy.ReplaceAll Get) ParseAddr AddrString Contains
            OS' c ctx settings log)
  /\ (ready c = true ->
      forall (OS : exec.Cmd -> exec.Behaviour) settings msg,
        OS (buildCmd (caddy.ReplaceAll Get) c ctx) = exec.StartFails msg ->
        fst (GetIPs (caddy.ReplaceAll Get) ParseAddr AddrString Contains
               OS c ctx settings [])
        = Done (None, Some (StartError msg))).
Proof.
  intros Hp Hargs. rewrite Forall_forall in Hp.
  assert (Hexp : exec.Args (buildCmd (caddy.ReplaceAll Get) c ctx)
                 = map (expandArgument Get) arguments).
  { unfold buildCmd, expandArgs.
    cbn [exec.withDir exec.CommandContext exec.Args].
    rewrite Hargs, map_map. apply map_ext_in. intros a Ha.
    now apply ReplaceAll_argument, Hp. }
  split; [exact Hexp|].
  split; [rewrite Hexp, Hargs, !length_map; reflexivity|].
  split.
  { intros i a Hi. rewrite Hexp, Hargs, !nth_error_map, Hi.
    split; reflexivity. }
  split.
  { rewrite Hargs. apply Forall_forall. intros arg Hin.
    apply in_map_iff in Hin as (a & <- & Ha).
    rewrite (ReplaceAll_argument Get a (Hp a Ha)).
    now apply replace_argument, Hp. }
  split.
  { intros s He Hu. destruct (parseArgument_plain s He Hu) as [Hpl Hr].
    split; [exact Hpl|]. split; [exact Hr|].
    rewrite <- Hr at 1. now apply ReplaceAll_argument. }
  split.
  { intros input empty.
    destruct (replace_returns Get input empty true false false)
      as (out & err & H).
    exists out, err. split; [exact H|].
    unfold caddy.ReplaceAll. now rewrite H. }
  split.
  { rewrite Hexp, Hargs, map_map. apply map_ext_in. intros a Ha.
    destruct (Hp a Ha) as (Hwf & Hc & _). now apply substitute_argument. }
  split; [reflexivity|].
  split.
  { intros a Ha Hc. split; [exact Hc|]. rewrite Hc.
    now apply ReplaceAll_argument. }
  split; [reflexivity|].
  split.
  { intros OS OS' settings log H. unfold GetIPs. now rewrite H. }
  intros Hr OS settings msg Hos.
  apply GetIPs_run_error; [assumption|]. now rewrite Hos.
Qed.

(** ** Examples *)

Lemma GetIPs_filters_by_family_and_range_witness :
  fst (run echo (exampleCommand "echo"%go ["8.8.8.8,2001:4860:4860::8888"%go])
         (createIPSettings true false))
  = Done (Some [addr_8_8_8_8], None).
Proof.
  destruct (GetIPs_filters_by_family_and_range
              plainReplaceAll netip.ParseAddr netip.String anyRange echo
              (exampleCommand "echo"%go ["8.8.8.8,2001:4860:4860::8888"%go])
              context.Background (createIPSettings true false)
              ("8.8.8.8,2001:4860:4860::8888"%go ++ [x0a]) []
              [addr_8_8_8_8; addr_2001_4860_4860__8888]
              eq_refl eq_refl eq_refl)
    as (out & H1 & H2 & _).
  unfold run. rewrite H1, H2. reflexivity.
Defined.

Lemma blank_space : blank " "%go.
Proof. apply (blank_rune " "%go []); [simpl; tauto|constructor]. Qed.

Lemma blank_newline : blank [x0a].
Proof. apply (blank_rune [x0a] []); [simpl; tauto|constructor]. Qed.

Lemma padded_literals_parse_in_order_witness :
  fst (run echo (exampleCommand "echo"%go [" 8.8.8.8 , 2001:4860:4860::8888 "%go])
         (createIPSettings true true))
  = Done (Some [addr_8_8_8_8; addr_2001_4860_4860__8888], None).
Proof.
  refine (proj2 (proj2 (proj2
    (padded_literals_parse_in_order
       plainReplaceAll netip.ParseAddr netip.String anyRange echo
       (exampleCommand "echo"%go [" 8.8.8.8 , 2001:4860:4860::8888 "%go])
       context.Background (createIPSettings true true) [] [] [x0a]
       [ (" "%go, "8.8.8.8"%go, " "%go);
         (" "%go, "2001:4860:4860::8888"%go, " "%go) ]
       [addr_8_8_8_8; addr_2001_4860_4860__8888]
       eq_refl blank_nil blank_newline _ _ eq_refl)))).
  - repeat constructor; try apply blank_space; try discriminate;
      simpl; intuition discriminate.
  - repeat constructor.
Defined.

(** C2, as it is stated, fails.  [netip.ParseAddr] accepts an IPv6
    literal with any zone that is not empty.  The literal
    "fe80::1%a,b" is a list of one valid literal; [GetIPs] splits it
    at the comma and fails on the token "b".  The literal "fe80::1%z "
    (the zone ends with a space) is valid too; [GetIPs] trims it and
    returns the address with the zone "z", which is another one. *)
Lemma zone_with_comma_is_split :
  (exists a, netip.ParseAddr "fe80::1%a,b"%go = inl a)
  /\ fst (run echo (exampleCommand "echo"%go ["fe80::1%a,b"%go])
            (createIPSettings true true))
     = Done (None, Some (Errorf "invalid IP: b"%go))
  /\ (exists a a',
        netip.ParseAddr "fe80::1%z "%go = inl a
        /\ fst (run echo (exampleCommand "echo"%go ["fe80::1%z "%go])
                  (createIPSettings true true))
           = Done (Some [a'], None)
        /\ a' <> a).
Proof.
  split; [eexists; reflexivity|]. split; [reflexivity|].
  eexists. eexists. split; [reflexivity|]. split; [reflexivity|].
  discriminate.
Qed.

Lemma GetIPs_fails_at_first_invalid_token_witness :
  fst (run echo (exampleCommand "echo"%go ["8.8.8.8,invalid-ip,1.1.1.1"%go])
         (createIPSettings true true))
  = Done (None, Some (Errorf "invalid IP: invalid-ip"%go)).
Proof.
  refine (proj1 (proj2
    (GetIPs_fails_at_first_invalid_token
       plainReplaceAll netip.ParseAddr netip.String anyRange echo
       (exampleCommand "echo"%go ["8.8.8.8,invalid-ip,1.1.1.1"%go])
       context.Background (createIPSettings true true)
       ("8.8.8.8,invalid-ip,1.1.1.1"%go ++ [x0a]) []
       eq_refl eq_refl)
    ["8.8.8.8"%go] "invalid-ip"%go ["1.1.1.1"%go]
    (ParseAddrError "unable to parse IP"%go)
    eq_refl _ eq_refl)).
  repeat constructor. eexists. reflexivity.
Defined.

Lemma GetIPs_without_tokens_returns_empty_witness :
  fst (run echo (exampleCommand "echo"%go [""%go]) (createIPSettings true true))
  = Done (Some [], None)
  /\ fst (run echo (exampleCommand "echo"%go [" , ,"%go])
            (createIPSettings true true))
     = Done (Some [], None).
Proof.
  split.
  - exact (proj1
      (GetIPs_without_tokens_returns_empty
         plainReplaceAll netip.ParseAddr netip.String anyRange echo
         (exampleCommand "echo"%go [""%go])
         context.Background (createIPSettings true true) [x0a] []
         eq_refl eq_refl) eq_refl).
  - refine (proj2 (proj2
      (GetIPs_without_tokens_returns_empty
         plainReplaceAll netip.ParseAddr netip.String anyRange echo
         (exampleCommand "echo"%go [" , ,"%go])
         context.Background (createIPSettings true true)
         (" , ,"%go ++ [x0a]) [] eq_refl eq_refl)) _).
    apply (boc_rune " "%go); [simpl; tauto|].
    apply boc_comma.
    apply (boc_rune " "%go); [simpl; tauto|].
    apply boc_comma.
    apply (boc_rune [x0a] []); [simpl; tauto|]. constructor.
Defined.

Lemma stderr_on_success_is_only_a_warning_witness :
  fst (run (program 0 "8.8.8.8"%go "warning: slow"%go)
         (exampleCommand "lookup"%go []) (createIPSettings true true))
  = Done (Some [addr_8_8_8_8], None).
Proof.
  destruct (stderr_on_success_is_only_a_warning
              plainReplaceAll netip.ParseAddr netip.String anyRange
              (program 0 "8.8.8.8"%go "warning: slow"%go)
              (program 0 "8.8.8.8"%go ""%go)
              (exampleCommand "lookup"%go [])
              context.Background (createIPSettings true true)
              "8.8.8.8"%go "warning: slow"%go
              eq_refl ltac:(discriminate) eq_refl eq_refl)
    as (_ & H & _).
  unfold run. rewrite H. reflexivity.
Defined.

Lemma nonzero_exit_returns_the_exit_error_witness :
  fst (run (program 3 ""%go ""%go)
         (exampleCommand "sh"%go ["-c"%go; "exit 3"%go])
         (createIPSettings true true))
  = Done (None, Some (ExitError (Exited 3)))
  /\ Error (ExitError (Exited 3)) = "exit status 3"%go.
Proof.
  destruct (nonzero_exit_returns_the_exit_error
              plainReplaceAll netip.ParseAddr netip.String anyRange
              (program 3 ""%go ""%go)
              (exampleCommand "sh"%go ["-c"%go; "exit 3"%go])
              context.Background (createIPSettings true true)
              3 ""%go ""%go eq_refl ltac:(discriminate) eq_refl)
    as (H1 & H2 & _).
  split; [exact H1|exact H2].
Defined.

Lemma run_error_is_returned_witness :
  fst (run notFound
         (exampleCommand "nonexistent-command-that-should-fail"%go [])
         (createIPSettings true true))
  = Done (None,
          Some (StartError
                  ("exec: "%go ++ [x22]
                   ++ "nonexistent-command-that-should-fail"%go ++ [x22]
                   ++ ": executable file not found in $PATH"%go))).
Proof.
  unfold run.
  rewrite (run_error_is_returned
             plainReplaceAll netip.ParseAddr netip.String anyRange notFound
             (exampleCommand "nonexistent-command-that-should-fail"%go [])
             context.Background (createIPSettings true true) _
             eq_refl eq_refl).
  reflexivity.
Defined.

Lemma unzoned_literals_parse_in_order_witness :
  fst (run echo
         (exampleCommand "echo"%go ["2001:4860:4860::8888 ,8.8.8.8"%go])
         (createIPSettings true true))
  = Done (Some [addr_2001_4860_4860__8888; addr_8_8_8_8], None).
Proof.
  refine (proj2
    (unzoned_literals_parse_in_order
       plainReplaceAll netip.String anyRange echo
       (exampleCommand "echo"%go ["2001:4860:4860::8888 ,8.8.8.8"%go])
       context.Background (createIPSettings true true) [] [] [x0a]
       [ (""%go, "2001:4860:4860::8888"%go, " "%go);
         (""%go, "8.8.8.8"%go, ""%go) ]
       [addr_2001_4860_4860__8888; addr_8_8_8_8]
       eq_refl blank_nil blank_newline _ _ eq_refl)).
  - repeat constructor; apply blank_space.
  - repeat constructor.
Defined.

Lemma Legacy_Provision_resolves_timeout_witness :
  Legacy.Timeout
    (fst (Legacy.Provision
            {| Legacy.Cmd := "echo"%go; Legacy.Args := [];
               Legacy.Dir := ""%go; Legacy.Timeout := 0;
               Legacy.logger := None |} exampleContext))
  = 30000000000.
Proof.
  refine (proj1 (proj2
    (Legacy_Provision_resolves_timeout
       {| Legacy.Cmd := "echo"%go; Legacy.Args := [];
          Legacy.Dir := ""%go; Legacy.Timeout := 0;
          Legacy.logger := None |} exampleContext)) _).
  discriminate.
Defined.

Lemma Legacy_stderr_is_a_failure_witness :
  fst (Legacy.GetIPs plainReplaceAll netip.Addr
         (fun s => match netip.ParseAddr s with
                   | inl a => Some a
                   | inr _ => None
                   end)
         netip.String (program 0 "8.8.8.8"%go "warning: slow"%go)
         {| Legacy.Cmd := "lookup"%go; Legacy.Args := [];
            Legacy.Dir := ""%go; Legacy.Timeout := 30 * Second;
            Legacy.logger := Some exampleLogger |}
         context.Background [])
  = Done (None, Some (Errorf "command lookup exited with: 0"%go)).
Proof.
  refine (Legacy_stderr_is_a_failure
            plainReplaceAll netip.Addr _ netip.String
            (program 0 "8.8.8.8"%go "warning: slow"%go)
            {| Legacy.Cmd := "lookup"%go; Legacy.Args := [];
               Legacy.Dir := ""%go; Legacy.Timeout := 30 * Second;
               Legacy.logger := Some exampleLogger |}
            context.Background "8.8.8.8"%go "warning: slow"%go _ _ eq_refl);
    discriminate.
Defined.

(** The scenarios of the tests. *)

Example IPv6Only :
  fst (run echo (exampleCommand "echo"%go ["8.8.8.8,2001:4860:4860::8888"%go])
         (createIPSettings false true))
  = Done (Some [addr_2001_4860_4860__8888], None).
Proof. reflexivity. Qed.

Example InvalidIP :
  fst (run echo (exampleCommand "echo"%go ["invalid-ip"%go])
         (createIPSettings true true))
  = Done (None, Some (Errorf "invalid IP: invalid-ip"%go)).
Proof. reflexivity. Qed.

Example EmptyOutput :
  fst (run echo (exampleCommand "echo"%go [""%go]) (createIPSettings true true))
  = Done (Some [], None).
Proof. reflexivity. Qed.

Example ProvisionDefault :
  Timeout (fst (Provision
                  {| Cmd := ""%go; Args := []; Dir := ""%go;
                     Timeout := None; logger := None |} exampleContext))
  = Some (30 * Second).
Proof. reflexivity. Qed.

Example String_roundtrips :
  map netip.String [addr_8_8_8_8; addr_2001_4860_4860__8888]
  = ["8.8.8.8"%go; "2001:4860:4860::8888"%go].
Proof. reflexivity. Qed.

Example expansion_of_placeholders :
  exec.Name
    (buildCmd (substitute exampleSubstitution None)
       (exampleCommand "{ip}"%go ["--addr={ip}"%go; "{unknown}"%go; "-v"%go])
       context.Background)
  = "{ip}"%go
  /\ exec.Args
       (buildCmd (substitute exampleSubstitution None)
          (exampleCommand "{ip}"%go ["--addr={ip}"%go; "{unknown}"%go; "-v"%go])
          context.Background)
     = ["--addr=8.8.8.8"%go; ""%go; "-v"%go].
Proof. split; reflexivity. Qed.

Lemma GetIPs_returns_addresses_or_an_error_witness :
  exists r,
    fst (run echo (exampleCommand "echo"%go ["8.8.8.8,invalid-ip"%go])
           (createIPSettings true true))
    = Done r
    /\ (fst r = None <-> snd r <> None).
Proof.
  destruct (GetIPs_returns_addresses_or_an_error
              plainReplaceAll netip.ParseAddr netip.String anyRange echo
              (exampleCommand "echo"%go ["8.8.8.8,invalid-ip"%go])
              context.Background (createIPSettings true true) eq_refl)
    as [(out & H & _)|(err & H & _)].
  - exists (Some out, None). split; [exact H|].
    simpl. split; [discriminate|congruence].
  - exists (None, Some err). split; [exact H|].
    simpl. split; [discriminate|reflexivity].
Defined.

Lemma GetIPs_logs_every_returned_address_witness :
  snd (run echo (exampleCommand "echo"%go ["8.8.8.8,2001:4860:4860::8888"%go])
         (createIPSettings true false))
  = [ runningEntry
        (exampleCommand "echo"%go ["8.8.8.8,2001:4860:4860::8888"%go])
        ["8.8.8.8,2001:4860:4860::8888"%go] (30 * Second);
      parsedEntry netip.String
        (exampleCommand "echo"%go ["8.8.8.8,2001:4860:4860::8888"%go])
        ["8.8.8.8,2001:4860:4860::8888"%go] addr_8_8_8_8 ].
Proof.
  unfold run.
  rewrite (GetIPs_logs_every_returned_address
             plainReplaceAll netip.ParseAddr netip.String anyRange echo
             (exampleCommand "echo"%go ["8.8.8.8,2001:4860:4860::8888"%go])
             context.Background (createIPSettings true false)
             ("8.8.8.8,2001:4860:4860::8888"%go ++ [x0a]) []
             [addr_8_8_8_8; addr_2001_4860_4860__8888]
             eq_refl eq_refl eq_refl).
  reflexivity.
Defined.

Lemma GetIPs_parses_only_clean_tokens_witness :
  GetIPs plainReplaceAll commaParser netip.String anyRange echo
    (exampleCommand "echo"%go ["8.8.8.8, 2001:4860:4860::8888"%go])
    context.Background (createIPSettings true true) []
  = run echo (exampleCommand "echo"%go ["8.8.8.8, 2001:4860:4860::8888"%go])
      (createIPSettings true true).
Proof.
  apply (GetIPs_parses_only_clean_tokens
           plainReplaceAll netip.ParseAddr netip.String anyRange commaParser).
  intros tok _ _ Hc. unfold commaParser.
  destruct (existsb (Byte.eqb ","%byte) tok) eqn:E; [|reflexivity].
  apply existsb_exists in E as (b & Hb & Eb).
  apply Byte.byte_dec_bl in Eb. subst b. contradiction.
Defined.

Lemma outer_white_space_is_immaterial_witness :
  fst (run echo (exampleCommand "echo"%go [" 8.8.8.8,invalid-ip"%go])
         (createIPSettings true true))
  = fst (run (program 0 "8.8.8.8,invalid-ip"%go ""%go)
           (exampleCommand "echo"%go [" 8.8.8.8,invalid-ip"%go])
           (createIPSettings true true)).
Proof.
  exact (proj2 (proj2
    (outer_white_space_is_immaterial
       plainReplaceAll netip.ParseAddr netip.String anyRange
       echo (program 0 "8.8.8.8,invalid-ip"%go ""%go)
       (exampleCommand "echo"%go [" 8.8.8.8,invalid-ip"%go])
       context.Background (createIPSettings true true)
       " "%go "8.8.8.8,invalid-ip"%go [x0a] [] []
       eq_refl blank_space blank_newline eq_refl eq_refl))).
Defined.

Lemma outputs_joined_by_a_comma_concatenate_witness :
  fst (run (program 0 "8.8.8.8,2001:4860:4860::8888"%go ""%go)
         (exampleCommand "lookup"%go []) (createIPSettings true true))
  = Done (Some ([addr_8_8_8_8] ++ [addr_2001_4860_4860__8888]), None).
Proof.
  exact (proj2
    (outputs_joined_by_a_comma_concatenate
       plainReplaceAll netip.ParseAddr netip.String anyRange
       (program 0 "8.8.8.8"%go ""%go)
       (program 0 "2001:4860:4860::8888"%go ""%go)
       (program 0 "8.8.8.8,2001:4860:4860::8888"%go ""%go)
       (exampleCommand "lookup"%go [])
       context.Background (createIPSettings true true)
       "8.8.8.8"%go "2001:4860:4860::8888"%go [] [] []
       eq_refl eq_refl eq_refl eq_refl)).
Defined.

Lemma errors_do_not_depend_on_the_settings_witness :
  fst (run echo (exampleCommand "echo"%go ["8.8.8.8,invalid-ip"%go])
         (createIPSettings false false))
  = Done (None, Some (Errorf "invalid IP: invalid-ip"%go)).
Proof.
  exact (errors_do_not_depend_on_the_settings
           plainReplaceAll netip.ParseAddr netip.String anyRange echo
           (exampleCommand "echo"%go ["8.8.8.8,invalid-ip"%go])
           context.Background (createIPSettings true true)
           (createIPSettings false false)
           (Errorf "invalid IP: invalid-ip"%go) eq_refl eq_refl).
Defined.

Lemma UnmarshalCaddyfile_last_directive_wins_witness :
  UnmarshalCaddyfile plainIsNextOnNewLine plainArgErr zeroCommand
    (caddyfile.NewDispenser
       [ testToken 1 "command"%go; testToken 1 "date"%go;
         testToken 2 "command"%go; testToken 2 "echo"%go;
         testToken 2 "hello"%go ])
  = Some ({| Cmd := "echo"%go; Args := ["hello"%go]; Dir := ""%go;
             Timeout := None; logger := None |},
          atToken
            [ testToken 1 "command"%go; testToken 1 "date"%go;
              testToken 2 "command"%go; testToken 2 "echo"%go;
              testToken 2 "hello"%go ] 4,
          None).
Proof.
  refine (UnmarshalCaddyfile_last_directive_wins
            plainIsNextOnNewLine plainArgErr
            [ (testToken 1 "command"%go, testToken 1 "date"%go, []) ]
            (testToken 2 "command"%go) (testToken 2 "echo"%go)
            [testToken 2 "hello"%go] zeroCommand _).
  simpl. repeat split; reflexivity.
Defined.

Lemma UnmarshalCaddyfile_missing_argument_witness :
  UnmarshalCaddyfile plainIsNextOnNewLine plainArgErr zeroCommand
    (caddyfile.NewDispenser
       [ testToken 1 "command"%go; testToken 1 "echo"%go;
         testToken 1 "hello"%go; testToken 2 "command"%go ])
  = Some ({| Cmd := "echo"%go; Args := ["hello"%go]; Dir := ""%go;
             Timeout := None; logger := None |},
          atToken
            [ testToken 1 "command"%go; testToken 1 "echo"%go;
              testToken 1 "hello"%go; testToken 2 "command"%go ] 3,
          Some (Errorf
                  "wrong argument count or unexpected line ending after 'command'"%go)).
Proof.
  refine (proj1
    (UnmarshalCaddyfile_missing_argument
       plainIsNextOnNewLine plainArgErr
       [ (testToken 1 "command"%go, testToken 1 "echo"%go,
          [testToken 1 "hello"%go]) ]
       (testToken 2 "command"%go) [] zeroCommand _ eq_refl)).
  simpl. repeat split; reflexivity.
Defined.

Lemma Legacy_GetIPs_returns_every_address_witness :
  fst (Legacy.GetIPs plainReplaceAll netip.Addr exampleParseIP netip.String
         echo (legacyCommand "echo"%go ["8.8.8.8, 2001:4860:4860::8888"%go])
         context.Background [])
  = Done (Some [addr_8_8_8_8; addr_2001_4860_4860__8888], None).
Proof.
  refine (proj1
    (Legacy_GetIPs_returns_every_address
       plainReplaceAll netip.Addr exampleParseIP netip.String echo
       (legacyCommand "echo"%go ["8.8.8.8, 2001:4860:4860::8888"%go])
       context.Background ("8.8.8.8, 2001:4860:4860::8888"%go ++ [x0a])
       [addr_8_8_8_8; addr_2001_4860_4860__8888] _ eq_refl
       (Forall2_cons "8.8.8.8"%go addr_8_8_8_8 eq_refl
          (Forall2_cons (" 2001:4860:4860::8888"%go ++ [x0a])
             addr_2001_4860_4860__8888 eq_refl (Forall2_nil _))))).
  discriminate.
Defined.

Lemma Legacy_GetIPs_names_the_untrimmed_field_witness :
  fst (Legacy.GetIPs plainReplaceAll netip.Addr exampleParseIP netip.String
         (program 0 "8.8.8.8, invalid-ip ,1.1.1.1"%go ""%go)
         (legacyCommand "lookup"%go []) context.Background [])
  = Done (None, Some (Errorf "invalid IP:  invalid-ip "%go)).
Proof.
  refine (Legacy_GetIPs_names_the_untrimmed_field
            plainReplaceAll netip.Addr exampleParseIP netip.String
            (program 0 "8.8.8.8, invalid-ip ,1.1.1.1"%go ""%go)
            (legacyCommand "lookup"%go []) context.Background
            "8.8.8.8, invalid-ip ,1.1.1.1"%go
            ["8.8.8.8"%go] ["1.1.1.1"%go] " invalid-ip "%go
            _ eq_refl eq_refl _ eq_refl).
  - discriminate.
  - repeat constructor. discriminate.
Defined.

Lemma Legacy_GetIPs_fails_on_empty_fields_witness :
  fst (Legacy.GetIPs plainReplaceAll netip.Addr exampleParseIP netip.String
         (program 0 ""%go ""%go) (legacyCommand "lookup"%go [])
         context.Background [])
  = Done (None, Some (Errorf "invalid IP: "%go)).
Proof.
  destruct (Legacy_GetIPs_fails_on_empty_fields
              plainReplaceAll netip.Addr exampleParseIP netip.String
              (program 0 ""%go ""%go) (legacyCommand "lookup"%go [])
              context.Background ""%go
              ltac:(discriminate) eq_refl eq_refl
              (Exists_cons_hd blank [] [] blank_nil))
    as (bad & Hin & H).
  destruct Hin as [<-|[]]. exact H.
Defined.

(** The cases of [TestCommand_UnmarshalCaddyfile]. *)

Example UnmarshalSimpleCommand :
  option_map (fun r => (Cmd (fst (fst r)), Args (fst (fst r)), snd r))
    (UnmarshalCaddyfile plainIsNextOnNewLine plainArgErr zeroCommand
       (caddyfile.NewDispenser
          [ testToken 1 "command"%go; testToken 1 "echo"%go;
            testToken 1 "hello"%go ]))
  = Some ("echo"%go, ["hello"%go], None).
Proof. reflexivity. Qed.

Example UnmarshalMultipleArgs :
  option_map (fun r => (Cmd (fst (fst r)), Args (fst (fst r)), snd r))
    (UnmarshalCaddyfile plainIsNextOnNewLine plainArgErr zeroCommand
       (caddyfile.NewDispenser
          [ testToken 1 "command"%go; testToken 1 "curl"%go;
            testToken 1 "-s"%go; testToken 1 "https://example.com/ip"%go ]))
  = Some ("curl"%go, ["-s"%go; "https://example.com/ip"%go], None).
Proof. reflexivity. Qed.

Example UnmarshalCommandOnly :
  option_map (fun r => (Cmd (fst (fst r)), Args (fst (fst r)), snd r))
    (UnmarshalCaddyfile plainIsNextOnNewLine plainArgErr zeroCommand
       (caddyfile.NewDispenser
          [ testToken 1 "command"%go; testToken 1 "date"%go ]))
  = Some ("date"%go, [], None).
Proof. reflexivity. Qed.

Example UnmarshalNoCommand :
  option_map snd
    (UnmarshalCaddyfile plainIsNextOnNewLine plainArgErr zeroCommand
       (caddyfile.NewDispenser [ testToken 1 "command"%go ]))
  = Some (Some (Errorf
                  "wrong argument count or unexpected line ending after 'command'"%go)).
Proof. reflexivity. Qed.

Lemma arguments_expanded_command_kept_witness :
  exec.Name
    (buildCmd (caddy.ReplaceAll exampleSubstitution)
       (exampleCommand "{ip}"%go
          ["--addr={ip}"%go; "{unknown}"%go; "-v"%go; "{ip} {"%go])
       context.Background)
  = "{ip}"%go
  /\ exec.Args
       (buildCmd (caddy.ReplaceAll exampleSubstitution)
          (exampleCommand "{ip}"%go
             ["--addr={ip}"%go; "{unknown}"%go; "-v"%go; "{ip} {"%go])
          context.Background)
     = ["--addr=8.8.8.8"%go; ""%go; "-v"%go; "8.8.8.8 {"%go].
Proof.
  destruct (arguments_expanded_command_kept
              exampleSubstitution netip.ParseAddr netip.String anyRange
              (exampleCommand "{ip}"%go
                 ["--addr={ip}"%go; "{unknown}"%go; "-v"%go; "{ip} {"%go])
              context.Background
              [ ([Text "--addr="%go; Placeholder "ip"%go], ""%go);
                ([Placeholder "unknown"%go], ""%go);
                ([Text "-v"%go], ""%go);
                ([Placeholder "ip"%go], " {"%go) ])
    as (H1 & _ & _ & _ & _ & _ & _ & H8 & _).
  - repeat constructor; simpl; try lia; intuition discriminate.
  - reflexivity.
  - split; [exact H8|]. rewrite H1. reflexivity.
Defined.

(** C9, as it is stated, fails.  With more than 101 opening braces
    that are not closed [replace] gives up ("too many unclosed
    placeholders"); [ReplaceAll] drops the error and returns the empty
    string.  The argument that holds the placeholder of the key [ip],
    which has a value, and 102 opening braces after it is expanded to the
    empty string: the placeholder is not replaced by its value, and
    the text is not kept.  A backslash before a brace escapes it: the
    backslash is dropped, and the placeholder after it is not
    replaced. *)
Lemma unclosed_braces_empty_the_argument :
  exampleSubstitution "ip"%go = Some "8.8.8.8"%go
  /\ exec.Args
       (buildCmd (caddy.ReplaceAll exampleSubstitution)
          (exampleCommand "echo"%go ["{ip}"%go ++ repeat "{"%byte 102])
          context.Background)
     = [""%go]
  /\ caddy.replace exampleSubstitution ("{ip}"%go ++ repeat "{"%byte 102)
       ""%go true false false
     = Some (""%go, Some (Errorf "too many unclosed placeholders"%go))
  /\ exec.Args
       (buildCmd (caddy.ReplaceAll exampleSubstitution)
          (exampleCommand "echo"%go ["{ip}"%go ++ repeat "{"%byte 102])
          context.Background)
     <> ["8.8.8.8"%go ++ repeat "{"%byte 102]
  /\ unclosed ("{ip}"%go ++ repeat "{"%byte 102) = 102%nat
  /\ exec.Args
       (buildCmd (caddy.ReplaceAll exampleSubstitution)
          (exampleCommand "echo"%go [[x5c] ++ "{ip}"%go])
          context.Background)
     = ["{ip}"%go]
  /\ escapesBrace ([x5c] ++ "{ip}"%go) = true.
Proof. repeat split. discriminate. Qed.

(** Cases of the test of Caddy's replacer: braces without a partner
    are kept, an escaped brace loses its backslash, an unknown key
    gives the empty string. *)
Example ReplaceAll_cases :
  map (fun input => caddy.ReplaceAll exampleSubstitution input ""%go)
    [ "{"%go; [x5c] ++ "{"%go; "foo{"%go; "foo{bar"%go; "foo{bar}"%go;
      "foo"%go ++ [x5c] ++ "{bar"%go ++ [x5c] ++ "}"%go;
      "}"%go; [x5c] ++ "}"%go; "{}"%go; "{{"%go; "{{}"%go ]
  = [ "{"%go; "{"%go; "foo{"%go; "foo{bar"%go; "foo"%go; "foo{bar}"%go;
      "}"%go; "}"%go; ""%go; "{{"%go; ""%go ].
Proof. reflexivity. Qed.
